(** * EmojiDB: a shallow embedding of the engine core and its safety log

    The development follows [core/db.go] and [safety/safety_api.go].
    Go maps are reference objects: a [Row] handed to [Insert] and the row
    later seen by [Update] are one and the same map.  Rows therefore live
    in a store ([Heap]) and tables hold references ([loc]) into it. *)

From Stdlib Require Import ZArith.
From Stdlib Require Strings.Byte.
From stdpp Require Import base option list strings gmap sets fin_maps pretty.

#[local] Set Warnings "-clear-no-such-hyp".

Local Open Scope string_scope.
Local Open Scope list_scope.
Local Open Scope Z_scope.

(** ** Data model *)

(** Modelled from the spec: the declaration of [Row] ([map[string]interface{}]
    by its uses in the source) is not part of the sources at hand.  A value
    is a dynamically typed scalar; [VNil] is what Go yields when a key is
    absent and the value is read without the [ok] flag.  [VInt n] is a Go
    [int]; [VFloat n] is the [float64] whose value is the whole number
    [n], the type [encoding/json] gives every number it reads: as keys of
    a Go map [int] 1 and [float64] 1 differ.  Numbers with a fractional
    part or beyond the range of their Go type and nested maps are not
    represented; strings are text (valid UTF-8), which JSON carries
    unchanged. *)
Inductive Value :=
  | VNil
  | VInt (n : Z)
  | VStr (s : string)
  | VBool (b : bool)
  | VFloat (n : Z).

Global Instance Value_eq_dec : EqDecision Value.
Proof. solve_decision. Defined.

Definition Value_to_sum (v : Value) : unit + (Z + (string + (bool + Z))) :=
  match v with
  | VNil => inl tt
  | VInt n => inr (inl n)
  | VStr s => inr (inr (inl s))
  | VBool b => inr (inr (inr (inl b)))
  | VFloat n => inr (inr (inr (inr n)))
  end.

Definition Value_of_sum (x : unit + (Z + (string + (bool + Z)))) : Value :=
  match x with
  | inl _ => VNil
  | inr (inl n) => VInt n
  | inr (inr (inl s)) => VStr s
  | inr (inr (inr (inl b))) => VBool b
  | inr (inr (inr (inr n))) => VFloat n
  end.

Global Instance Value_countable : Countable Value.
Proof.
  apply (inj_countable' Value_to_sum Value_of_sum).
  by intros [].
Defined.

(** A row is a map from field names to values; a [loc] is a reference to a
    row object. *)
Abbreviation Row := (gmap string Value).
Abbreviation loc := positive.
Abbreviation Store := (gmap loc Row).

(** Reading through a reference.  A reference without an object reads as
    the empty row (a nil map reads as empty in Go). *)
Definition deref (h : Store) (l : loc) : Row := default ∅ (h !! l).

(** Go's [time.Time], as nanoseconds since the zero time. *)
Abbreviation Time := Z.

(** [t.Truncate(time.Second)]: round down to a multiple of one second. *)
Definition Truncate_Second (t : Time) : Time := t - t `mod` 1000000000.

(** Field type codes: 0 integer, 1 string, 2 boolean, 3 float, 4 map. *)
Abbreviation FieldType := Z.
Definition FieldTypeInt : FieldType := 0.
Definition FieldTypeString : FieldType := 1.

Record Field := mkField {
  Name : string;
  Type_ : FieldType;
  Unique : bool
}.

Global Instance Field_eq_dec : EqDecision Field.
Proof. solve_decision. Defined.

Record Schema := mkSchema {
  Version : Z;
  Fields : list Field
}.

Record HotHeap := mkHotHeap {
  Rows : list loc;
  MaxRows : Z;
  CreatedAt : Time
}.

(** Modelled from the spec: [NewHotHeap] is not part of the sources at hand.
    The spec gives a HotHeap an ordered sequence of rows, a creation
    timestamp and a maximum-row capacity; a new one is empty. *)
Definition NewHotHeap (maxRows : Z) (now : Time) : HotHeap :=
  {| Rows := []; MaxRows := maxRows; CreatedAt := now |}.

Record ClumpMetadata := mkClumpMetadata {
  RowCount : Z;
  MetaCreatedAt : Time;
  SchemaVersion : Z
}.

Record SealedClump := mkSealedClump {
  ClumpRows : list loc;
  SealedAt : Time;
  Metadata : ClumpMetadata
}.

Record Table := mkTable {
  TableName_ : string;
  TableSchema : Schema;
  TableHotHeap : HotHeap;
  SealedClumps : list SealedClump;
  UniqueIndices : gmap string (gset Value)
}.

(** Modelled from the spec: [storage.PersistClump] is not part of the
    sources at hand.  A record of the data file is a table name and a
    clump, serialized: the rows are written by content. *)
Record PersistedClump := mkPersistedClump {
  PTable : string;
  PRows : list Row;
  PSealedAt : Time;
  PMetadata : ClumpMetadata
}.

(** [SafetyBackup]: table name, timestamp, row. *)
Record SafetyBackup := mkSafetyBackup {
  BTableName : string;
  BTimestamp : Time;
  BData : Row
}.

(** Modelled from the spec: the framing layer of the safety log
    ([readIntEmoji], [crypto.DecodeOne], [crypto.Decrypt], the JSON codec)
    is not part of the sources at hand.  The safety file is the sequence
    of its frames, each tagged with what reading it yields in [Restore]:
    a backup record, a record that fails to decrypt or to deserialize
    (passed over), or a frame on which the size field or a symbol cannot
    be read (the error is returned). *)
Inductive Frame :=
  | FrameBackup (b : SafetyBackup)
  | FrameUnreadable
  | FrameBroken (err : string).

Record Database := mkDatabase {
  Key : string;
  Schemas : gmap string Schema;
  Tables : gmap string Table;
  Orphans : gmap string (list SealedClump);
  Heap : Store;
  File : list PersistedClump;
  Dispatched : list (string * SealedClump);
  SafetyFile : list Frame;
  SchemaFile : gmap string Schema
}.

(** Go's [error] results. *)
Inductive result :=
  | Ok
  | Err (msg : string).

Global Instance result_eq_dec : EqDecision result.
Proof. solve_decision. Defined.

(** ** Record updates *)

Definition with_Rows (rows : list loc) (h : HotHeap) : HotHeap :=
  {| Rows := rows; MaxRows := MaxRows h; CreatedAt := CreatedAt h |}.

Definition with_Schema (s : Schema) (idx : gmap string (gset Value))
    (t : Table) : Table :=
  {| TableName_ := TableName_ t; TableSchema := s;
     TableHotHeap := TableHotHeap t; SealedClumps := SealedClumps t;
     UniqueIndices := idx |}.

Definition with_HotHeap (h : HotHeap) (t : Table) : Table :=
  {| TableName_ := TableName_ t; TableSchema := TableSchema t;
     TableHotHeap := h; SealedClumps := SealedClumps t;
     UniqueIndices := UniqueIndices t |}.

Definition with_SealedClumps (cs : list SealedClump) (t : Table) : Table :=
  {| TableName_ := TableName_ t; TableSchema := TableSchema t;
     TableHotHeap := TableHotHeap t; SealedClumps := cs;
     UniqueIndices := UniqueIndices t |}.

Definition with_UniqueIndices (idx : gmap string (gset Value))
    (t : Table) : Table :=
  {| TableName_ := TableName_ t; TableSchema := TableSchema t;
     TableHotHeap := TableHotHeap t; SealedClumps := SealedClumps t;
     UniqueIndices := idx |}.

Definition with_Schemas (s : gmap string Schema) (db : Database) : Database :=
  {| Key := Key db; Schemas := s; Tables := Tables db; Orphans := Orphans db;
     Heap := Heap db; File := File db; Dispatched := Dispatched db;
     SafetyFile := SafetyFile db; SchemaFile := SchemaFile db |}.

Definition with_Tables (ts : gmap string Table) (db : Database) : Database :=
  {| Key := Key db; Schemas := Schemas db; Tables := ts; Orphans := Orphans db;
     Heap := Heap db; File := File db; Dispatched := Dispatched db;
     SafetyFile := SafetyFile db; SchemaFile := SchemaFile db |}.

Definition with_Orphans (o : gmap string (list SealedClump))
    (db : Database) : Database :=
  {| Key := Key db; Schemas := Schemas db; Tables := Tables db; Orphans := o;
     Heap := Heap db; File := File db; Dispatched := Dispatched db;
     SafetyFile := SafetyFile db; SchemaFile := SchemaFile db |}.

Definition with_Heap (h : Store) (db : Database) : Database :=
  {| Key := Key db; Schemas := Schemas db; Tables := Tables db;
     Orphans := Orphans db; Heap := h; File := File db;
     Dispatched := Dispatched db; SafetyFile := SafetyFile db;
     SchemaFile := SchemaFile db |}.

Definition with_File (f : list PersistedClump) (db : Database) : Database :=
  {| Key := Key db; Schemas := Schemas db; Tables := Tables db;
     Orphans := Orphans db; Heap := Heap db; File := f;
     Dispatched := Dispatched db; SafetyFile := SafetyFile db;
     SchemaFile := SchemaFile db |}.

Definition with_Dispatched (d : list (string * SealedClump))
    (db : Database) : Database :=
  {| Key := Key db; Schemas := Schemas db; Tables := Tables db;
     Orphans := Orphans db; Heap := Heap db; File := File db;
     Dispatched := d; SafetyFile := SafetyFile db;
     SchemaFile := SchemaFile db |}.

Definition with_SafetyFile (s : list Frame) (db : Database) : Database :=
  {| Key := Key db; Schemas := Schemas db; Tables := Tables db;
     Orphans := Orphans db; Heap := Heap db; File := File db;
     Dispatched := Dispatched db; SafetyFile := s;
     SchemaFile := SchemaFile db |}.

Definition with_SchemaFile (s : gmap string Schema) (db : Database) : Database :=
  {| Key := Key db; Schemas := Schemas db; Tables := Tables db;
     Orphans := Orphans db; Heap := Heap db; File := File db;
     Dispatched := Dispatched db; SafetyFile := SafetyFile db;
     SchemaFile := s |}.

(** ** core/db.go *)

(** The database [Open] builds before anything is loaded: empty maps and
    empty files. *)
Definition Open (key : string) : Database :=
  {| Key := key; Schemas := ∅; Tables := ∅; Orphans := ∅; Heap := ∅;
     File := []; Dispatched := []; SafetyFile := []; SchemaFile := ∅ |}.

(** [SaveSchemas] rewrites the schema file with the schema map. *)
Definition SaveSchemas (db : Database) : Database * result :=
  (with_SchemaFile (Schemas db) db, Ok).

(** [row[name]] read without the [ok] flag. *)
Definition get (row : Row) (name : string) : Value :=
  default VNil (row !! name).

(** [table.UniqueIndices[name]], the set for one field. *)
Definition index_of (idx : gmap string (gset Value)) (name : string)
    : gset Value :=
  default ∅ (idx !! name).

(** [table.UniqueIndices[name][val] = struct{}{}]. *)
Definition index_add (name : string) (val : Value)
    (idx : gmap string (gset Value)) : gmap string (gset Value) :=
  <[name := {[val]} ∪ index_of idx name]> idx.

(** One empty set per unique field. *)
Definition make_indices (fields : list Field) : gmap string (gset Value) :=
  foldl (λ idx f, if Unique f then <[Name f := ∅]> idx else idx) ∅ fields.

(** The loops of [DefineSchema] that populate the indices from restored
    clumps: the value is read without the [ok] flag. *)
Definition index_row_nil (fields : list Field) (row : Row)
    (idx : gmap string (gset Value)) : gmap string (gset Value) :=
  foldl (λ idx f, if Unique f then index_add (Name f) (get row (Name f)) idx
                  else idx) idx fields.

Definition index_clumps_nil (h : Store) (fields : list Field)
    (clumps : list SealedClump) (idx : gmap string (gset Value))
    : gmap string (gset Value) :=
  foldl (λ idx clump,
           foldl (λ idx l, index_row_nil fields (deref h l) idx)
                 idx (ClumpRows clump))
        idx clumps.

Definition DefineSchema (db : Database) (tableName : string)
    (fields : list Field) (now : Time) : Database * result :=
  let schema := {| Version := 1; Fields := fields |} in
  let db1 := with_Schemas (<[tableName := schema]> (Schemas db)) db in
  let indices := make_indices fields in
  let db2 :=
    match Tables db1 !! tableName with
    | Some table =>
        with_Tables (<[tableName := with_Schema schema indices table]>
                       (Tables db1)) db1
    | None =>
        let table :=
          {| TableName_ := tableName; TableSchema := schema;
             TableHotHeap := NewHotHeap 1000 now; SealedClumps := [];
             UniqueIndices := indices |} in
        match Orphans db1 !! tableName with
        | Some orphans =>
            let table' :=
              with_UniqueIndices
                (index_clumps_nil (Heap db1) fields orphans indices)
                (with_SealedClumps orphans table) in
            with_Orphans (delete tableName (Orphans db1))
              (with_Tables (<[tableName := table']> (Tables db1)) db1)
        | None => with_Tables (<[tableName := table]> (Tables db1)) db1
        end
    end in
  SaveSchemas db2.

(** Entries of [ConflictReport.Conflicts].  The source formats each one as
    a string with the prefix that names the constructor here, followed by
    the field name (and, for a type change, the two type codes). *)
Inductive Conflict :=
  | TABLE_NEW
  | TYPE_MISMATCH (field : string) (old new : FieldType)
  | FIELD_ADD (field : string)
  | FIELD_REMOVE (field : string).

Global Instance Conflict_eq_dec : EqDecision Conflict.
Proof. solve_decision. Defined.

Record ConflictReport := mkConflictReport {
  Compatiable : bool;
  Destructive : bool;
  Conflicts : list Conflict
}.

(** [for _, f := range fields { m[f.Name] = f }]: a later field of the
    same name replaces an earlier one. *)
Definition fieldMap (fields : list Field) : gmap string Field :=
  foldl (λ m f, <[Name f := f]> m) ∅ fields.

(** Body of the loop over the new fields. *)
Definition diff_new_field (currentFieldMap : gmap string Field)
    (report : ConflictReport) (f : Field) : ConflictReport :=
  match currentFieldMap !! Name f with
  | Some oldF =>
      if bool_decide (Type_ oldF ≠ Type_ f) then
        {| Compatiable := false; Destructive := Destructive report;
           Conflicts := Conflicts report
                        ++ [TYPE_MISMATCH (Name f) (Type_ oldF) (Type_ f)] |}
      else report
  | None =>
      {| Compatiable := Compatiable report; Destructive := Destructive report;
         Conflicts := Conflicts report ++ [FIELD_ADD (Name f)] |}
  end.

(** Body of the loop over the names of the current fields. *)
Definition diff_old_name (newFieldMap : gmap string Field)
    (report : ConflictReport) (oldName : string) : ConflictReport :=
  match newFieldMap !! oldName with
  | Some _ => report
  | None =>
      {| Compatiable := Compatiable report; Destructive := true;
         Conflicts := Conflicts report ++ [FIELD_REMOVE oldName] |}
  end.

(** Go leaves the order in which a map is ranged over unspecified; the
    removal entries come here in the order of [map_to_list]. *)
Definition DiffSchema (db : Database) (tableName : string)
    (newFields : list Field) : ConflictReport :=
  let report :=
    {| Compatiable := true; Destructive := false; Conflicts := [] |} in
  match Schemas db !! tableName with
  | None =>
      {| Compatiable := Compatiable report; Destructive := Destructive report;
         Conflicts := Conflicts report ++ [TABLE_NEW] |}
  | Some currentSchema =>
      let currentFieldMap := fieldMap (Fields currentSchema) in
      let newFieldMap := fieldMap newFields in
      let report1 := foldl (diff_new_field currentFieldMap) report newFields in
      foldl (diff_old_name newFieldMap) report1
            (fst <$> map_to_list currentFieldMap)
  end.

(** Go's [error] results that carry the conflict list of a report
    ([fmt.Errorf("incompatible schema change: %v", report.Conflicts)]). *)
Inductive sync_result :=
  | SyncOk
  | SyncIncompatible (conflicts : list Conflict).

(** The loops of [SyncSchema] that recompute the indices: only values that
    are present are recorded. *)
Definition index_row_ok (fields : list Field) (row : Row)
    (idx : gmap string (gset Value)) : gmap string (gset Value) :=
  foldl (λ idx f,
           if Unique f then
             match row !! Name f with
             | Some val => index_add (Name f) val idx
             | None => idx
             end
           else idx) idx fields.

Definition index_rows_ok (h : Store) (fields : list Field)
    (rows : list loc) (idx : gmap string (gset Value))
    : gmap string (gset Value) :=
  foldl (λ idx l, index_row_ok fields (deref h l) idx) idx rows.

Definition index_clumps_ok (h : Store) (fields : list Field)
    (clumps : list SealedClump) (idx : gmap string (gset Value))
    : gmap string (gset Value) :=
  foldl (λ idx clump, index_rows_ok h fields (ClumpRows clump) idx)
        idx clumps.

Definition SyncSchema (db : Database) (tableName : string)
    (newFields : list Field) : Database * sync_result :=
  let report := DiffSchema db tableName newFields in
  if negb (Compatiable report) then (db, SyncIncompatible (Conflicts report))
  else
    let schema := {| Version := 1; Fields := newFields |} in
    let db1 := with_Schemas (<[tableName := schema]> (Schemas db)) db in
    let db2 :=
      match Tables db1 !! tableName with
      | Some table =>
          let indices := make_indices newFields in
          let indices1 :=
            index_clumps_ok (Heap db1) newFields (SealedClumps table) indices in
          let indices2 :=
            index_rows_ok (Heap db1) newFields (Rows (TableHotHeap table))
                          indices1 in
          with_Tables (<[tableName := with_Schema schema indices2 table]>
                         (Tables db1)) db1
      | None => db1
      end in
    (fst (SaveSchemas db2), SyncOk).

(** The constraint loop of [Insert]: the first field that is missing or
    whose unique value is already indexed decides the error. *)
Fixpoint check_constraints (idx : gmap string (gset Value))
    (record : Row) (fields : list Field) : result :=
  match fields with
  | [] => Ok
  | field :: rest =>
      match record !! Name field with
      | None => Err ("missing field: " ++ Name field)
      | Some val =>
          if Unique field && bool_decide (val ∈ index_of idx (Name field))
          then Err ("unique constraint violation: " ++ Name field)
          else check_constraints idx record rest
      end
  end.

(** The loop that records the unique values of one accepted row. *)
Definition apply_indices (fields : list Field) (record : Row)
    (idx : gmap string (gset Value)) : gmap string (gset Value) :=
  foldl (λ idx field,
           if Unique field
           then index_add (Name field) (get record (Name field)) idx
           else idx) idx fields.

(** The clump built from the live HotHeap when it is sealed. *)
Definition clump_of (table : Table) (now : Time) : SealedClump :=
  {| ClumpRows := Rows (TableHotHeap table);
     SealedAt := now;
     Metadata :=
       {| RowCount := Z.of_nat (length (Rows (TableHotHeap table)));
          MetaCreatedAt := CreatedAt (TableHotHeap table);
          SchemaVersion := Version (TableSchema table) |} |}.

(** Append the clump to the table and swap in a fresh HotHeap. *)
Definition seal (table : Table) (now : Time) : Table :=
  with_HotHeap (NewHotHeap 1000 now)
    (with_SealedClumps (SealedClumps table ++ [clump_of table now]) table).

(** The auto-flush that ends [Insert] and [BulkInsert]: the capacity is
    tested after the rows are appended; persistence is handed to a
    goroutine, [go db.PersistClump(tableName, clump)], which is recorded
    in [Dispatched] until it runs ([run_dispatched] below): the data file
    receives the record then, not before the call returns. *)
Definition auto_flush (db : Database) (tableName : string) (table : Table)
    (now : Time) : Database :=
  if bool_decide (MaxRows (TableHotHeap table)
                  ≤ Z.of_nat (length (Rows (TableHotHeap table))))%Z then
    with_Dispatched (Dispatched db ++ [(tableName, clump_of table now)])
      (with_Tables (<[tableName := seal table now]> (Tables db)) db)
  else with_Tables (<[tableName := table]> (Tables db)) db.

Definition append_row (record : loc) (table : Table) : Table :=
  with_HotHeap
    (with_Rows (Rows (TableHotHeap table) ++ [record]) (TableHotHeap table))
    table.

Definition Insert (db : Database) (tableName : string) (record : loc)
    (now : Time) : Database * result :=
  match Tables db !! tableName with
  | None => (db, Err ("table not found: " ++ tableName))
  | Some table =>
      let row := deref (Heap db) record in
      match check_constraints (UniqueIndices table) row
              (Fields (TableSchema table)) with
      | Err e => (db, Err e)
      | Ok =>
          let table1 :=
            with_UniqueIndices
              (apply_indices (Fields (TableSchema table)) row
                             (UniqueIndices table)) table in
          let table2 := append_row record table1 in
          (auto_flush db tableName table2 now, Ok)
      end
  end.

(** Validation of row [i] of a batch against the schema, the indices and
    the rows [earlier] that precede it in the batch. *)
Fixpoint bulk_check_row (idx : gmap string (gset Value))
    (earlier : list Row) (i : nat) (record : Row) (fields : list Field)
    : result :=
  match fields with
  | [] => Ok
  | field :: rest =>
      match record !! Name field with
      | None =>
          Err ("row " ++ pretty i ++ ": missing field: " ++ Name field)
      | Some val =>
          if Unique field then
            if bool_decide (val ∈ index_of idx (Name field)) then
              Err ("row " ++ pretty i ++ ": unique constraint violation: "
                   ++ Name field)
            else if existsb (λ r, bool_decide (get r (Name field) = val))
                            earlier then
              Err ("row " ++ pretty i
                   ++ ": duplicate value in batch for field: " ++ Name field)
            else bulk_check_row idx earlier i record rest
          else bulk_check_row idx earlier i record rest
      end
  end.

(** The validation phase: rows are checked in order, [earlier] holding the
    rows already checked. *)
Fixpoint bulk_validate (idx : gmap string (gset Value))
    (fields : list Field) (earlier : list Row) (records : list Row)
    : result :=
  match records with
  | [] => Ok
  | record :: rest =>
      match bulk_check_row idx earlier (length earlier) record fields with
      | Err e => Err e
      | Ok => bulk_validate idx fields (earlier ++ [record]) rest
      end
  end.

(** The application phase. *)
Definition bulk_apply (h : Store) (records : list loc) (table : Table)
    : Table :=
  foldl (λ table record,
           append_row record
             (with_UniqueIndices
                (apply_indices (Fields (TableSchema table)) (deref h record)
                               (UniqueIndices table)) table))
        table records.

Definition BulkInsert (db : Database) (tableName : string)
    (records : list loc) (now : Time) : Database * result :=
  match Tables db !! tableName with
  | None => (db, Err ("table not found: " ++ tableName))
  | Some table =>
      match bulk_validate (UniqueIndices table) (Fields (TableSchema table))
              [] (deref (Heap db) <$> records) with
      | Err e => (db, Err e)
      | Ok =>
          (auto_flush db tableName (bulk_apply (Heap db) records table) now,
           Ok)
      end
  end.

(** The record [storage.PersistClump] appends for a clump. *)
Definition persisted (h : Store) (tableName : string) (clump : SealedClump)
    : PersistedClump :=
  {| PTable := tableName; PRows := deref h <$> ClumpRows clump;
     PSealedAt := SealedAt clump; PMetadata := Metadata clump |}.

Definition Flush (db : Database) (tableName : string) (now : Time)
    : Database * result :=
  match Tables db !! tableName with
  | None => (db, Err "table not found")
  | Some table =>
      if bool_decide (length (Rows (TableHotHeap table)) = 0%nat) then
        (db, Ok)
      else
        let clump := clump_of table now in
        (with_File (File db ++ [persisted (Heap db) tableName clump])
           (with_Tables (<[tableName := seal table now]> (Tables db)) db),
         Ok)
  end.

(** [DumpAsJSON] materializes the sealed rows in seal order, then the
    live HotHeap. *)
Definition table_rows (table : Table) : list loc :=
  concat (ClumpRows <$> SealedClumps table) ++ Rows (TableHotHeap table).

(** ** safety/safety_api.go *)

(** Modelled from the spec: [BatchBackupForSafety] is not part of the
    sources at hand.  Each row it is handed is wrapped in a [SafetyBackup]
    with the current time, serialized and appended to the safety log, one
    record per row.  What is serialized is the row object as it is when
    the call is made. *)
Definition BatchBackupForSafety (db : Database) (tableName : string)
    (rows : list loc) (now : Time) : Database * result :=
  (with_SafetyFile
     (SafetyFile db
      ++ ((λ l, FrameBackup {| BTableName := tableName; BTimestamp := now;
                               BData := deref (Heap db) l |}) <$> rows))
     db,
   Ok).

(** [row[k] = v] for every entry of [update], on the row object itself.
    A reference without an object is a nil map: it reads as empty, but
    the first assignment to it panics, so that only an empty [update]
    gets through ([None] stands for the panic). *)
Definition patch (h : Store) (l : loc) (update : Row) : option Store :=
  match h !! l with
  | Some row => Some (<[l := update ∪ row]> h)
  | None => if decide (update = ∅) then Some h else None
  end.

(** One turn of the loop of [Update]: a matching row is appended to
    [toBackup] (the reference, as [append] stores it) and then patched in
    place through the same reference.  The third component tells that
    the loop has panicked; nothing is done after that. *)
Definition update_step (filter : Row → bool) (update : Row)
    (acc : Store * list loc * bool) (l : loc) : Store * list loc * bool :=
  let '(h, toBackup, panicked) := acc in
  if panicked then acc
  else if filter (deref h l) then
    match patch h l update with
    | Some h' => (h', toBackup ++ [l], false)
    | None => (h, toBackup ++ [l], true)
    end
  else acc.

(** The message of the run-time panic on a nil map. *)
Definition nil_map_panic : string := "panic: assignment to entry in nil map".

(** [Update].  A panic of the loop is reported as the result [Err
    nil_map_panic], with the rows patched so far; nothing is written to
    the safety log then. *)
Definition Update (db : Database) (tableName : string)
    (filter : Row → bool) (update : Row) (now : Time) : Database * result :=
  match Tables db !! tableName with
  | None => (db, Err "table not found")
  | Some table =>
      let '(h, toBackup, panicked) :=
        foldl (update_step filter update) (Heap db, [], false)
              (Rows (TableHotHeap table)) in
      let db1 := with_Heap h db in
      if panicked then (db1, Err nil_map_panic)
      else if bool_decide (0 < length toBackup)%nat then
        BatchBackupForSafety db1 tableName toBackup now
      else (db1, Ok)
  end.

(** One turn of the loop of [Delete]. *)
Definition delete_step (h : Store) (filter : Row → bool)
    (acc : list loc * list loc) (l : loc) : list loc * list loc :=
  if filter (deref h l) then (acc.1, acc.2 ++ [l])
  else (acc.1 ++ [l], acc.2).

Definition Delete (db : Database) (tableName : string)
    (filter : Row → bool) (now : Time) : Database * result :=
  match Tables db !! tableName with
  | None => (db, Err "table not found")
  | Some table =>
      let '(newRows, toBackup) :=
        foldl (delete_step (Heap db) filter) ([], [])
              (Rows (TableHotHeap table)) in
      let table1 :=
        with_HotHeap (with_Rows newRows (TableHotHeap table)) table in
      let db1 := with_Tables (<[tableName := table1]> (Tables db)) db in
      if bool_decide (0 < length toBackup)%nat then
        BatchBackupForSafety db1 tableName toBackup now
      else (db1, Ok)
  end.

(** The scan of [Restore] over the frames of the safety log.  The row of
    the chosen record is a new object ([json.Unmarshal] builds it). *)
Fixpoint restore_scan (db : Database) (timestamp : Time)
    (frames : list Frame) : Database * result :=
  match frames with
  | [] => (db, Err "recovery point not found")
  | FrameBroken err :: _ => (db, Err err)
  | FrameUnreadable :: rest => restore_scan db timestamp rest
  | FrameBackup backup :: rest =>
      if bool_decide (Truncate_Second (BTimestamp backup)
                      = Truncate_Second timestamp) then
        match Tables db !! BTableName backup with
        | Some table =>
            let l := fresh (dom (Heap db)) in
            (with_Tables (<[BTableName backup := append_row l table]>
                            (Tables db))
               (with_Heap (<[l := BData backup]> (Heap db)) db),
             Ok)
        | None => restore_scan db timestamp rest
        end
      else restore_scan db timestamp rest
  end.

Definition Restore (db : Database) (timestamp : Time) (accepted : bool)
    : Database * result :=
  if negb accepted then (db, Err "recovery aborted")
  else restore_scan db timestamp (SafetyFile db).

(** ** crypto: the symbolic codec *)

Global Instance byte_eq_dec : EqDecision Byte.byte := Byte.byte_eq_dec.

(** Modelled from the spec: the package [crypto] ([EncodeToEmojis],
    [DecodeOne] and the table of symbols) is not part of the sources at
    hand.  The codec is a fixed table of 256 symbols, entry [b] being the
    symbol of byte value [b]; a symbol is a string of several bytes.
    Encoding writes the symbol of each byte in turn.  [DecodeOne] reads
    one symbol off the front of a stream and returns its byte value, or
    fails with [UnknownSymbol] when no entry of the table is next. *)
Definition symbol_of (table : list (list Byte.byte)) (b : Byte.byte)
    : list Byte.byte :=
  default [] (table !! Byte.to_nat b).

Definition EncodeToEmojis (table : list (list Byte.byte))
    (data : list Byte.byte) : list Byte.byte :=
  concat (symbol_of table <$> data).

(** The stream without the symbol it starts with, if it does. *)
Fixpoint strip_symbol (sym stream : list Byte.byte)
    : option (list Byte.byte) :=
  match sym, stream with
  | [], _ => Some stream
  | _ :: _, [] => None
  | a :: sym', c :: stream' =>
      if decide (a = c) then strip_symbol sym' stream' else None
  end.

(** The first entry, counted from [i], that the stream starts with. *)
Fixpoint match_symbol (table : list (list Byte.byte)) (i : nat)
    (stream : list Byte.byte) : option (nat * list Byte.byte) :=
  match table with
  | [] => None
  | sym :: table' =>
      match strip_symbol sym stream with
      | Some rest => Some (i, rest)
      | None => match_symbol table' (S i) stream
      end
  end.

Inductive decoded :=
  | Decoded (b : Byte.byte) (rest : list Byte.byte)
  | UnknownSymbol.

Definition DecodeOne (table : list (list Byte.byte))
    (stream : list Byte.byte) : decoded :=
  match match_symbol table 0 stream with
  | Some (i, rest) =>
      match Byte.of_nat i with
      | Some b => Decoded b rest
      | None => UnknownSymbol
      end
  | None => UnknownSymbol
  end.

(** The payload loop of [Restore]: [size] symbols are decoded one after
    the other into [size] bytes. *)
Fixpoint decode_payload (table : list (list Byte.byte)) (size : nat)
    (stream : list Byte.byte) : option (list Byte.byte * list Byte.byte) :=
  match size with
  | O => Some ([], stream)
  | S size' =>
      match DecodeOne table stream with
      | Decoded b rest =>
          match decode_payload table size' rest with
          | Some (payload, rest') => Some (b :: payload, rest')
          | None => None
          end
      | UnknownSymbol => None
      end
  end.

(** Decoding a whole stream, symbol by symbol until it is used up.  Every
    turn consumes a symbol, so the length of the stream bounds the number
    of turns. *)
Fixpoint decode_stream (table : list (list Byte.byte)) (turns : nat)
    (stream : list Byte.byte) : option (list Byte.byte) :=
  match stream, turns with
  | [], _ => Some []
  | _ :: _, O => None
  | _ :: _, S turns' =>
      match DecodeOne table stream with
      | Decoded b rest => (b ::.) <$> decode_stream table turns' rest
      | UnknownSymbol => None
      end
  end.

Definition decode (table : list (list Byte.byte))
    (stream : list Byte.byte) : option (list Byte.byte) :=
  decode_stream table (length stream) stream.

(** Two symbols are disjoint when neither is the start of the other; in
    particular they differ and neither is empty. *)
Definition disjoint_symbols (s1 s2 : list Byte.byte) : Prop :=
  strip_symbol s1 s2 = None ∧ strip_symbol s2 s1 = None.

Fixpoint mutually_disjoint (table : list (list Byte.byte)) : Prop :=
  match table with
  | [] => True
  | sym :: table' =>
      Forall (disjoint_symbols sym) table' ∧ mutually_disjoint table'
  end.

(** The table the spec asks for: one symbol per byte value, mutually
    disjoint. *)
Definition symbol_table (table : list (list Byte.byte)) : Prop :=
  length table = 256%nat ∧ mutually_disjoint table.

Global Instance disjoint_symbols_dec s1 s2 : Decision (disjoint_symbols s1 s2).
Proof. unfold disjoint_symbols. apply _. Defined.

Global Instance mutually_disjoint_dec table : Decision (mutually_disjoint table).
Proof. induction table; simpl; apply _. Defined.

Global Instance symbol_table_dec table : Decision (symbol_table table).
Proof. unfold symbol_table. apply _. Defined.

(** A table of 256 four-byte symbols, the UTF-8 forms of the code points
    U+1F600 to U+1F6FF, on which the codec is run. *)
Definition sample_symbol (i : nat) : list Byte.byte :=
  default Byte.x00
    <$> [ Byte.of_nat 240; Byte.of_nat 159;
          Byte.of_nat (152 + i `div` 64); Byte.of_nat (128 + i `mod` 64) ].

Definition sample_table : list (list Byte.byte) := sample_symbol <$> seq 0 256.

(** ** Vocabulary of the statements *)

(** The values of field [name] present in the rows [rows]. *)
Definition field_values (h : Store) (name : string) (rows : list loc)
    : gset Value :=
  list_to_set (omap (λ l, deref h l !! name) rows).

(** The unique index of every unique field of the table holds exactly the
    values present in that field across the table's rows. *)
Definition index_exact_table (h : Store) (t : Table) : Prop :=
  ∀ f, f ∈ Fields (TableSchema t) → Unique f = true →
       index_of (UniqueIndices t) (Name f)
       = field_values h (Name f) (table_rows t).

Definition index_exact (db : Database) : Prop :=
  ∀ n t, Tables db !! n = Some t → index_exact_table (Heap db) t.

(** Some unique field of the list has this name. *)
Definition is_unique_name (fields : list Field) (name : string) : bool :=
  existsb (λ f, Unique f && bool_decide (Name f = name)) fields.

(** Row [i] of a batch breaks a rule of the validation phase of
    [BulkInsert]: a schema field is missing, or the value of a unique
    field is already in that field's index, or it is the value of an
    earlier row of the batch. *)
Definition invalid_row (idx : gmap string (gset Value))
    (fields : list Field) (rows : list Row) (i : nat) : Prop :=
  ∃ r f, rows !! i = Some r ∧ f ∈ fields
    ∧ (r !! Name f = None
       ∨ (Unique f = true
          ∧ ∃ v, r !! Name f = Some v ∧ v ∈ index_of idx (Name f))
       ∨ (Unique f = true
          ∧ ∃ v j r', r !! Name f = Some v ∧ (j < i)%nat
                      ∧ rows !! j = Some r' ∧ r' !! Name f = Some v)).

(** What one new field adds to the conflict list. *)
Definition new_field_conflict (currentFieldMap : gmap string Field)
    (f : Field) : option Conflict :=
  match currentFieldMap !! Name f with
  | Some oldF =>
      if bool_decide (Type_ oldF ≠ Type_ f)
      then Some (TYPE_MISMATCH (Name f) (Type_ oldF) (Type_ f))
      else None
  | None => Some (FIELD_ADD (Name f))
  end.

(** The new field has a namesake of another type in the current schema. *)
Definition type_changed (currentFieldMap : gmap string Field) (f : Field)
    : bool :=
  match currentFieldMap !! Name f with
  | Some oldF => bool_decide (Type_ oldF ≠ Type_ f)
  | None => false
  end.

(** A frame on which the scan of [Restore] returns an error. *)
Definition broken (f : Frame) : bool :=
  match f with FrameBroken _ => true | _ => false end.

(** The timestamp of the frame's record equals the requested one, both
    truncated to the second. *)
Definition same_second (timestamp : Time) (f : Frame) : bool :=
  match f with
  | FrameBackup b =>
      bool_decide (Truncate_Second (BTimestamp b) = Truncate_Second timestamp)
  | _ => false
  end.

(** The frame's record names a table of the database. *)
Definition known_table (db : Database) (f : Frame) : bool :=
  match f with
  | FrameBackup b => bool_decide (is_Some (Tables db !! BTableName b))
  | _ => false
  end.

(** A frame the scan passes over: readable or skipped, and not a record
    of the requested second for a known table. *)
Definition passed_over (db : Database) (timestamp : Time) (f : Frame)
    : bool :=
  negb (broken f) && negb (same_second timestamp f && known_table db f).

(** The database after the row of [b] was re-appended to table [t]. *)
Definition reinstated (db : Database) (b : SafetyBackup) (t : Table)
    : Database :=
  let l := fresh (dom (Heap db)) in
  with_Tables (<[BTableName b := append_row l t]> (Tables db))
    (with_Heap (<[l := BData b]> (Heap db)) db).

(** A caller's loop of single inserts, stopping at the first error; each
    call comes with the clock reading it sees. *)
Fixpoint InsertAll (db : Database) (tableName : string)
    (records : list (loc * Time)) : Database * result :=
  match records with
  | [] => (db, Ok)
  | (record, now) :: rest =>
      match Insert db tableName record now with
      | (db', Ok) => InsertAll db' tableName rest
      | (db', Err e) => (db', Err e)
      end
  end.

(** The operations under which the unique indices stay exact. *)
Inductive index_step (db : Database) : Database → Prop :=
  | step_DefineSchema tableName fields now :
      Tables db !! tableName = None →
      Orphans db !! tableName = None →
      index_step db (DefineSchema db tableName fields now).1
  | step_Insert tableName record now :
      index_step db (Insert db tableName record now).1
  | step_BulkInsert tableName records now :
      index_step db (BulkInsert db tableName records now).1
  | step_Flush tableName now :
      index_step db (Flush db tableName now).1
  | step_SyncSchema tableName newFields :
      index_step db (SyncSchema db tableName newFields).1.

(** ** Scenarios

    Concrete databases on which the operations are evaluated. *)

(** The table of the showcase test, reduced to two of its columns, with
    one row object [{id: 1, price: 10}]. *)
Definition products_fields : list Field :=
  [ {| Name := "id"; Type_ := FieldTypeInt; Unique := false |};
    {| Name := "price"; Type_ := FieldTypeInt; Unique := false |} ].

Definition product_1 : Row := {[ "id" := VInt 1; "price" := VInt 10 ]}.

Definition db_products : Database :=
  (DefineSchema
     (with_Heap {[ 1%positive := product_1 ]} (Open "showcase-secret-2025"))
     "products" products_fields 0).1.

Definition db_products_1 : Database :=
  (Insert db_products "products" 1%positive 1000).1.

Definition id_is_1 (r : Row) : bool := bool_decide (r !! "id" = Some (VInt 1)).

Definition price_99 : Row := {[ "price" := VInt 99 ]}.

(** A clock reading in the middle of a second. *)
Definition update_time : Time := 7000000250.

Definition db_products_updated : Database :=
  (Update db_products_1 "products" id_is_1 price_99 update_time).1.

Definition db_products_restored : Database :=
  (Restore db_products_updated update_time true).1.

(** A table with a unique column, one row object [{id: 1}]. *)
Definition users_fields : list Field :=
  [ {| Name := "id"; Type_ := FieldTypeInt; Unique := true |} ].

Definition db_users_heap : Database :=
  with_Heap {[ 1%positive := {[ "id" := VInt 1 ]};
               2%positive := {[ "id" := VInt 2 ]};
               3%positive := ∅ ]} (Open "k").

Definition db_users : Database :=
  (DefineSchema db_users_heap "users" users_fields 0).1.

(** The table that [DefineSchema] has just built in [db_users]. *)
Definition users_table : Table :=
  {| TableName_ := "users";
     TableSchema := {| Version := 1; Fields := users_fields |};
     TableHotHeap := NewHotHeap 1000 0; SealedClumps := [];
     UniqueIndices := {[ "id" := ∅ ]} |}.

Definition db_users_1 : Database := (Insert db_users "users" 1%positive 10).1.

(** The row is inserted, then deleted. *)
Definition db_users_deleted : Database :=
  (Delete db_users_1 "users" id_is_1 20).1.

(** The row is inserted, then its [id] is set to 5. *)
Definition db_users_updated : Database :=
  (Update db_users_1 "users" id_is_1 {[ "id" := VInt 5 ]} 20).1.

(** The row is inserted, then the schema is defined again. *)
Definition db_users_redefined : Database :=
  (DefineSchema db_users_1 "users" users_fields 20).1.

(** The same, with one more row object [{id: 1}] at hand. *)
Definition db_users_again : Database :=
  with_Heap (<[4%positive := {[ "id" := VInt 1 ]}]> (Heap db_users_redefined))
            db_users_redefined.

(** A table with a unique column and 1001 row objects [{id: i}] to
    insert, the first thousand of which fill the HotHeap to its capacity. *)
Definition event_rows (n : nat) : list (loc * Time) :=
  (λ i, (Pos.of_nat i, Z.of_nat i)) <$> seq 1 n.

Definition db_events : Database :=
  (DefineSchema
     (with_Heap
        (list_to_map
           ((λ i, (Pos.of_nat i, {[ "id" := VInt (Z.of_nat i) ]}))
              <$> seq 1 1001))
        (Open "k"))
     "events" users_fields 0).1.


(** The table that [DefineSchema] has just built in [db_events]. *)
Definition events_table : Table :=
  {| TableName_ := "events";
     TableSchema := {| Version := 1; Fields := users_fields |};
     TableHotHeap := NewHotHeap 1000 0; SealedClumps := [];
     UniqueIndices := {[ "id" := ∅ ]} |}.

(** The first 999 of these rows inserted one by one, and the table as it
    is then. *)
Definition db_events_999 : Database :=
  (InsertAll db_events "events" (event_rows 999)).1.

Definition events_table_999 : Table :=
  default events_table (Tables db_events_999 !! "events").

(** A safety log whose first record of the requested second names a table
    that is not defined, followed by one for the table ["users"]. *)
Definition ghost_backup : SafetyBackup :=
  {| BTableName := "ghost"; BTimestamp := 7000000100;
     BData := {[ "id" := VInt 7 ]} |}.

Definition users_backup : SafetyBackup :=
  {| BTableName := "users"; BTimestamp := 7000000900;
     BData := {[ "id" := VInt 8 ]} |}.

Definition db_ghost_log : Database :=
  with_SafetyFile [FrameUnreadable; FrameBackup ghost_backup;
                   FrameBackup users_backup] db_users.

(** The record of the table that is not defined, followed by a record
    that does not decrypt. *)
Definition db_ghost_only : Database :=
  with_SafetyFile [FrameBackup ghost_backup; FrameUnreadable] db_users.

(** The same record, followed by a frame that is cut short. *)
Definition db_ghost_cut : Database :=
  with_SafetyFile [FrameBackup ghost_backup; FrameBroken "unexpected EOF"]
                  db_users.

(** The schema [{id: int, name: string}] of the spec's example. *)
Definition people_fields : list Field :=
  [ {| Name := "id"; Type_ := FieldTypeInt; Unique := false |};
    {| Name := "name"; Type_ := FieldTypeString; Unique := false |} ].

Definition db_people : Database :=
  (DefineSchema (Open "k") "people" people_fields 0).1.

(** ** Further operations of core/db.go *)

(** [DumpAsJSON]: the rows that are marshalled, sealed clumps in seal
    order and then the live HotHeap, or the error for a table that is not
    defined.  The JSON text itself is not modelled. *)
Definition DumpAsJSON (db : Database) (tableName : string)
    : list Row + string :=
  match Tables db !! tableName with
  | None => inr "table not found"
  | Some table => inl (deref (Heap db) <$> table_rows table)
  end.

(** [PersistClump]: the record of the clump is appended to the data
    file, the rows serialized as they are when it runs. *)
Definition PersistClump (db : Database) (tableName : string)
    (clump : SealedClump) : Database * result :=
  (with_File (File db ++ [persisted (Heap db) tableName clump]) db, Ok).

(** The goroutines started by [Insert] and [BulkInsert] run: each calls
    [PersistClump] on its clump.  Go leaves their order open; they run
    here in the order in which they were started. *)
Definition run_dispatched (db : Database) : Database :=
  foldl (λ db d, (PersistClump db d.1 d.2).1) (with_Dispatched [] db)
        (Dispatched db).

(** What a record of the data file says: the table and the rows. *)
Definition record_rows (p : PersistedClump) : string * list Row :=
  (PTable p, PRows p).

(** ** Further vocabulary *)

(** The constraint loop of [Insert] lets the row through: every schema
    field is present, and the value of a unique field is not indexed. *)
Definition acceptable (idx : gmap string (gset Value))
    (fields : list Field) (row : Row) : Prop :=
  ∀ f, f ∈ fields →
       ∃ v, row !! Name f = Some v
            ∧ (Unique f = true → v ∉ index_of idx (Name f)).

(** The validation phase of [BulkInsert] lets the batch through: every
    row is acceptable, and the value of a unique field differs from what
    the rows before it in the batch hold in that field. *)
Definition acceptable_batch (idx : gmap string (gset Value))
    (fields : list Field) (rows : list Row) : Prop :=
  ∀ i r, rows !! i = Some r →
    ∀ f, f ∈ fields →
         ∃ v, r !! Name f = Some v
              ∧ (Unique f = true →
                 (v ∉ index_of idx (Name f))
                 ∧ (∀ r', r' ∈ take i rows → get r' (Name f) ≠ v)).

(** The values of field [name] in the rows, one per row that has the
    field, in row order. *)
Definition values_list (h : Store) (name : string) (rows : list loc)
    : list Value :=
  omap (λ l, deref h l !! name) rows.

(** No two rows of the table hold the same value in a unique field. *)
Definition unique_held_table (h : Store) (t : Table) : Prop :=
  ∀ f, f ∈ Fields (TableSchema t) → Unique f = true →
       NoDup (values_list h (Name f) (table_rows t)).

Definition unique_held (db : Database) : Prop :=
  ∀ n t, Tables db !! n = Some t → unique_held_table (Heap db) t.

(** The operations that add rows or tables through the constraint
    checks. *)
Inductive checked_step (db : Database) : Database → Prop :=
  | checked_DefineSchema tableName fields now :
      Tables db !! tableName = None →
      Orphans db !! tableName = None →
      checked_step db (DefineSchema db tableName fields now).1
  | checked_Insert tableName record now :
      checked_step db (Insert db tableName record now).1
  | checked_BulkInsert tableName records now :
      checked_step db (BulkInsert db tableName records now).1
  | checked_Flush tableName now :
      checked_step db (Flush db tableName now).1.


(** The safety records [BatchBackupForSafety] writes for the rows, read
    through store [h]. *)
Definition backup_frames (h : Store) (tableName : string) (now : Time)
    (rows : list loc) : list Frame :=
  (λ l, FrameBackup {| BTableName := tableName; BTimestamp := now;
                       BData := deref h l |}) <$> rows.

(** ** Loading: core/db.go, [Load] and [LoadSchemas] *)

(** What [encoding/json] reads back from the digits of a whole number:
    the nearest [float64], which has a mantissa of 53 bits, a tie going
    to the even mantissa.  Whole numbers below 2^53 in size are read
    exactly. *)
Definition round64 (n : Z) : Z :=
  let a := Z.abs n in
  let e := Z.log2 a - 52 in
  if bool_decide (e ≤ 0) then n
  else
    let q := Z.shiftr a e in
    let r := a - Z.shiftl q e in
    let half := Z.shiftl 1 (e - 1) in
    let q' := if bool_decide (half < r) || (bool_decide (r = half) && Z.odd q)
              then q + 1 else q in
    Z.sgn n * Z.shiftl q' e.

(** A value after it was written by [json.Marshal] and read by
    [json.Unmarshal] into an [interface{}]: every number comes back as a
    [float64]; nil, strings and booleans come back as they were. *)
Definition json_read_value (v : Value) : Value :=
  match v with
  | VInt n | VFloat n => VFloat (round64 n)
  | _ => v
  end.

Definition json_read_row (row : Row) : Row := json_read_value <$> row.

(** [json.Unmarshal] builds a new map for every row it reads: the rows
    are allocated one after the other. *)
Fixpoint alloc_rows (h : Store) (rows : list Row) : Store * list loc :=
  match rows with
  | [] => (h, [])
  | row :: rest =>
      let l := fresh (dom h) in
      let '(h', ls) := alloc_rows (<[l := row]> h) rest in
      (h', l :: ls)
  end.

(** The handler of [Load] for one record of the data file.  [data] is the
    clump as the record holds it, its rows as they were written;
    [json.Unmarshal] reads them into new row objects, every number as a
    [float64] (bytes that do not deserialize make the handler return the
    error, with nothing changed).  The clump goes to the table of that
    name when it is defined, to the orphans of that name otherwise. *)
Definition handleClump (db : Database) (tableName : string)
    (data : PersistedClump) : Database * result :=
  let '(h, rows) := alloc_rows (Heap db) (json_read_row <$> PRows data) in
  let clump := {| ClumpRows := rows; SealedAt := PSealedAt data;
                  Metadata := PMetadata data |} in
  let db1 := with_Heap h db in
  match Tables db1 !! tableName with
  | Some table =>
      (with_Tables
         (<[tableName := with_SealedClumps (SealedClumps table ++ [clump])
                           table]> (Tables db1)) db1, Ok)
  | None =>
      (with_Orphans
         (<[tableName := default [] (Orphans db1 !! tableName) ++ [clump]]>
            (Orphans db1)) db1, Ok)
  end.

(** Modelled from the spec: [storage.Load] is not part of the sources at
    hand.  It reads the data file from the start and hands every record,
    with its table name, to the handler. *)
Definition Load (db : Database) : Database :=
  foldl (λ db record, (handleClump db (PTable record) record).1) db (File db).

(** The body of the loop of [LoadSchemas] for one entry of the schema
    map: a table that is not defined yet is built, with the orphans of
    its name when there are some. *)
Definition load_schema_table (now : Time) (db : Database)
    (entry : string * Schema) : Database :=
  match Tables db !! entry.1 with
  | Some _ => db
  | None =>
      let indices := make_indices (Fields entry.2) in
      let table :=
        {| TableName_ := entry.1; TableSchema := entry.2;
           TableHotHeap := NewHotHeap 1000 now; SealedClumps := [];
           UniqueIndices := indices |} in
      match Orphans db !! entry.1 with
      | Some orphans =>
          let table' :=
            with_UniqueIndices
              (index_clumps_nil (Heap db) (Fields entry.2) orphans indices)
              (with_SealedClumps orphans table) in
          with_Orphans (delete entry.1 (Orphans db))
            (with_Tables (<[entry.1 := table']> (Tables db)) db)
      | None => with_Tables (<[entry.1 := table]> (Tables db)) db
      end
  end.

(** [LoadSchemas].  [content] is the schema map read from the schema
    file, [None] for a file that cannot be read or is empty, in which
    case nothing is done.  Go ranges over the map in an unspecified
    order; the entries come here in the order of [map_to_list]. *)
Definition LoadSchemas (db : Database)
    (content : option (gmap string Schema)) (now : Time)
    : Database * result :=
  match content with
  | None => (db, Ok)
  | Some schemas =>
      (foldl (load_schema_table now) (with_Schemas schemas db)
             (map_to_list schemas), Ok)
  end.

(** Opening again a database whose files are those of [db]: [Open]
    starts from empty maps, loads the data file and then the schema
    file.  Nothing of the memory of the former process is kept. *)
Definition Reopen (db : Database) (now : Time) : Database :=
  (LoadSchemas
     (Load {| Key := Key db; Schemas := ∅; Tables := ∅; Orphans := ∅;
              Heap := ∅; File := File db; Dispatched := [];
              SafetyFile := SafetyFile db; SchemaFile := SchemaFile db |})
     (Some (SchemaFile db)) now).1.

(** The records of the data file for one table, rows by content. *)
Definition persisted_rows (file : list PersistedClump) (tableName : string)
    : list Row :=
  concat (PRows <$> filter (λ record, PTable record = tableName) file).

(** A data file read before any schema is defined: two clumps for
    ["users"], the second with a row that has no [id]. *)
Definition users_file : list PersistedClump :=
  [ {| PTable := "users"; PRows := [ {[ "id" := VInt 1 ]} ];
       PSealedAt := 5;
       PMetadata := {| RowCount := 1; MetaCreatedAt := 1;
                       SchemaVersion := 1 |} |};
    {| PTable := "users"; PRows := [ {[ "id" := VInt 2 ]}; ∅ ];
       PSealedAt := 6;
       PMetadata := {| RowCount := 2; MetaCreatedAt := 2;
                       SchemaVersion := 1 |} |} ].

Definition db_orphans : Database := Load (with_File users_file (Open "k")).

(** A data file with one row whose [id] is beyond 2^53, under a schema
    file for ["users"]. *)
Definition db_big_file : Database :=
  with_SchemaFile {[ "users" := {| Version := 1; Fields := users_fields |} ]}
    (with_File
       [ {| PTable := "users";
            PRows := [ {[ "id" := VInt 1 ]};
                       {[ "id" := VInt 9007199254740993 ]} ];
            PSealedAt := 5;
            PMetadata := {| RowCount := 2; MetaCreatedAt := 1;
                            SchemaVersion := 1 |} |} ]
       (Open "k")).


(** ** Key rotation: core/db.go, [ChangeKey] *)

Definition with_Key (key : string) (db : Database) : Database :=
  {| Key := key; Schemas := Schemas db; Tables := Tables db;
     Orphans := Orphans db; Heap := Heap db; File := File db;
     Dispatched := Dispatched db; SafetyFile := SafetyFile db;
     SchemaFile := SchemaFile db |}.

(** The data file after [ChangeKey] has truncated it and persisted again
    the sealed clumps of every table, table after table.  Go ranges over
    the table map in an unspecified order; the tables come here in the
    order of [map_to_list]. *)
Definition rewritten_file (db : Database) : list PersistedClump :=
  concat ((λ entry : string * Table,
             persisted (Heap db) entry.1 <$> SealedClumps entry.2)
            <$> map_to_list (Tables db)).

(** Modelled from the spec: [crypto.Decrypt] is not part of the sources
    at hand; it fails when the key is not the one the record was
    encrypted with.  [ChangeKey] does not touch the safety log, but its
    frames are tagged with what [Restore] reads under [db.Key]: once the
    key is another one, a record that was read no longer decrypts and is
    passed over.  A frame on which the size or a symbol cannot be read
    stays as it is, and a record that was not read under the old key is
    taken not to be read under the new one (a log with records written
    under different keys is not followed). *)
Definition rekeyed_log (db : Database) (newKey : string) : list Frame :=
  if decide (newKey = Key db) then SafetyFile db
  else (λ f, match f with
             | FrameBackup _ => FrameUnreadable
             | _ => f
             end) <$> SafetyFile db.

(** [ChangeKey].  [securePem] is the content of the file [secure.pem],
    [None] when it cannot be read.  Failures of the file operations, and
    the roll-back of the key that goes with them, are not modelled. *)
Definition ChangeKey (db : Database) (securePem : option string)
    (newKey masterKey : string) : Database * result :=
  match securePem with
  | None => (db, Err "security not initialized or secure.pem missing")
  | Some actualMaster =>
      if decide (actualMaster ≠ masterKey)
      then (db, Err "invalid master key provided")
      else (with_Key newKey
              (with_SafetyFile (rekeyed_log db newKey)
                 (with_File (rewritten_file db) db)), Ok)
  end.

(** ** sdk-node/index.js: the error class of the SDK *)

(** [s.startsWith(sub)]. *)
Fixpoint starts_with (sub s : string) : bool :=
  match sub, s with
  | EmptyString, _ => true
  | String _ _, EmptyString => false
  | String a sub', String c s' =>
      if Ascii.eqb a c then starts_with sub' s' else false
  end.

(** [s.includes(sub)]. *)
Fixpoint includes (sub s : string) : bool :=
  starts_with sub s
  || match s with
     | EmptyString => false
     | String _ s' => includes sub s'
     end.

(** [s.split(sep)] for a separator that is not empty: the pieces between
    the occurrences of [sep], found from left to right.  [skip] counts
    the characters of an occurrence still to be passed, [cur] is the
    piece being read. *)
Fixpoint split_go (sep : string) (skip : nat) (cur s : string)
    : list string :=
  match s with
  | EmptyString => [cur]
  | String c s' =>
      match skip with
      | S skip' => split_go sep skip' cur s'
      | O =>
          if starts_with sep s
          then cur :: split_go sep (String.length sep - 1) EmptyString s'
          else split_go sep 0 (cur ++ String c EmptyString)%string s'
      end
  end.

Definition split (sep s : string) : list string :=
  split_go sep 0 EmptyString s.

(** The [details] object: empty, [{table: v}] or [{field: v}], where [v]
    is [None] for [undefined]. *)
Inductive Details :=
  | NoDetails
  | TableIs (v : option string)
  | FieldIs (v : option string).

Record EmojiDBError := mkEmojiDBError {
  code : string;
  details : Details
}.

(** The constructor of [EmojiDBError], on the message of the engine. *)
Definition newEmojiDBError (message : string) : EmojiDBError :=
  if includes "table not found:" message then
    {| code := "TABLE_NOT_FOUND";
       details := TableIs (split ": " message !! 1%nat) |}
  else if includes "missing field:" message then
    {| code := "MISSING_FIELD";
       details := FieldIs (split ": " message !! 1%nat) |}
  else if includes "unique constraint violation:" message then
    {| code := "UNIQUE_CONSTRAINT";
       details := FieldIs (split ": " message !! 1%nat) |}
  else if includes "type mismatch" message then
    {| code := "TYPE_MISMATCH";
       details :=
         let parts := split ": " message in
         if bool_decide (1 < length parts)%nat then FieldIs (parts !! 1%nat)
         else NoDetails |}
  else {| code := "UNKNOWN_ERROR"; details := NoDetails |}.

(** Every character of the string passes the test. *)
Fixpoint all_chars (p : Ascii.ascii → bool) (s : string) : bool :=
  match s with
  | EmptyString => true
  | String c s' => p c && all_chars p s'
  end.

(** The character [:]. *)
Definition colon : Ascii.ascii := Eval compute in Ascii.ascii_of_nat 58.

Definition no_colon (s : string) : bool :=
  all_chars (λ c, negb (Ascii.eqb c colon)) s.

Definition is_digit (c : Ascii.ascii) : bool :=
  (48 <=? Ascii.nat_of_ascii c)%nat && (Ascii.nat_of_ascii c <=? 57)%nat.

(** ** Proof by evaluation *)

(** Closed statements about the scenarios are settled by running the
    operations: each conjunct is evaluated on its own. *)
Ltac evaluate := repeat apply conj; vm_compute; reflexivity.

(** Two sets differ when a value is a member of one only. *)
Ltac differ_at v H :=
  apply (f_equal (λ s : gset Value, bool_decide (v ∈ s))) in H;
  vm_compute in H; discriminate H.

(** ** Boolean quantifiers over lists *)

Lemma forallb_false_elem_of {A} (p : A → bool) (l : list A) :
  forallb p l = false ↔ ∃ x, x ∈ l ∧ p x = false.
Proof.
  induction l as [|a l IH]; simpl.
  - split; [done|]. by intros (x & Hx%not_elem_of_nil & _).
  - rewrite andb_false_iff, IH. split.
    + intros [Ha|(x & Hx & Hp)].
      * exists a. split; [apply list_elem_of_here|done].
      * exists x. split; [by apply list_elem_of_further|done].
    + intros (x & [->|Hx]%elem_of_cons & Hp); [by left|].
      right. by exists x.
Qed.

Lemma forallb_true_elem_of {A} (p : A → bool) (l : list A) :
  forallb p l = true ↔ ∀ x, x ∈ l → p x = true.
Proof.
  rewrite forallb_forall. by setoid_rewrite list_elem_of_In.
Qed.

Lemma existsb_true_elem_of {A} (p : A → bool) (l : list A) :
  existsb p l = true ↔ ∃ x, x ∈ l ∧ p x = true.
Proof.
  rewrite existsb_exists. by setoid_rewrite list_elem_of_In.
Qed.

(** ** What Update writes to the safety log *)

Lemma deref_insert_eq (h : Store) l row : deref (<[l := row]> h) l = row.
Proof. unfold deref. by rewrite lookup_insert_eq. Qed.

Lemma deref_insert_ne (h : Store) l l' row :
  l ≠ l' → deref (<[l := row]> h) l' = deref h l'.
Proof. intros Hne. unfold deref. by rewrite lookup_insert_ne. Qed.

Lemma filter_matching_ext (pred : Row → bool) (h1 h2 : Store)
    (rows : list loc) :
  (∀ l, l ∈ rows → deref h1 l = deref h2 l) →
  filter (λ l, pred (deref h1 l) = true) rows
  = filter (λ l, pred (deref h2 l) = true) rows.
Proof.
  induction rows as [|l rows IH]; intros Hext; [done|].
  rewrite !filter_cons, (Hext l (list_elem_of_here _ _)), IH; [done|].
  intros l' Hl'. by apply Hext, list_elem_of_further.
Qed.

(** The loop of [Update] over distinct row objects, the matching ones
    being objects: [toBackup] receives the references of the matching
    rows, in order, the store then holds each of them patched, and there
    is no panic. *)
Lemma update_loop (pred : Row → bool) (update : Row) (rows : list loc) :
  ∀ h toBackup,
    NoDup rows →
    (∀ l, l ∈ rows → pred (deref h l) = true → is_Some (h !! l)) →
    let res := foldl (update_step pred update) (h, toBackup, false) rows in
    res.2 = false
    ∧ res.1.2 = toBackup ++ filter (λ l, pred (deref h l) = true) rows
    ∧ (∀ l, l ∈ rows → pred (deref h l) = true →
            deref res.1.1 l = update ∪ deref h l)
    ∧ (∀ l, l ∉ rows → deref res.1.1 l = deref h l).
Proof.
  induction rows as [|l0 rows IH]; intros h toBackup Hnd Halloc; simpl.
  { rewrite app_nil_r. split; [done|]. split; [done|]. split; [|done].
    by intros l Hl%not_elem_of_nil. }
  apply NoDup_cons in Hnd as [Hl0 Hnd].
  destruct (pred (deref h l0)) eqn:Hp.
  - destruct (Halloc l0 (list_elem_of_here _ _) Hp) as [row Hrow].
    unfold patch. rewrite Hrow.
    assert (deref h l0 = row) as Hderef by (unfold deref; by rewrite Hrow).
    destruct (IH (<[l0 := update ∪ row]> h) (toBackup ++ [l0]) Hnd)
      as (Hok & Hbk & Hpatched & Hother).
    { intros l Hl. assert (l0 ≠ l) as Hne by by intros ->.
      rewrite deref_insert_ne, lookup_insert_ne by done.
      by apply Halloc, list_elem_of_further. }
    split; [done|]. split; [|split].
    + rewrite Hbk, filter_cons, decide_True, <-app_assoc by done. simpl.
      f_equal. f_equal. apply filter_matching_ext.
      intros l Hl. apply deref_insert_ne. by intros ->.
    + intros l [->|Hl]%elem_of_cons Hpl.
      * by rewrite (Hother l0 Hl0), deref_insert_eq, Hderef.
      * assert (l0 ≠ l) as Hne by by intros ->.
        rewrite Hpatched, deref_insert_ne; [done..|].
        by rewrite deref_insert_ne.
    + intros l Hl. apply not_elem_of_cons in Hl as [Hne Hl].
      by rewrite (Hother l Hl), deref_insert_ne.
  - destruct (IH h toBackup Hnd) as (Hok & Hbk & Hpatched & Hother).
    { intros l Hl. by apply Halloc, list_elem_of_further. }
    split; [done|]. split; [|split].
    + rewrite Hbk, filter_cons, decide_False; [done|]. by rewrite Hp.
    + intros l [->|Hl]%elem_of_cons Hpl; [congruence|by apply Hpatched].
    + intros l Hl. apply not_elem_of_cons in Hl as [Hne Hl].
      by apply Hother.
Qed.

(** For every table of distinct row objects and every predicate, the
    records that [Update] appends to the safety log carry the matching
    rows with the patch already applied.  The matching rows are objects:
    on a nil map the patch panics before anything is logged. *)
Lemma Update_logs_patched_rows db tableName table pred update now :
  Tables db !! tableName = Some table →
  NoDup (Rows (TableHotHeap table)) →
  (∀ l, l ∈ Rows (TableHotHeap table) → pred (deref (Heap db) l) = true →
        is_Some (Heap db !! l)) →
  SafetyFile (Update db tableName pred update now).1
  = SafetyFile db
    ++ ((λ l, FrameBackup {| BTableName := tableName; BTimestamp := now;
                             BData := update ∪ deref (Heap db) l |})
          <$> filter (λ l, pred (deref (Heap db) l) = true)
                     (Rows (TableHotHeap table))).
Proof.
  intros Ht Hnd Halloc. unfold Update. rewrite Ht.
  destruct (update_loop pred update _ (Heap db) [] Hnd Halloc)
    as (Hok & Hbk & Hpatched & _).
  destruct (foldl _ _ _) as [[h toBackup] panicked]. simpl in *.
  subst toBackup panicked.
  case_bool_decide as Hlen; simpl.
  - f_equal. apply list_fmap_ext. intros i l Hl. f_equal. f_equal.
    apply list_elem_of_lookup_2, list_elem_of_filter in Hl as [Hp Hl].
    by apply Hpatched.
  - destruct (filter _ _); [by rewrite app_nil_r|]. simpl in Hlen. lia.
Qed.

(** C1.  The row of the showcase, price 10, is updated to price 99 and the
    backup written by that [Update] is restored.  The backup holds the row
    as patched, since [toBackup] refers to the row object the loop goes on
    to patch: the table ends with two rows of price 99 and none of
    price 10. *)
Theorem Update_backup_holds_patched_row :
  (Update db_products_1 "products" id_is_1 price_99 update_time).2 = Ok
  ∧ SafetyFile db_products_updated
    = [FrameBackup {| BTableName := "products"; BTimestamp := update_time;
                      BData := {[ "id" := VInt 1; "price" := VInt 99 ]} |}]
  ∧ (Restore db_products_updated update_time true).2 = Ok
  ∧ ((λ t, deref (Heap db_products_restored) <$> table_rows t)
       <$> Tables db_products_restored !! "products")
    = Some [ {[ "id" := VInt 1; "price" := VInt 99 ]};
             {[ "id" := VInt 1; "price" := VInt 99 ]} ]
  ∧ ((λ t, deref (Heap db_products_1) <$> table_rows t)
       <$> Tables db_products_1 !! "products")
    = Some [ product_1 ].
Proof. evaluate. Qed.

(** ** Unique indices *)

Lemma index_of_index_add name val idx n :
  index_of (index_add name val idx) n
  = if decide (name = n) then {[val]} ∪ index_of idx n else index_of idx n.
Proof.
  unfold index_add, index_of at 1. case_decide as Hn.
  - subst. by rewrite lookup_insert_eq.
  - by rewrite lookup_insert_ne.
Qed.

Lemma is_unique_name_elem_of fields f :
  f ∈ fields → Unique f = true → is_unique_name fields (Name f) = true.
Proof.
  intros Hin Hu. apply existsb_true_elem_of. exists f.
  by rewrite Hu, bool_decide_eq_true_2.
Qed.

Lemma index_of_make_indices fields n : index_of (make_indices fields) n = ∅.
Proof.
  unfold make_indices.
  assert (∀ idx : gmap string (gset Value),
            index_of idx n = ∅ →
            index_of (foldl (λ idx f, if Unique f then <[Name f := ∅]> idx
                                      else idx) idx fields) n = ∅) as H.
  { induction fields as [|f fields IH]; intros idx Hidx; simpl; [done|].
    apply IH. destruct (Unique f); [|done].
    unfold index_of. destruct (decide (Name f = n)) as [->|].
    - by rewrite lookup_insert_eq.
    - by rewrite lookup_insert_ne. }
  by apply H.
Qed.

Lemma index_of_apply_indices fields row idx n :
  index_of (apply_indices fields row idx) n
  = (if is_unique_name fields n then {[get row n]} else ∅) ∪ index_of idx n.
Proof.
  unfold apply_indices, is_unique_name. revert idx.
  induction fields as [|f fields IH]; intros idx; simpl.
  { by rewrite (left_id_L ∅ (∪)). }
  rewrite IH. destruct (Unique f); simpl; [|done].
  rewrite index_of_index_add. case_decide as Hn.
  - subst. rewrite bool_decide_eq_true_2 by done.
    destruct (existsb _ fields); set_solver.
  - by rewrite bool_decide_eq_false_2.
Qed.

Lemma index_of_index_row_ok fields row idx n :
  index_of (index_row_ok fields row idx) n
  = (if is_unique_name fields n
     then match row !! n with Some v => {[v]} | None => ∅ end
     else ∅) ∪ index_of idx n.
Proof.
  unfold index_row_ok, is_unique_name. revert idx.
  induction fields as [|f fields IH]; intros idx; simpl.
  { by rewrite (left_id_L ∅ (∪)). }
  rewrite IH. destruct (Unique f); simpl; [|done].
  case_bool_decide as Hn.
  - subst. destruct (row !! Name f) as [v|] eqn:Hv.
    + rewrite index_of_index_add, decide_True by done.
      destruct (existsb _ fields); set_solver.
    + destruct (existsb _ fields); set_solver.
  - destruct (row !! Name f) as [v|]; [|done].
    by rewrite index_of_index_add, decide_False.
Qed.

Lemma field_values_nil h name : field_values h name [] = ∅.
Proof. done. Qed.

Lemma field_values_app h name rows1 rows2 :
  field_values h name (rows1 ++ rows2)
  = field_values h name rows1 ∪ field_values h name rows2.
Proof. unfold field_values. by rewrite omap_app, list_to_set_app_L. Qed.

Lemma field_values_singleton h name l :
  field_values h name [l]
  = match deref h l !! name with Some v => {[v]} | None => ∅ end.
Proof.
  unfold field_values. simpl. destruct (deref h l !! name); simpl; [|done].
  by rewrite (right_id_L ∅ (∪)).
Qed.

Lemma field_values_cons h name l rows :
  field_values h name (l :: rows)
  = field_values h name [l] ∪ field_values h name rows.
Proof. apply (field_values_app h name [l] rows). Qed.

Lemma index_of_index_rows_ok h fields rows idx n :
  index_of (index_rows_ok h fields rows idx) n
  = (if is_unique_name fields n then field_values h n rows else ∅)
    ∪ index_of idx n.
Proof.
  unfold index_rows_ok. revert idx.
  induction rows as [|l rows IH]; intros idx; simpl.
  { rewrite field_values_nil. destruct (is_unique_name fields n); set_solver. }
  rewrite IH, index_of_index_row_ok, field_values_cons,
    field_values_singleton.
  destruct (is_unique_name fields n); set_solver.
Qed.

Lemma index_of_index_clumps_ok h fields clumps idx n :
  index_of (index_clumps_ok h fields clumps idx) n
  = (if is_unique_name fields n
     then field_values h n (concat (ClumpRows <$> clumps)) else ∅)
    ∪ index_of idx n.
Proof.
  unfold index_clumps_ok. revert idx.
  induction clumps as [|c clumps IH]; intros idx; simpl.
  { rewrite field_values_nil. destruct (is_unique_name fields n); set_solver. }
  rewrite IH, index_of_index_rows_ok, field_values_app.
  destruct (is_unique_name fields n); set_solver.
Qed.

(** ** The operations that keep the unique indices exact *)

Lemma index_exact_ext db db' :
  Tables db' = Tables db → Heap db' = Heap db →
  index_exact db → index_exact db'.
Proof. unfold index_exact. intros -> ->. done. Qed.

Lemma index_exact_set_table db tableName table :
  index_exact db → index_exact_table (Heap db) table →
  index_exact (with_Tables (<[tableName := table]> (Tables db)) db).
Proof.
  intros Hdb Ht n t. simpl.
  destruct (decide (tableName = n)) as [->|Hne].
  - rewrite lookup_insert_eq. by intros [= <-].
  - rewrite lookup_insert_ne by done. apply Hdb.
Qed.

Lemma table_rows_seal table now : table_rows (seal table now) = table_rows table.
Proof.
  unfold table_rows, seal. simpl.
  by rewrite fmap_app, concat_app, app_nil_r; simpl; rewrite app_nil_r.
Qed.

Lemma index_exact_table_seal h table now :
  index_exact_table h table → index_exact_table h (seal table now).
Proof.
  intros Ht f Hf Hu. rewrite table_rows_seal. by apply Ht.
Qed.

Lemma index_exact_auto_flush db tableName table now :
  index_exact db → index_exact_table (Heap db) table →
  index_exact (auto_flush db tableName table now).
Proof.
  intros Hdb Ht. unfold auto_flush. case_bool_decide.
  - apply (index_exact_ext
             (with_Tables (<[tableName := seal table now]> (Tables db)) db));
      [done..|].
    by apply index_exact_set_table, index_exact_table_seal.
  - by apply index_exact_set_table.
Qed.

Lemma check_constraints_Ok idx record fields :
  check_constraints idx record fields = Ok →
  ∀ f, f ∈ fields →
       ∃ v, record !! Name f = Some v
            ∧ (Unique f = true → v ∉ index_of idx (Name f)).
Proof.
  induction fields as [|g fields IH]; simpl.
  { intros _ f Hf. by apply not_elem_of_nil in Hf. }
  destruct (record !! Name g) as [v|] eqn:Hv; [|done].
  destruct (Unique g && bool_decide (v ∈ index_of idx (Name g))) eqn:Hc;
    [done|].
  intros Hrest f [->|Hf]%elem_of_cons; [|by apply IH].
  exists v. split; [done|]. intros Hu. rewrite Hu in Hc. simpl in Hc.
  by apply bool_decide_eq_false_1 in Hc.
Qed.

(** The table after one accepted row was indexed and appended. *)
Lemma index_exact_table_accept h table record :
  (∀ f, f ∈ Fields (TableSchema table) →
        is_Some (deref h record !! Name f)) →
  index_exact_table h table →
  index_exact_table h
    (append_row record
       (with_UniqueIndices
          (apply_indices (Fields (TableSchema table)) (deref h record)
                         (UniqueIndices table)) table)).
Proof.
  intros Hall Ht f Hf Hu. simpl in *.
  rewrite index_of_apply_indices, (is_unique_name_elem_of _ _ Hf Hu).
  unfold table_rows. simpl.
  rewrite app_assoc, field_values_app, field_values_singleton.
  fold (table_rows table). rewrite <-(Ht f Hf Hu).
  destruct (Hall f Hf) as [v Hv]. unfold get. rewrite Hv. simpl.
  set_solver.
Qed.

Lemma Insert_index_exact db tableName record now :
  index_exact db → index_exact (Insert db tableName record now).1.
Proof.
  intros Hdb. unfold Insert.
  destruct (Tables db !! tableName) as [table|] eqn:Ht; [|done].
  destruct (check_constraints _ _ _) eqn:Hc; [|done]. simpl.
  apply index_exact_auto_flush; [done|].
  apply index_exact_table_accept; [|by apply (Hdb tableName)].
  intros f Hf. destruct (check_constraints_Ok _ _ _ Hc f Hf) as (v & Hv & _).
  by eexists.
Qed.

Lemma bulk_check_row_Ok idx earlier i record fields :
  bulk_check_row idx earlier i record fields = Ok →
  ∀ f, f ∈ fields →
       ∃ v, record !! Name f = Some v
            ∧ (Unique f = true →
               (v ∉ index_of idx (Name f))
               ∧ (∀ r, r ∈ earlier → get r (Name f) ≠ v)).
Proof.
  induction fields as [|g fields IH]; simpl.
  { intros _ f Hf. by apply not_elem_of_nil in Hf. }
  destruct (record !! Name g) as [v|] eqn:Hv; [|done].
  destruct (Unique g) eqn:Hu.
  - case_bool_decide as Hidx; [done|].
    destruct (existsb _ earlier) eqn:Hex; [done|].
    intros Hrest f [->|Hf]%elem_of_cons; [|by apply IH].
    exists v. split; [done|]. intros _. split; [done|].
    intros r Hr Heq.
    assert (existsb (λ r, bool_decide (get r (Name g) = v)) earlier = true)
      as Htrue; [|congruence].
    apply existsb_true_elem_of. exists r. by rewrite bool_decide_eq_true_2.
  - intros Hrest f [->|Hf]%elem_of_cons; [|by apply IH].
    exists v. split; [done|]. congruence.
Qed.

Lemma bulk_validate_Ok idx fields earlier records :
  bulk_validate idx fields earlier records = Ok →
  ∀ i record, records !! i = Some record →
    bulk_check_row idx (earlier ++ take i records)
                   (length earlier + i) record fields = Ok.
Proof.
  revert earlier. induction records as [|r records IH]; intros earlier; simpl.
  { by intros _ i record Hi. }
  destruct (bulk_check_row idx earlier (length earlier) r fields) eqn:Hr;
    [|done].
  intros Hrest [|i] record Hi; simpl in *.
  - injection Hi as <-. by rewrite app_nil_r, Nat.add_0_r.
  - specialize (IH _ Hrest i record Hi).
    rewrite length_app, <-app_assoc in IH. simpl in IH.
    by replace (length earlier + S i)%nat with (length earlier + 1 + i)%nat
      by lia.
Qed.

Lemma bulk_apply_schema h records table :
  TableSchema (bulk_apply h records table) = TableSchema table.
Proof.
  unfold bulk_apply. revert table.
  induction records as [|r records IH]; intros table; simpl; [done|].
  by rewrite IH.
Qed.

Lemma bulk_apply_index_exact h records table :
  (∀ r, r ∈ records → ∀ f, f ∈ Fields (TableSchema table) →
        is_Some (deref h r !! Name f)) →
  index_exact_table h table → index_exact_table h (bulk_apply h records table).
Proof.
  unfold bulk_apply. revert table.
  induction records as [|r records IH]; intros table Hall Ht; simpl; [done|].
  apply IH.
  - intros r' Hr' f Hf. apply (Hall r'); [by apply list_elem_of_further|done].
  - apply index_exact_table_accept; [|done].
    apply Hall, list_elem_of_here.
Qed.

Lemma BulkInsert_index_exact db tableName records now :
  index_exact db → index_exact (BulkInsert db tableName records now).1.
Proof.
  intros Hdb. unfold BulkInsert.
  destruct (Tables db !! tableName) as [table|] eqn:Ht; [|done].
  destruct (bulk_validate _ _ _ _) eqn:Hv; [|done]. simpl.
  apply index_exact_auto_flush; [done|].
  apply bulk_apply_index_exact; [|by apply (Hdb tableName)].
  intros r Hr f Hf.
  apply list_elem_of_lookup in Hr as [i Hi].
  assert ((deref (Heap db) <$> records) !! i = Some (deref (Heap db) r)) as Hi'
    by by rewrite list_lookup_fmap, Hi.
  pose proof (bulk_validate_Ok _ _ _ _ Hv i _ Hi') as Hrow.
  destruct (bulk_check_row_Ok _ _ _ _ _ Hrow f Hf) as (v & Hv' & _).
  by eexists.
Qed.

Lemma Flush_index_exact db tableName now :
  index_exact db → index_exact (Flush db tableName now).1.
Proof.
  intros Hdb. unfold Flush.
  destruct (Tables db !! tableName) as [table|] eqn:Ht; [|done].
  case_bool_decide; [done|]. simpl.
  apply (index_exact_ext
           (with_Tables (<[tableName := seal table now]> (Tables db)) db));
    [done..|].
  apply index_exact_set_table; [done|].
  by apply index_exact_table_seal, (Hdb tableName).
Qed.

Lemma SyncSchema_index_exact db tableName newFields :
  index_exact db → index_exact (SyncSchema db tableName newFields).1.
Proof.
  intros Hdb. unfold SyncSchema.
  destruct (negb (Compatiable _)); [done|]. simpl.
  destruct (Tables db !! tableName) as [table|] eqn:Ht; [|done].
  apply (index_exact_ext
           (with_Tables
              (<[tableName :=
                   with_Schema {| Version := 1; Fields := newFields |}
                     (index_rows_ok (Heap db) newFields
                        (Rows (TableHotHeap table))
                        (index_clumps_ok (Heap db) newFields
                           (SealedClumps table) (make_indices newFields)))
                     table]> (Tables db)) db)); [done..|].
  apply index_exact_set_table; [done|].
  intros f Hf Hu. simpl in *.
  rewrite index_of_index_rows_ok, index_of_index_clumps_ok,
    index_of_make_indices, (is_unique_name_elem_of _ _ Hf Hu).
  unfold table_rows. simpl. rewrite field_values_app. set_solver.
Qed.

Lemma DefineSchema_new_index_exact db tableName fields now :
  Tables db !! tableName = None → Orphans db !! tableName = None →
  index_exact db → index_exact (DefineSchema db tableName fields now).1.
Proof.
  intros Ht Ho Hdb. unfold DefineSchema. simpl. rewrite Ht, Ho.
  apply (index_exact_ext
           (with_Tables
              (<[tableName :=
                   {| TableName_ := tableName;
                      TableSchema := {| Version := 1; Fields := fields |};
                      TableHotHeap := NewHotHeap 1000 now;
                      SealedClumps := [];
                      UniqueIndices := make_indices fields |}]> (Tables db))
              db)); [done..|].
  apply index_exact_set_table; [done|].
  intros f Hf Hu. simpl. by rewrite index_of_make_indices.
Qed.

(** C2 (amended). From a database whose unique indices are exact (one
    opened on empty files is), after any sequence of [Insert], [BulkInsert], [Flush],
    [SyncSchema] and [DefineSchema] of a table that is not yet defined and
    has no orphan clumps, the unique index of every unique field of every
    table contains exactly the values present in that field across the
    table's rows, sealed clumps and live HotHeap together. *)
Theorem unique_indices_stay_exact db db' :
  index_exact db → rtc index_step db db' → index_exact db'.
Proof.
  intros Hdb Hsteps. induction Hsteps as [|db1 db2 db3 Hstep _ IH]; [done|].
  apply IH. destruct Hstep.
  - by apply DefineSchema_new_index_exact.
  - by apply Insert_index_exact.
  - by apply BulkInsert_index_exact.
  - by apply Flush_index_exact.
  - by apply SyncSchema_index_exact.
Qed.

Lemma unique_indices_stay_exact_witness : index_exact db_users_1.
Proof.
  apply (unique_indices_stay_exact db_users_heap db_users_1).
  - intros n t Ht. by vm_compute in Ht.
  - apply (rtc_l _ _ db_users).
    + by apply (step_DefineSchema db_users_heap "users" users_fields 0).
    + apply rtc_once. apply (step_Insert db_users "users" 1%positive 10).
Defined.

(** After [Insert] of a row with [id = 1] and [Delete] of that row, the
    table has no row and the unique index of [id] still holds 1. *)
Lemma Delete_leaves_value_in_unique_index :
  ∃ t, Tables db_users_deleted !! "users" = Some t
       ∧ {| Name := "id"; Type_ := FieldTypeInt; Unique := true |}
           ∈ Fields (TableSchema t)
       ∧ table_rows t = []
       ∧ field_values (Heap db_users_deleted) "id" (table_rows t) = ∅
       ∧ index_of (UniqueIndices t) "id" = {[ VInt 1 ]}
       ∧ ¬ index_exact db_users_deleted.
Proof.
  eexists. split; [vm_compute; reflexivity|].
  split; [apply list_elem_of_here|].
  split; [reflexivity|]. split; [reflexivity|].
  split; [vm_compute; reflexivity|].
  intros Hexact.
  specialize (Hexact "users" _ eq_refl
                {| Name := "id"; Type_ := FieldTypeInt; Unique := true |}
                (list_elem_of_here _ _) eq_refl).
  differ_at (VInt 1) Hexact.
Qed.

(** [Update] of the unique field, [DefineSchema] of a defined table and
    [Restore] leave the index behind in the same way. *)
Example Update_leaves_unique_index_behind : ¬ index_exact db_users_updated.
Proof.
  intros Hexact.
  specialize (Hexact "users" _ eq_refl
                {| Name := "id"; Type_ := FieldTypeInt; Unique := true |}
                (list_elem_of_here _ _) eq_refl).
  differ_at (VInt 5) Hexact.
Qed.

Example DefineSchema_again_empties_unique_index :
  ¬ index_exact db_users_redefined.
Proof.
  intros Hexact.
  specialize (Hexact "users" _ eq_refl
                {| Name := "id"; Type_ := FieldTypeInt; Unique := true |}
                (list_elem_of_here _ _) eq_refl).
  differ_at (VInt 1) Hexact.
Qed.

Example Restore_bypasses_unique_index :
  index_exact db_ghost_log
  ∧ ¬ index_exact (Restore db_ghost_log 7000000000 true).1.
Proof.
  split.
  - apply (index_exact_ext db_users); [done..|].
    apply DefineSchema_new_index_exact; [done..|].
    intros n t Ht. by vm_compute in Ht.
  - intros Hexact.
    specialize (Hexact "users" _ eq_refl
                  {| Name := "id"; Type_ := FieldTypeInt; Unique := true |}
                  (list_elem_of_here _ _) eq_refl).
    differ_at (VInt 8) Hexact.
Qed.

(** ** BulkInsert and SyncSchema are all-or-nothing *)

Lemma elem_of_field_values h name rows v :
  v ∈ field_values h name rows ↔ ∃ l, l ∈ rows ∧ deref h l !! name = Some v.
Proof.
  unfold field_values. rewrite elem_of_list_to_set, list_elem_of_omap.
  done.
Qed.

Lemma bulk_validate_invalid_row idx fields rows i :
  invalid_row idx fields rows i → ∃ e, bulk_validate idx fields [] rows = Err e.
Proof.
  intros (r & f & Hi & Hf & Hbad).
  destruct (bulk_validate idx fields [] rows) as [|e] eqn:Hv; [|by eexists].
  pose proof (bulk_validate_Ok _ _ _ _ Hv i r Hi) as Hrow. simpl in Hrow.
  destruct (bulk_check_row_Ok _ _ _ _ _ Hrow f Hf) as (v & Hrv & Huniq).
  destruct Hbad as [Hnone|[(Hu & v' & Hv' & Hidx)|(Hu & v' & j & r' & Hv' & Hj & Hr' & Hdup)]].
  - congruence.
  - destruct (Huniq Hu) as [Hnot _]. congruence.
  - destruct (Huniq Hu) as [_ Hearlier]. destruct (Hearlier r').
    + apply list_elem_of_lookup. exists j. by rewrite lookup_take_lt.
    + unfold get. rewrite Hdup. simpl. congruence.
Qed.

(** C3 (amended). [BulkInsert] is all-or-nothing: whenever it returns an
    error the database is left exactly as it was (rows, HotHeap, unique
    indices and all the rest), and it does return an error when some row
    of the batch misses a schema field, or carries in a unique field a
    value that is in the unique index or that an earlier row of the batch
    carries.  A value held by an existing row is refused in this way when
    the unique index is exact; it is the index that is tested, not the
    rows.  [SyncSchema] with a diff that is not compatible fails and
    leaves the database as it was. *)
Theorem BulkInsert_SyncSchema_all_or_nothing db tableName :
  (∀ records now e,
      (BulkInsert db tableName records now).2 = Err e →
      (BulkInsert db tableName records now).1 = db)
  ∧ (∀ table records now i,
        Tables db !! tableName = Some table →
        invalid_row (UniqueIndices table) (Fields (TableSchema table))
                    (deref (Heap db) <$> records) i →
        ∃ e, BulkInsert db tableName records now = (db, Err e))
  ∧ (∀ table records now r f l v,
        Tables db !! tableName = Some table →
        index_exact_table (Heap db) table →
        r ∈ records → f ∈ Fields (TableSchema table) → Unique f = true →
        l ∈ table_rows table →
        deref (Heap db) r !! Name f = Some v →
        deref (Heap db) l !! Name f = Some v →
        ∃ e, BulkInsert db tableName records now = (db, Err e))
  ∧ (∀ newFields,
        Compatiable (DiffSchema db tableName newFields) = false →
        SyncSchema db tableName newFields
        = (db, SyncIncompatible
                 (Conflicts (DiffSchema db tableName newFields))))
  ∧ (∀ newFields conflicts,
        (SyncSchema db tableName newFields).2 = SyncIncompatible conflicts →
        (SyncSchema db tableName newFields).1 = db).
Proof.
  assert (∀ table records now i,
            Tables db !! tableName = Some table →
            invalid_row (UniqueIndices table) (Fields (TableSchema table))
                        (deref (Heap db) <$> records) i →
            ∃ e, BulkInsert db tableName records now = (db, Err e)) as Hinv.
  { intros table records now i Ht Hbad. unfold BulkInsert. rewrite Ht.
    destruct (bulk_validate_invalid_row _ _ _ _ Hbad) as [e ->].
    by exists e. }
  split; [|split; [done|split; [|split]]].
  - intros records now e. unfold BulkInsert.
    destruct (Tables db !! tableName) as [table|]; [|done].
    by destruct (bulk_validate _ _ _ _).
  - intros table records now r f l v Ht Hexact Hr Hf Hu Hl Hrv Hlv.
    apply list_elem_of_lookup in Hr as [i Hi].
    apply (Hinv table records now i Ht).
    exists (deref (Heap db) r), f.
    split; [by rewrite list_lookup_fmap, Hi|]. split; [done|].
    right. left. split; [done|]. exists v. split; [done|].
    rewrite (Hexact f Hf Hu). apply elem_of_field_values. by exists l.
  - intros newFields Hc. unfold SyncSchema. by rewrite Hc.
  - intros newFields conflicts. unfold SyncSchema.
    by destruct (negb (Compatiable _)).
Qed.

Lemma BulkInsert_SyncSchema_all_or_nothing_witness :
  (∃ e, BulkInsert db_users_1 "users" [2%positive; 3%positive] 30
        = (db_users_1, Err e))
  ∧ (∃ e, BulkInsert db_users_1 "users" [2%positive; 1%positive] 30
          = (db_users_1, Err e))
  ∧ (∃ e, BulkInsert db_users_1 "users" [2%positive; 2%positive] 30
          = (db_users_1, Err e))
  ∧ (∃ conflicts,
       SyncSchema db_people "people"
         [ {| Name := "id"; Type_ := FieldTypeInt; Unique := false |};
           {| Name := "name"; Type_ := FieldTypeInt; Unique := false |} ]
       = (db_people, SyncIncompatible conflicts)).
Proof.
  destruct (BulkInsert_SyncSchema_all_or_nothing db_users_1 "users")
    as (_ & Hinvalid & _).
  destruct (BulkInsert_SyncSchema_all_or_nothing db_people "people")
    as (_ & _ & _ & Hsync & _).
  pose (id_field := {| Name := "id"; Type_ := FieldTypeInt; Unique := true |}).
  repeat split.
  - eapply (Hinvalid _ _ 30 1%nat); [vm_compute; reflexivity|].
    exists ∅, id_field. split; [reflexivity|].
    split; [apply list_elem_of_here|]. by left.
  - eapply (Hinvalid _ _ 30 1%nat); [vm_compute; reflexivity|].
    exists {[ "id" := VInt 1 ]}, id_field. split; [reflexivity|].
    split; [apply list_elem_of_here|]. right. left. split; [done|].
    exists (VInt 1). split; [reflexivity|]. by vm_compute.
  - eapply (Hinvalid _ _ 30 1%nat); [vm_compute; reflexivity|].
    exists {[ "id" := VInt 2 ]}, id_field. split; [reflexivity|].
    split; [apply list_elem_of_here|]. right. right. split; [done|].
    exists (VInt 2), 0%nat, {[ "id" := VInt 2 ]}.
    repeat split; first [reflexivity | lia].
  - eexists. apply Hsync. reflexivity.
Defined.

(** The table holds a row with [id] 1 and its schema was defined again,
    which left the unique index empty: a batch whose row repeats the
    [id] of the existing row is not refused, it is applied, and the
    table then holds two rows with [id] 1. *)
Lemma BulkInsert_repeats_existing_value :
  DumpAsJSON db_users_again "users" = inl [ {[ "id" := VInt 1 ]} ]
  ∧ is_unique_name users_fields "id" = true
  ∧ deref (Heap db_users_again) 4%positive = {[ "id" := VInt 1 ]}
  ∧ (BulkInsert db_users_again "users" [4%positive] 30).2 = Ok
  ∧ DumpAsJSON (BulkInsert db_users_again "users" [4%positive] 30).1 "users"
    = inl [ {[ "id" := VInt 1 ]}; {[ "id" := VInt 1 ]} ].
Proof. evaluate. Qed.

(** ** Sealing at capacity *)

Lemma Insert_Ok_table db tableName record now table :
  Tables db !! tableName = Some table →
  (Insert db tableName record now).2 = Ok →
  ∃ table',
    Tables (Insert db tableName record now).1 !! tableName = Some table'
    ∧ if bool_decide (MaxRows (TableHotHeap table)
                      ≤ Z.of_nat (length (Rows (TableHotHeap table) ++ [record])))
      then SealedClumps table'
           = SealedClumps table
             ++ [ {| ClumpRows := Rows (TableHotHeap table) ++ [record];
                     SealedAt := now;
                     Metadata :=
                       {| RowCount :=
                            Z.of_nat (length (Rows (TableHotHeap table)
                                              ++ [record]));
                          MetaCreatedAt := CreatedAt (TableHotHeap table);
                          SchemaVersion := Version (TableSchema table) |} |} ]
           ∧ TableHotHeap table' = NewHotHeap 1000 now
      else SealedClumps table' = SealedClumps table
           ∧ Rows (TableHotHeap table') = Rows (TableHotHeap table) ++ [record]
           ∧ MaxRows (TableHotHeap table') = MaxRows (TableHotHeap table).
Proof.
  intros Ht. unfold Insert. rewrite Ht.
  destruct (check_constraints _ _ _); [|done]. intros _. simpl.
  unfold auto_flush. simpl. case_bool_decide; simpl;
    rewrite lookup_insert_eq; eexists; (split; [done|]); done.
Qed.

Lemma InsertAll_app db tableName records1 records2 :
  InsertAll db tableName (records1 ++ records2)
  = match InsertAll db tableName records1 with
    | (db', Ok) => InsertAll db' tableName records2
    | (db', Err e) => (db', Err e)
    end.
Proof.
  revert db. induction records1 as [|[r now] records1 IH]; intros db; simpl.
  { done. }
  destruct (Insert db tableName r now) as [db' [|e]]; [apply IH|done].
Qed.

Lemma InsertAll_below_capacity tableName records :
  ∀ db table,
    Tables db !! tableName = Some table →
    Z.of_nat (length (Rows (TableHotHeap table)) + length records)
    < MaxRows (TableHotHeap table) →
    (InsertAll db tableName records).2 = Ok →
    ∃ table',
      Tables (InsertAll db tableName records).1 !! tableName = Some table'
      ∧ SealedClumps table' = SealedClumps table
      ∧ Rows (TableHotHeap table') = Rows (TableHotHeap table) ++ records.*1
      ∧ MaxRows (TableHotHeap table') = MaxRows (TableHotHeap table).
Proof.
  induction records as [|[r now] records IH]; intros db table Ht Hlen; simpl.
  { intros _. exists table. by rewrite app_nil_r. }
  destruct (Insert db tableName r now) as [db' res] eqn:Hins.
  destruct res as [|e]; [|done]. intros Hok.
  destruct (Insert_Ok_table db tableName r now table Ht) as (t1 & Ht1 & Hcase).
  { by rewrite Hins. }
  rewrite Hins in Ht1. simpl in Ht1.
  rewrite bool_decide_eq_false_2 in Hcase
    by (rewrite length_app; simpl in *; lia).
  destruct Hcase as (Hclumps & Hrows & Hmax).
  destruct (IH db' t1 Ht1) as (t2 & Ht2 & Hc2 & Hr2 & Hm2); [|done|].
  { rewrite Hrows, Hmax, length_app. simpl in *. lia. }
  exists t2. rewrite Ht2, Hc2, Hr2, Hm2, Hclumps, Hrows, Hmax, <-app_assoc.
  done.
Qed.

Lemma InsertAll_app_Ok db tableName records1 records2 :
  (InsertAll db tableName (records1 ++ records2)).2 = Ok →
  (InsertAll db tableName records1).2 = Ok
  ∧ InsertAll db tableName (records1 ++ records2)
    = InsertAll (InsertAll db tableName records1).1 tableName records2.
Proof.
  rewrite InsertAll_app.
  by destruct (InsertAll db tableName records1) as [db' [|e]].
Qed.

Lemma InsertAll_one db tableName record now :
  InsertAll db tableName [(record, now)] = Insert db tableName record now.
Proof.
  simpl. by destruct (Insert db tableName record now) as [db' [|e]].
Qed.

(** C4. A table with an empty HotHeap of capacity [capacity] and no sealed
    clump receives [capacity] rows and then one more, every insert being
    accepted.  While fewer than [capacity] rows are in, nothing is sealed.
    After exactly [capacity] rows the table has one sealed clump that
    holds these rows, and an empty HotHeap.  After [capacity + 1] rows it
    has that one clump, and a HotHeap that holds the last row alone. *)
Theorem seal_at_capacity db tableName table capacity records extra :
  Tables db !! tableName = Some table →
  Rows (TableHotHeap table) = [] →
  SealedClumps table = [] →
  MaxRows (TableHotHeap table) = capacity →
  1 ≤ capacity →
  Z.of_nat (length records) = capacity →
  (InsertAll db tableName (records ++ [extra])).2 = Ok →
  (∀ k, (k < length records)%nat →
        ∃ t, Tables (InsertAll db tableName (take k records)).1 !! tableName
             = Some t
             ∧ SealedClumps t = []
             ∧ Rows (TableHotHeap t) = (take k records).*1)
  ∧ (∃ t, Tables (InsertAll db tableName records).1 !! tableName = Some t
          ∧ ClumpRows <$> SealedClumps t = [records.*1]
          ∧ (RowCount ∘ Metadata) <$> SealedClumps t = [capacity]
          ∧ Rows (TableHotHeap t) = [])
  ∧ (∃ t, Tables (InsertAll db tableName (records ++ [extra])).1 !! tableName
          = Some t
          ∧ ClumpRows <$> SealedClumps t = [records.*1]
          ∧ (RowCount ∘ Metadata) <$> SealedClumps t = [capacity]
          ∧ Rows (TableHotHeap t) = [extra.1]).
Proof.
  intros Ht Hrows Hclumps Hmax Hcap Hlen Hok.
  destruct (InsertAll_app_Ok _ _ _ _ Hok) as [Hok1 Heq].
  assert (∀ k, (k < length records)%nat →
            ∃ t, Tables (InsertAll db tableName (take k records)).1 !! tableName
                 = Some t
                 ∧ SealedClumps t = []
                 ∧ Rows (TableHotHeap t) = (take k records).*1
                 ∧ MaxRows (TableHotHeap t) = capacity) as Hbelow.
  { intros k Hk.
    rewrite <-(take_drop k records) in Hok1.
    destruct (InsertAll_app_Ok _ _ _ _ Hok1) as [Hokk _].
    destruct (InsertAll_below_capacity tableName (take k records) db table Ht)
      as (t & Htk & Hc & Hr & Hm); [|done|].
    { rewrite Hrows, length_take. simpl. lia. }
    exists t. by rewrite Htk, Hc, Hr, Hm, Hrows, Hclumps, Hmax. }
  assert (∃ t, Tables (InsertAll db tableName records).1 !! tableName = Some t
               ∧ ClumpRows <$> SealedClumps t = [records.*1]
               ∧ (RowCount ∘ Metadata) <$> SealedClumps t = [capacity]
               ∧ TableHotHeap t = NewHotHeap 1000 (default 0 (snd <$> last records)))
    as (t2 & Ht2 & Hc2 & Hn2 & Hh2).
  { destruct (exists_last (l := records)) as (front & [r now] & Hsplit).
    { intros ->. simpl in Hlen. lia. }
    destruct (Hbelow (length front)) as (t1 & Ht1 & Hc1 & Hr1 & Hm1).
    { rewrite Hsplit, length_app. simpl. lia. }
    rewrite Hsplit, take_app_length in Ht1, Hr1.
    rewrite Hsplit in Hok1.
    destruct (InsertAll_app_Ok _ _ _ _ Hok1) as [_ Heq1].
    rewrite InsertAll_one in Heq1.
    destruct (Insert_Ok_table _ tableName r now t1 Ht1) as (t2 & Ht2 & Hcase).
    { by rewrite <-Heq1. }
    rewrite bool_decide_eq_true_2 in Hcase.
    2:{ rewrite Hm1, Hr1, length_app, length_fmap. simpl.
        rewrite Hsplit, length_app in Hlen. simpl in Hlen. lia. }
    destruct Hcase as [Hc2 Hh2].
    exists t2. rewrite Hsplit, Heq1, Ht2, Hc2, Hc1, Hh2, Hr1. simpl.
    rewrite fmap_app, last_snoc. simpl.
    repeat split; try done.
    rewrite length_app, length_fmap. simpl.
    rewrite Hsplit, length_app in Hlen. simpl in Hlen. by rewrite <-Hlen. }
  split; [|split].
  - intros k Hk. destruct (Hbelow k Hk) as (t & ? & ? & ? & _). by exists t.
  - exists t2. by rewrite Hh2.
  - destruct extra as [r now]. rewrite Heq, InsertAll_one.
    destruct (Insert_Ok_table _ tableName r now t2 Ht2) as (t3 & Ht3 & Hcase).
    { by rewrite Heq, InsertAll_one in Hok. }
    rewrite Hh2 in Hcase. simpl in Hcase.
    destruct Hcase as (Hc3 & Hr3 & _).
    exists t3. by rewrite Ht3, Hc3, Hr3.
Qed.

Lemma seal_at_capacity_witness :
  ∃ t, Tables (InsertAll db_events "events" (event_rows 1001)).1 !! "events"
       = Some t
       ∧ ClumpRows <$> SealedClumps t = [(event_rows 1000).*1]
       ∧ (RowCount ∘ Metadata) <$> SealedClumps t = [1000]
       ∧ Rows (TableHotHeap t) = [1001%positive].
Proof.
  pose (table := {| TableName_ := "events";
                    TableSchema := {| Version := 1; Fields := users_fields |};
                    TableHotHeap := NewHotHeap 1000 0; SealedClumps := [];
                    UniqueIndices := {[ "id" := ∅ ]} |}).
  destruct (seal_at_capacity db_events "events" table 1000 (event_rows 1000)
              (1001%positive, 1001)) as (_ & _ & Hmore).
  - reflexivity.
  - reflexivity.
  - reflexivity.
  - reflexivity.
  - lia.
  - reflexivity.
  - vm_compute. reflexivity.
  - exact Hmore.
Defined.

(** ** Restore *)

Lemma restore_scan_passed_over db timestamp pre rest :
  forallb (passed_over db timestamp) pre = true →
  restore_scan db timestamp (pre ++ rest) = restore_scan db timestamp rest.
Proof.
  induction pre as [|f pre IH]; simpl; [done|].
  intros [Hf Hpre]%andb_true_iff. specialize (IH Hpre).
  destruct f as [b| |err]; simpl in *; try done.
  unfold passed_over in Hf. simpl in Hf.
  case_bool_decide as Hsec; [|done].
  destruct (Tables db !! BTableName b) as [t|] eqn:Ht; [|done].
  rewrite bool_decide_eq_true_2 in Hf; [done | by eexists].
Qed.

Lemma restore_scan_hit db timestamp b rest t :
  same_second timestamp (FrameBackup b) = true →
  Tables db !! BTableName b = Some t →
  restore_scan db timestamp (FrameBackup b :: rest) = (reinstated db b t, Ok).
Proof.
  simpl. intros Hsec%bool_decide_eq_true_1 Ht.
  by rewrite bool_decide_eq_true_2, Ht.
Qed.

Lemma restore_scan_tables db timestamp frames :
  dom (Tables (restore_scan db timestamp frames).1) = dom (Tables db).
Proof.
  induction frames as [|[b| |err] frames IH]; simpl; [done| |done..].
  case_bool_decide; [|done].
  destruct (Tables db !! BTableName b) as [t|] eqn:Ht; [|done].
  simpl. rewrite dom_insert_L.
  apply (subseteq_union_1_L (C := gset string)), singleton_subseteq_l.
  apply elem_of_dom; eauto.
Qed.

Lemma restore_scan_cons_passed_over db timestamp f rest :
  passed_over db timestamp f = true →
  restore_scan db timestamp (f :: rest) = restore_scan db timestamp rest.
Proof.
  intros Hf. apply (restore_scan_passed_over db timestamp [f] rest).
  simpl. by rewrite Hf.
Qed.

(** Without a broken frame the scan ends in one of two ways. *)
Lemma restore_scan_outcome db timestamp frames :
  forallb (λ f, negb (broken f)) frames = true →
  (forallb (passed_over db timestamp) frames = true
   ∧ restore_scan db timestamp frames = (db, Err "recovery point not found"))
  ∨ (∃ pre b post t,
        frames = pre ++ FrameBackup b :: post
        ∧ forallb (passed_over db timestamp) pre = true
        ∧ same_second timestamp (FrameBackup b) = true
        ∧ Tables db !! BTableName b = Some t
        ∧ restore_scan db timestamp frames = (reinstated db b t, Ok)).
Proof.
  induction frames as [|f frames IH]; [by left|].
  intros [Hf Hfs]%andb_true_iff.
  destruct (passed_over db timestamp f) eqn:Hp.
  - rewrite (restore_scan_cons_passed_over _ _ _ _ Hp).
    destruct (IH Hfs)
      as [[Hall Hres]|(pre & b & post & t & -> & Hpre & Hsec & Ht & Hres)].
    + left. split; [|done]. simpl. by rewrite Hp.
    + right. exists (f :: pre), b, post, t. simpl. by rewrite Hp.
  - right. destruct f as [b| |err]; try done.
    unfold passed_over in Hp. simpl in Hp.
    apply negb_false_iff, andb_true_iff in Hp as [Hsec Hk].
    apply bool_decide_eq_true_1 in Hk as [t Ht].
    exists [], b, frames, t. repeat split; try done.
    by apply restore_scan_hit.
Qed.

(** C5 (amended). [Restore] without confirmation fails and changes nothing.
    With confirmation it scans the safety log from the start and re-appends
    the row of the first record whose timestamp, truncated to the second,
    equals the requested one truncated to the second and whose table is
    defined; the row goes to the end of that table's live HotHeap, the
    unique indices are left as they are, and the scan stops.  When the log
    is read to its end without such a record, [Restore] fails with
    "recovery point not found" and changes nothing. *)
Theorem Restore_first_record_of_known_table db timestamp :
  Restore db timestamp false = (db, Err "recovery aborted")
  ∧ (∀ pre b post,
        SafetyFile db = pre ++ FrameBackup b :: post →
        forallb (passed_over db timestamp) pre = true →
        same_second timestamp (FrameBackup b) = true →
        known_table db (FrameBackup b) = true →
        ∃ t, Tables db !! BTableName b = Some t
             ∧ Restore db timestamp true = (reinstated db b t, Ok)
             ∧ Rows (TableHotHeap (append_row (fresh (dom (Heap db))) t))
               = Rows (TableHotHeap t) ++ [fresh (dom (Heap db))]
             ∧ Heap db !! fresh (dom (Heap db)) = None
             ∧ deref (Heap (reinstated db b t)) (fresh (dom (Heap db)))
               = BData b
             ∧ UniqueIndices (append_row (fresh (dom (Heap db))) t)
               = UniqueIndices t)
  ∧ (forallb (passed_over db timestamp) (SafetyFile db) = true →
     Restore db timestamp true = (db, Err "recovery point not found")).
Proof.
  split; [done|]. split.
  - intros pre b post Hlog Hpre Hsec [t Ht]%bool_decide_eq_true_1.
    exists t. split; [done|]. unfold Restore. simpl.
    rewrite Hlog, (restore_scan_passed_over _ _ _ _ Hpre).
    rewrite (restore_scan_hit _ _ _ _ _ Hsec Ht).
    repeat split; try done.
    + apply not_elem_of_dom, is_fresh.
    + unfold reinstated, deref. simpl. by rewrite lookup_insert_eq.
  - intros Hall. unfold Restore. simpl.
    rewrite <-(app_nil_r (SafetyFile db)).
    by rewrite (restore_scan_passed_over _ _ _ _ Hall).
Qed.

Lemma Restore_first_record_of_known_table_witness :
  Restore db_ghost_log 7000000000 true
  = (reinstated db_ghost_log users_backup users_table, Ok)
  ∧ Restore db_users 7000000000 true
    = (db_users, Err "recovery point not found").
Proof.
  destruct (Restore_first_record_of_known_table db_ghost_log 7000000000)
    as (_ & Hhit & _).
  destruct (Restore_first_record_of_known_table db_users 7000000000)
    as (_ & _ & Hmiss).
  split.
  - destruct (Hhit [FrameUnreadable; FrameBackup ghost_backup] users_backup [])
      as (t & Ht & Hres & _); [reflexivity..|].
    rewrite Hres. f_equal. vm_compute in Ht. by injection Ht as <-.
  - apply Hmiss. reflexivity.
Defined.

(** The first record of the requested second names a table that is not
    defined: [Restore] does not select it, it re-appends the row of the
    record after it. *)
Lemma Restore_first_same_second_not_selected :
  find (λ f, same_second 7000000000 f) (SafetyFile db_ghost_log)
  = Some (FrameBackup ghost_backup)
  ∧ (Restore db_ghost_log 7000000000 true).2 = Ok
  ∧ ((λ t, deref (Heap (Restore db_ghost_log 7000000000 true).1)
             <$> table_rows t)
       <$> Tables (Restore db_ghost_log 7000000000 true).1 !! "users")
    = Some [BData users_backup]
  ∧ BData users_backup !! "id" = Some (VInt 8)
  ∧ BData ghost_backup !! "id" = Some (VInt 7)
  ∧ Tables (Restore db_ghost_log 7000000000 true).1 !! "ghost" = None.
Proof. evaluate. Qed.

(** C10 (amended). A record of the requested second whose table is not
    defined is passed over without error, and [Restore] never adds a
    table.  What comes of the call is decided by the frames after the
    record.  The first record among them of the requested second for a
    defined table is selected: its row is re-appended, as a new row
    object, to the HotHeap of its table.  A frame that cannot be read,
    met before any such record, makes [Restore] return the error of
    reading it and change nothing.  When the frames after the record are
    all passed over, [Restore] fails with "recovery point not found" and
    changes nothing. *)
Theorem Restore_passes_over_unknown_table db timestamp pre b post :
  SafetyFile db = pre ++ FrameBackup b :: post →
  forallb (passed_over db timestamp) pre = true →
  same_second timestamp (FrameBackup b) = true →
  Tables db !! BTableName b = None →
  dom (Tables (Restore db timestamp true).1) = dom (Tables db)
  ∧ Tables (Restore db timestamp true).1 !! BTableName b = None
  ∧ (∀ mid b' post' t,
       post = mid ++ FrameBackup b' :: post' →
       forallb (passed_over db timestamp) mid = true →
       same_second timestamp (FrameBackup b') = true →
       Tables db !! BTableName b' = Some t →
       Restore db timestamp true = (reinstated db b' t, Ok)
       ∧ (∃ t', Tables (Restore db timestamp true).1 !! BTableName b'
                = Some t'
                ∧ Rows (TableHotHeap t')
                  = Rows (TableHotHeap t) ++ [fresh (dom (Heap db))]
                ∧ SealedClumps t' = SealedClumps t
                ∧ UniqueIndices t' = UniqueIndices t)
       ∧ Heap db !! fresh (dom (Heap db)) = None
       ∧ deref (Heap (Restore db timestamp true).1) (fresh (dom (Heap db)))
         = BData b')
  ∧ (∀ mid err post',
       post = mid ++ FrameBroken err :: post' →
       forallb (passed_over db timestamp) mid = true →
       Restore db timestamp true = (db, Err err))
  ∧ (forallb (passed_over db timestamp) post = true →
     Restore db timestamp true = (db, Err "recovery point not found")).
Proof.
  intros Hlog Hpre Hsec Hnone.
  assert (Restore db timestamp true = restore_scan db timestamp post) as Heq.
  { unfold Restore. simpl.
    rewrite Hlog, (restore_scan_passed_over _ _ _ _ Hpre).
    apply restore_scan_cons_passed_over.
    unfold passed_over, known_table. simpl.
    rewrite (bool_decide_eq_false_2 (is_Some _)); [by rewrite andb_false_r|].
    rewrite Hnone. by intros [? ?]. }
  assert (dom (Tables (Restore db timestamp true).1) = dom (Tables db)) as Hdom.
  { rewrite Heq. apply restore_scan_tables. }
  split; [done|]. split; [|split; [|split]].
  - apply not_elem_of_dom. rewrite Hdom. by apply not_elem_of_dom.
  - intros mid b' post' t -> Hmid Hsec' Ht.
    assert (Restore db timestamp true = (reinstated db b' t, Ok)) as Hres.
    { rewrite Heq, (restore_scan_passed_over _ _ _ _ Hmid).
      by apply restore_scan_hit. }
    rewrite Hres. split; [done|]. cbn [fst]. split; [|split].
    + exists (append_row (fresh (dom (Heap db))) t).
      unfold reinstated. simpl. by rewrite lookup_insert_eq.
    + apply not_elem_of_dom, is_fresh.
    + unfold reinstated, deref. simpl. by rewrite lookup_insert_eq.
  - intros mid err post' -> Hmid.
    by rewrite Heq, (restore_scan_passed_over _ _ _ _ Hmid).
  - intros Hpost. rewrite Heq, <-(app_nil_r post).
    by rewrite (restore_scan_passed_over _ _ _ _ Hpost).
Qed.

Lemma Restore_passes_over_unknown_table_witness :
  Restore db_ghost_log 7000000000 true
  = (reinstated db_ghost_log users_backup users_table, Ok)
  ∧ DumpAsJSON (Restore db_ghost_log 7000000000 true).1 "users"
    = inl [ {[ "id" := VInt 8 ]} ]
  ∧ Tables (Restore db_ghost_log 7000000000 true).1 !! "ghost" = None
  ∧ Restore db_ghost_only 7000000000 true
    = (db_ghost_only, Err "recovery point not found").
Proof.
  destruct (Restore_passes_over_unknown_table db_ghost_log 7000000000
              [FrameUnreadable] ghost_backup [FrameBackup users_backup])
    as (_ & Hnone & Hhit & _); [reflexivity..|].
  destruct (Restore_passes_over_unknown_table db_ghost_only 7000000000
              [] ghost_backup [FrameUnreadable])
    as (_ & _ & _ & _ & Hmiss); [reflexivity..|].
  destruct (Hhit [] users_backup [] users_table) as (Hres & _);
    [reflexivity..|].
  split; [done|]. split; [|split; [done|]].
  - rewrite Hres. vm_compute. reflexivity.
  - apply Hmiss. reflexivity.
Defined.

(** The record of the table that is not defined is followed by a frame
    on which a symbol cannot be read, as a log cut short in the middle of
    a record has it: [Restore] neither re-appends a row nor fails with
    "recovery point not found", it returns the error of the read. *)
Lemma Restore_read_error_after_unknown_table :
  SafetyFile db_ghost_cut
  = [FrameBackup ghost_backup; FrameBroken "unexpected EOF"]
  ∧ same_second 7000000000 (FrameBackup ghost_backup) = true
  ∧ Tables db_ghost_cut !! "ghost" = None
  ∧ Restore db_ghost_cut 7000000000 true = (db_ghost_cut, Err "unexpected EOF").
Proof. evaluate. Qed.

(** ** DiffSchema *)

Lemma fieldMap_from_lookup (m : gmap string Field) fields name :
  foldl (λ m f, <[Name f := f]> m) m fields !! name
  = match last (filter (λ f, Name f = name) fields) with
    | Some f => Some f
    | None => m !! name
    end.
Proof.
  revert m. induction fields as [|f fields IH]; intros m; simpl; [done|].
  rewrite IH, filter_cons. case_decide as Hn.
  - rewrite last_cons. destruct (last _); [done|].
    by rewrite <-Hn, lookup_insert_eq.
  - destruct (last _); [done|]. by rewrite lookup_insert_ne.
Qed.

Lemma fieldMap_lookup_Some fields name old :
  fieldMap fields !! name = Some old → old ∈ fields ∧ Name old = name.
Proof.
  unfold fieldMap. rewrite fieldMap_from_lookup.
  destruct (last _) as [f|] eqn:Hlast; [|by rewrite lookup_empty].
  intros [= ->]. apply last_Some in Hlast as [l' Hl'].
  assert (old ∈ filter (λ f, Name f = name) fields) as Hin.
  { rewrite Hl'. apply elem_of_app. right. by apply list_elem_of_singleton. }
  by apply list_elem_of_filter in Hin as [? ?].
Qed.

Lemma fieldMap_lookup_is_Some fields name :
  is_Some (fieldMap fields !! name) ↔ name ∈ Name <$> fields.
Proof.
  split.
  - intros [old [Hin <-]%fieldMap_lookup_Some].
    by apply list_elem_of_fmap_2.
  - intros (f & -> & Hin)%list_elem_of_fmap.
    unfold fieldMap. rewrite fieldMap_from_lookup.
    destruct (last _) as [g|] eqn:Hlast; [by eexists|].
    apply last_None in Hlast.
    assert (f ∈ filter (λ g, Name g = Name f) fields) as Hf
      by by apply list_elem_of_filter.
    rewrite Hlast in Hf. by apply not_elem_of_nil in Hf.
Qed.

Lemma fieldMap_lookup_NoDup fields old :
  NoDup (Name <$> fields) → old ∈ fields →
  fieldMap fields !! Name old = Some old.
Proof.
  intros Hnd Hin.
  destruct (fieldMap fields !! Name old) as [g|] eqn:Hg.
  - apply fieldMap_lookup_Some in Hg as [Hgin Hname].
    apply list_elem_of_lookup in Hgin as [i Hi].
    apply list_elem_of_lookup in Hin as [j Hj].
    assert (i = j) as ->.
    { eapply NoDup_lookup; [done| |]; rewrite list_lookup_fmap.
      - by rewrite Hi.
      - rewrite Hj. simpl. by rewrite Hname. }
    congruence.
  - assert (is_Some (fieldMap fields !! Name old)) as [? ?]; [|congruence].
    apply fieldMap_lookup_is_Some. by apply list_elem_of_fmap_2.
Qed.

Lemma diff_new_fields_report currentFieldMap report fields :
  let report' := foldl (diff_new_field currentFieldMap) report fields in
  Compatiable report'
  = Compatiable report
    && forallb (λ f, negb (type_changed currentFieldMap f)) fields
  ∧ Destructive report' = Destructive report
  ∧ Conflicts report'
    = Conflicts report ++ omap (new_field_conflict currentFieldMap) fields.
Proof.
  revert report. induction fields as [|f fields IH]; intros report; simpl.
  { by rewrite andb_true_r, app_nil_r. }
  destruct (IH (diff_new_field currentFieldMap report f)) as (HC & HD & HL).
  rewrite HC, HD, HL.
  unfold diff_new_field, type_changed, new_field_conflict.
  destruct (currentFieldMap !! Name f) as [oldF|]; simpl.
  - case_bool_decide; simpl.
    + by rewrite andb_false_r, <-app_assoc.
    + done.
  - by rewrite <-app_assoc.
Qed.

Lemma diff_old_names_report newFieldMap report names :
  let report' := foldl (diff_old_name newFieldMap) report names in
  Compatiable report' = Compatiable report
  ∧ Destructive report'
    = Destructive report
      || existsb (λ n, bool_decide (newFieldMap !! n = None)) names
  ∧ Conflicts report'
    = Conflicts report
      ++ (FIELD_REMOVE <$> filter (λ n, newFieldMap !! n = None) names).
Proof.
  revert report. induction names as [|n names IH]; intros report; simpl.
  { by rewrite orb_false_r, app_nil_r. }
  destruct (IH (diff_old_name newFieldMap report n)) as (HC & HD & HL).
  rewrite HC, HD, HL, filter_cons. unfold diff_old_name.
  destruct (newFieldMap !! n) as [g|] eqn:Hn; simpl.
  - done.
  - by rewrite orb_true_r, <-app_assoc.
Qed.

Lemma elem_of_map_names (m : gmap string Field) name :
  name ∈ (map_to_list m).*1 ↔ is_Some (m !! name).
Proof.
  split.
  - intros ([n f] & -> & Hin%elem_of_map_to_list)%list_elem_of_fmap.
    by eexists.
  - intros [f Hf]. apply list_elem_of_fmap. exists (name, f).
    split; [done|]. by apply elem_of_map_to_list.
Qed.

Lemma DiffSchema_unfold db tableName current newFields :
  Schemas db !! tableName = Some current →
  let report := DiffSchema db tableName newFields in
  Compatiable report
  = forallb (λ f, negb (type_changed (fieldMap (Fields current)) f)) newFields
  ∧ Destructive report
    = existsb (λ n, bool_decide (fieldMap newFields !! n = None))
              (map_to_list (fieldMap (Fields current))).*1
  ∧ Conflicts report
    = omap (new_field_conflict (fieldMap (Fields current))) newFields
      ++ (FIELD_REMOVE
            <$> filter (λ n, fieldMap newFields !! n = None)
                       (map_to_list (fieldMap (Fields current))).*1).
Proof.
  intros Hcur. unfold DiffSchema. rewrite Hcur. simpl.
  match goal with
  | |- context [foldl (diff_old_name ?nm) (foldl (diff_new_field ?cm) ?r ?fs) ?ns] =>
      destruct (diff_old_names_report nm (foldl (diff_new_field cm) r fs) ns)
        as (HC2 & HD2 & HL2);
      destruct (diff_new_fields_report cm r fs) as (HC1 & HD1 & HL1)
  end.
  rewrite HC2, HD2, HL2, HC1, HD1, HL1. done.
Qed.

(** C6. For a table with a current schema, [DiffSchema] reports
    [Compatiable = false] exactly when some new field has a namesake of
    another type in the current schema, with a [TYPE_MISMATCH] entry naming
    it; it reports [Destructive = true] exactly when some current field is
    absent from the new field list, with a [FIELD_REMOVE] entry for each
    such name and no other; a [FIELD_ADD] entry is reported exactly for the
    names that are new, which changes neither flag.  On the spec's
    examples: [{id:int, name:string}] against [{id:int, name:int}] is
    incompatible with a type mismatch on [name]; against [{id:int}] it is
    destructive and compatible. *)
Theorem DiffSchema_report db tableName current newFields :
  Schemas db !! tableName = Some current →
  let report := DiffSchema db tableName newFields in
  (Compatiable report = false
   ↔ ∃ f old, f ∈ newFields
              ∧ fieldMap (Fields current) !! Name f = Some old
              ∧ Type_ old ≠ Type_ f)
  ∧ (NoDup (Name <$> Fields current) →
     Compatiable report = false
     ↔ ∃ f old, f ∈ newFields ∧ old ∈ Fields current
                ∧ Name old = Name f ∧ Type_ old ≠ Type_ f)
  ∧ (∀ f old, f ∈ newFields →
       fieldMap (Fields current) !! Name f = Some old →
       Type_ old ≠ Type_ f →
       TYPE_MISMATCH (Name f) (Type_ old) (Type_ f) ∈ Conflicts report)
  ∧ (∀ name old new, TYPE_MISMATCH name old new ∈ Conflicts report →
       Compatiable report = false)
  ∧ (Destructive report = true
     ↔ ∃ old, old ∈ Fields current ∧ Name old ∉ Name <$> newFields)
  ∧ (∀ name, FIELD_REMOVE name ∈ Conflicts report
             ↔ name ∈ Name <$> Fields current ∧ name ∉ Name <$> newFields)
  ∧ (∀ name, FIELD_ADD name ∈ Conflicts report
             ↔ name ∈ Name <$> newFields ∧ name ∉ Name <$> Fields current)
  ∧ DiffSchema db_people "people"
      [ {| Name := "id"; Type_ := FieldTypeInt; Unique := false |};
        {| Name := "name"; Type_ := FieldTypeInt; Unique := false |} ]
    = {| Compatiable := false; Destructive := false;
         Conflicts := [TYPE_MISMATCH "name" FieldTypeString FieldTypeInt] |}
  ∧ DiffSchema db_people "people"
      [ {| Name := "id"; Type_ := FieldTypeInt; Unique := false |} ]
    = {| Compatiable := true; Destructive := true;
         Conflicts := [FIELD_REMOVE "name"] |}.
Proof.
  intros Hcur report.
  destruct (DiffSchema_unfold db tableName current newFields Hcur)
    as (HC & HD & HL).
  fold report in HC, HD, HL.
  assert (Compatiable report = false
          ↔ ∃ f old, f ∈ newFields
                     ∧ fieldMap (Fields current) !! Name f = Some old
                     ∧ Type_ old ≠ Type_ f) as Hcompat.
  { rewrite HC, forallb_false_elem_of. unfold type_changed. split.
    - intros (f & Hin & Hch%negb_false_iff).
      destruct (fieldMap (Fields current) !! Name f) as [old|] eqn:Ho;
        [|done].
      exists f, old. by apply bool_decide_eq_true_1 in Hch.
    - intros (f & old & Hin & Ho & Hty). exists f. split; [done|].
      by rewrite Ho, bool_decide_eq_true_2. }
  assert (∀ name, FIELD_REMOVE name ∈ Conflicts report
             ↔ name ∈ Name <$> Fields current ∧ name ∉ Name <$> newFields)
    as Hremove.
  { intros name. rewrite HL, elem_of_app. split.
    - intros [Hin|Hin].
      + apply list_elem_of_omap in Hin as (f & _ & Hf).
        unfold new_field_conflict in Hf.
        destruct (_ !! Name f); [case_bool_decide|]; done.
      + apply list_elem_of_fmap in Hin as (n & [= <-] & Hn).
        apply list_elem_of_filter in Hn as [Hnone Hn].
        apply elem_of_map_names, fieldMap_lookup_is_Some in Hn.
        split; [done|]. rewrite <-fieldMap_lookup_is_Some, Hnone.
        by intros [? ?].
    - intros [Hold Hnew]. right. apply list_elem_of_fmap. exists name.
      split; [done|]. apply list_elem_of_filter. split.
      + apply eq_None_not_Some. by rewrite fieldMap_lookup_is_Some.
      + by apply elem_of_map_names, fieldMap_lookup_is_Some. }
  split; [done|]. split.
  { intros Hnd. rewrite Hcompat. split.
    - intros (f & old & Hin & [Ho Hn]%fieldMap_lookup_Some & Hty).
      by exists f, old.
    - intros (f & old & Hin & Ho & Hn & Hty). exists f, old.
      split; [done|]. split; [|done].
      rewrite <-Hn. by apply fieldMap_lookup_NoDup. }
  split.
  { intros f old Hin Ho Hty. rewrite HL. apply elem_of_app. left.
    apply list_elem_of_omap. exists f. split; [done|].
    unfold new_field_conflict. by rewrite Ho, bool_decide_eq_true_2. }
  split.
  { intros name old new. rewrite HL, elem_of_app. intros [Hin|Hin].
    - apply list_elem_of_omap in Hin as (f & Hf & Hc).
      unfold new_field_conflict in Hc.
      destruct (fieldMap (Fields current) !! Name f) as [o|] eqn:Ho; [|done].
      case_bool_decide; [|done].
      apply Hcompat. by exists f, o.
    - by apply list_elem_of_fmap in Hin as (n & [=] & _). }
  split.
  { rewrite HD, existsb_true_elem_of. split.
    - intros (n & Hn & Hnone%bool_decide_eq_true_1).
      apply elem_of_map_names in Hn as [old [Hin <-]%fieldMap_lookup_Some].
      exists old. split; [done|].
      rewrite <-fieldMap_lookup_is_Some, Hnone. by intros [? ?].
    - intros (old & Hin & Hnot). exists (Name old). split.
      + apply elem_of_map_names, fieldMap_lookup_is_Some.
        by apply list_elem_of_fmap_2.
      + apply bool_decide_eq_true_2, eq_None_not_Some.
        by rewrite fieldMap_lookup_is_Some. }
  split; [done|]. split; [|by vm_compute].
  intros name. rewrite HL, elem_of_app. split.
  - intros [Hin|Hin].
    + apply list_elem_of_omap in Hin as (f & Hf & Hc).
      unfold new_field_conflict in Hc.
      destruct (fieldMap (Fields current) !! Name f) as [o|] eqn:Ho.
      { by case_bool_decide. }
      injection Hc as <-. split; [by apply list_elem_of_fmap_2|].
      rewrite <-fieldMap_lookup_is_Some, Ho. by intros [? ?].
    + by apply list_elem_of_fmap in Hin as (n & [=] & _).
  - intros [(f & -> & Hf)%list_elem_of_fmap Hnot]. left.
    apply list_elem_of_omap. exists f. split; [done|].
    unfold new_field_conflict.
    destruct (fieldMap (Fields current) !! Name f) as [o|] eqn:Ho; [|done].
    destruct Hnot. apply fieldMap_lookup_is_Some. by eexists.
Qed.

Lemma DiffSchema_report_witness :
  let name_int := {| Name := "name"; Type_ := FieldTypeInt; Unique := false |} in
  let name_string :=
    {| Name := "name"; Type_ := FieldTypeString; Unique := false |} in
  let report :=
    DiffSchema db_people "people"
      [ {| Name := "id"; Type_ := FieldTypeInt; Unique := false |}; name_int ]
  in
  Compatiable report = false
  ∧ TYPE_MISMATCH "name" FieldTypeString FieldTypeInt ∈ Conflicts report.
Proof.
  intros name_int name_string report.
  destruct (DiffSchema_report db_people "people"
              {| Version := 1; Fields := people_fields |}
              [ {| Name := "id"; Type_ := FieldTypeInt; Unique := false |};
                name_int ] eq_refl)
    as (Hcompat & _ & Hmismatch & _).
  assert (name_int ∈ [ {| Name := "id"; Type_ := FieldTypeInt;
                          Unique := false |}; name_int ]) as Hin
    by (apply list_elem_of_further, list_elem_of_here).
  split.
  - apply Hcompat. exists name_int, name_string.
    split; [done|]. split; [reflexivity|]. by vm_compute.
  - apply (Hmismatch name_int name_string Hin); [reflexivity|]. by vm_compute.
Defined.

(** ** Error strings *)

(** C7.  On a table that is not defined [Flush], [Update] and [Delete]
    return "table not found" without the name, where [Insert] and
    [BulkInsert] return "table not found: " followed by the name. *)
Theorem table_not_found_without_name :
  (Flush db_users "ghost" 0).2 = Err "table not found"
  ∧ (Update db_users "ghost" id_is_1 price_99 0).2 = Err "table not found"
  ∧ (Delete db_users "ghost" id_is_1 0).2 = Err "table not found"
  ∧ (Insert db_users "ghost" 1%positive 0).2 = Err "table not found: ghost"
  ∧ (BulkInsert db_users "ghost" [1%positive] 0).2
    = Err "table not found: ghost".
Proof. evaluate. Qed.

(** The constraint errors of [Insert], and those of [BulkInsert], which
    come behind the index of the row. *)
Example constraint_error_strings :
  (Insert db_users "users" 3%positive 0).2 = Err "missing field: id"
  ∧ (Insert db_users_1 "users" 1%positive 0).2
    = Err "unique constraint violation: id"
  ∧ (BulkInsert db_users "users" [3%positive] 0).2
    = Err "row 0: missing field: id"
  ∧ (BulkInsert db_users_1 "users" [2%positive; 1%positive] 0).2
    = Err "row 1: unique constraint violation: id"
  ∧ (BulkInsert db_users_1 "users" [2%positive; 2%positive] 0).2
    = Err "row 1: duplicate value in batch for field: id".
Proof. evaluate. Qed.

(** ** The symbolic codec *)

Lemma strip_symbol_app sym rest : strip_symbol sym (sym ++ rest) = Some rest.
Proof.
  induction sym as [|a sym IH]; simpl; [by destruct rest|].
  by rewrite decide_True.
Qed.

Lemma strip_symbol_Some sym stream rest :
  strip_symbol sym stream = Some rest → stream = sym ++ rest.
Proof.
  revert stream. induction sym as [|a sym IH]; intros stream; simpl.
  { destruct stream; by intros [= ->]. }
  destruct stream as [|c stream]; [done|].
  case_decide as Hac; [|done]. subst. intros Hs. by rewrite (IH _ Hs).
Qed.

Lemma strip_symbol_disjoint s sym rest :
  disjoint_symbols s sym → strip_symbol s (sym ++ rest) = None.
Proof.
  unfold disjoint_symbols. revert sym.
  induction s as [|a s IH]; intros sym [H1 H2].
  { by destruct sym. }
  destruct sym as [|c sym]; simpl in *; [done|].
  destruct (decide (a = c)) as [->|Hac]; [|done].
  rewrite decide_True in H2 by done. by apply IH.
Qed.

Lemma mutually_disjoint_middle pre sym post s :
  mutually_disjoint (pre ++ sym :: post) → s ∈ pre → disjoint_symbols s sym.
Proof.
  induction pre as [|s0 pre IH]; simpl.
  { intros _ Hs. by apply not_elem_of_nil in Hs. }
  intros [Hall Hrest] [->|Hs]%elem_of_cons; [|by apply IH].
  rewrite Forall_forall in Hall. apply Hall.
  apply elem_of_app. right. apply list_elem_of_here.
Qed.

Lemma match_symbol_middle pre sym post i rest :
  mutually_disjoint (pre ++ sym :: post) →
  match_symbol (pre ++ sym :: post) i (sym ++ rest)
  = Some ((i + length pre)%nat, rest).
Proof.
  revert i. induction pre as [|s0 pre IH]; intros i Hmd; simpl.
  { by rewrite strip_symbol_app, Nat.add_0_r. }
  rewrite (strip_symbol_disjoint s0 sym rest).
  - destruct Hmd as [_ Hmd]. rewrite (IH (S i) Hmd). f_equal. f_equal. lia.
  - apply (mutually_disjoint_middle (s0 :: pre) sym post); [done|].
    apply list_elem_of_here.
Qed.

Lemma match_symbol_Some table i stream j rest :
  match_symbol table i stream = Some (j, rest) →
  ∃ sym, table !! (j - i)%nat = Some sym ∧ (i ≤ j)%nat
         ∧ stream = sym ++ rest.
Proof.
  revert i. induction table as [|s0 table IH]; intros i; simpl; [done|].
  destruct (strip_symbol s0 stream) as [rest'|] eqn:Hs.
  - intros [= -> ->]. exists s0. rewrite Nat.sub_diag.
    split; [done|]. split; [lia|]. by apply strip_symbol_Some.
  - intros (sym & Hsym & Hle & Hstream)%IH. exists sym.
    replace (j - i)%nat with (S (j - S i)) by lia.
    split; [done|]. split; [lia|done].
Qed.

Lemma match_symbol_None table i stream :
  match_symbol table i stream = None
  ↔ ∀ sym, sym ∈ table → strip_symbol sym stream = None.
Proof.
  revert i. induction table as [|s0 table IH]; intros i; simpl.
  { split; [|done]. by intros _ sym Hs%not_elem_of_nil. }
  destruct (strip_symbol s0 stream) as [rest|] eqn:Hs.
  - split; [done|]. intros Hall.
    by rewrite (Hall s0 (list_elem_of_here _ _)) in Hs.
  - rewrite IH. split.
    + by intros Hall sym [->|Hin]%elem_of_cons; [|apply Hall].
    + intros Hall sym Hin. by apply Hall, list_elem_of_further.
Qed.

Lemma match_symbol_bound table i stream j rest :
  match_symbol table i stream = Some (j, rest) → (j < i + length table)%nat.
Proof.
  intros (sym & Hsym%lookup_lt_Some & Hle & _)%match_symbol_Some. lia.
Qed.

Lemma EncodeToEmojis_cons table b data :
  EncodeToEmojis table (b :: data)
  = symbol_of table b ++ EncodeToEmojis table data.
Proof. done. Qed.

Section codec.
Variable table : list (list Byte.byte).
Hypothesis table_ok : symbol_table table.

Lemma symbol_of_lookup b : table !! Byte.to_nat b = Some (symbol_of table b).
Proof.
  unfold symbol_of.
  destruct (table !! Byte.to_nat b) as [sym|] eqn:Hsym; [done|].
  apply lookup_ge_None in Hsym. destruct table_ok as [Hlen _].
  pose proof (Byte.to_nat_bounded b). lia.
Qed.

Lemma DecodeOne_symbol b rest :
  DecodeOne table (symbol_of table b ++ rest) = Decoded b rest.
Proof.
  pose proof (symbol_of_lookup b) as Hsym.
  pose proof (take_drop_middle _ _ _ Hsym) as Hsplit.
  destruct table_ok as [Hlen Hmd]. unfold DecodeOne.
  rewrite <-Hsplit at 1. rewrite match_symbol_middle by by rewrite Hsplit.
  rewrite length_take, Hlen. simpl.
  pose proof (Byte.to_nat_bounded b).
  replace (Byte.to_nat b `min` 256)%nat with (Byte.to_nat b) by lia.
  by rewrite Byte.of_to_nat.
Qed.

Lemma symbol_of_inj b1 b2 : symbol_of table b1 = symbol_of table b2 → b1 = b2.
Proof.
  intros Heq. pose proof (DecodeOne_symbol b1 []) as H1.
  rewrite Heq, DecodeOne_symbol in H1. congruence.
Qed.

Lemma symbol_of_nonempty b : symbol_of table b ≠ [].
Proof.
  intros Hnil.
  pose (other := if decide (b = Byte.x00) then Byte.x01 else Byte.x00).
  assert (other ≠ b) as Hne by (unfold other; case_decide; by subst).
  pose proof (DecodeOne_symbol other []) as Hother.
  pose proof (DecodeOne_symbol b (symbol_of table other ++ [])) as Hb.
  rewrite Hnil in Hb. simpl in Hb. congruence.
Qed.

Lemma DecodeOne_Decoded stream b rest :
  DecodeOne table stream = Decoded b rest →
  stream = symbol_of table b ++ rest.
Proof.
  unfold DecodeOne.
  destruct (match_symbol table 0 stream) as [[i rest']|] eqn:Hm; [|done].
  destruct (Byte.of_nat i) as [b'|] eqn:Hi; [|done].
  intros [= -> ->]. apply Byte.to_of_nat in Hi. subst i.
  apply match_symbol_Some in Hm as (sym & Hsym & _ & ->).
  rewrite Nat.sub_0_r, symbol_of_lookup in Hsym. congruence.
Qed.

Lemma DecodeOne_UnknownSymbol stream :
  DecodeOne table stream = UnknownSymbol
  ↔ ∀ sym, sym ∈ table → strip_symbol sym stream = None.
Proof.
  rewrite <-(match_symbol_None table 0). unfold DecodeOne.
  destruct (match_symbol table 0 stream) as [[i rest]|] eqn:Hm; [|done].
  split; [|done].
  apply match_symbol_bound in Hm. destruct table_ok as [Hlen _].
  destruct (Byte.of_nat i) eqn:Hi; [done|].
  apply Byte.of_nat_None_iff in Hi. lia.
Qed.

Lemma decode_payload_encode data rest :
  decode_payload table (length data) (EncodeToEmojis table data ++ rest)
  = Some (data, rest).
Proof.
  induction data as [|b data IH]; [done|].
  rewrite EncodeToEmojis_cons, <-app_assoc.
  cbn [length decode_payload]. by rewrite DecodeOne_symbol, IH.
Qed.

Lemma decode_stream_encode data turns :
  (length (EncodeToEmojis table data) ≤ turns)%nat →
  decode_stream table turns (EncodeToEmojis table data) = Some data.
Proof.
  revert turns. induction data as [|b data IH]; intros turns.
  { by destruct turns. }
  rewrite EncodeToEmojis_cons, length_app.
  destruct (symbol_of table b) as [|a sym] eqn:Hsym.
  { by apply symbol_of_nonempty in Hsym. }
  destruct turns as [|turns]; simpl; [lia|]. intros Hlen.
  change (a :: sym ++ EncodeToEmojis table data)
    with ((a :: sym) ++ EncodeToEmojis table data).
  rewrite <-Hsym, DecodeOne_symbol, IH by lia. done.
Qed.
End codec.

(** C8. For a table of 256 mutually disjoint symbols, one per byte value:
    distinct bytes have distinct symbols and the entries of the table are
    exactly the symbols of the bytes; [DecodeOne] on a stream that starts
    with the symbol of [b] returns [b] and the rest of the stream, and a
    stream it decodes does start with the symbol of the byte returned;
    decoding what was encoded gives back the byte sequence, as a whole
    stream and as a payload of known size followed by more; [DecodeOne]
    fails with [UnknownSymbol] exactly when no entry of the table is at
    the front of the stream. *)
Theorem codec_round_trip table :
  symbol_table table →
  (∀ b1 b2, symbol_of table b1 = symbol_of table b2 → b1 = b2)
  ∧ (∀ sym, sym ∈ table ↔ ∃ b, symbol_of table b = sym)
  ∧ (∀ b rest, DecodeOne table (symbol_of table b ++ rest) = Decoded b rest)
  ∧ (∀ b, decode table (EncodeToEmojis table [b]) = Some [b])
  ∧ (∀ data, decode table (EncodeToEmojis table data) = Some data)
  ∧ (∀ data rest,
        decode_payload table (length data) (EncodeToEmojis table data ++ rest)
        = Some (data, rest))
  ∧ (∀ stream b rest,
        DecodeOne table stream = Decoded b rest →
        stream = symbol_of table b ++ rest)
  ∧ (∀ stream,
        DecodeOne table stream = UnknownSymbol
        ↔ ∀ sym, sym ∈ table → strip_symbol sym stream = None).
Proof.
  intros Hok.
  split; [apply (symbol_of_inj table Hok)|].
  split.
  { intros sym. split.
    - intros [i Hi]%list_elem_of_lookup.
      pose proof (lookup_lt_Some _ _ _ Hi) as Hlt.
      destruct Hok as [Hlen Hmd]. rewrite Hlen in Hlt.
      destruct (Byte.of_nat i) as [b|] eqn:Hb.
      + exists b. apply Byte.to_of_nat in Hb. unfold symbol_of.
        by rewrite Hb, Hi.
      + apply Byte.of_nat_None_iff in Hb. lia.
    - intros [b <-]. apply list_elem_of_lookup. exists (Byte.to_nat b).
      by apply symbol_of_lookup. }
  split; [apply (DecodeOne_symbol table Hok)|].
  split; [intros b; by apply decode_stream_encode|].
  split; [intros data; by apply decode_stream_encode|].
  split; [apply (decode_payload_encode table Hok)|].
  split; [apply (DecodeOne_Decoded table Hok)|].
  apply (DecodeOne_UnknownSymbol table Hok).
Qed.

Lemma codec_round_trip_witness :
  decode sample_table
    (EncodeToEmojis sample_table [Byte.x00; Byte.xff; Byte.x41; Byte.x41])
  = Some [Byte.x00; Byte.xff; Byte.x41; Byte.x41]
  ∧ DecodeOne sample_table [Byte.x41; Byte.x42] = UnknownSymbol.
Proof.
  assert (symbol_table sample_table) as Hok.
  { apply (bool_decide_unpack _). vm_compute. exact I. }
  destruct (codec_round_trip sample_table Hok)
    as (_ & _ & _ & _ & Hdecode & _ & _ & Hunknown).
  split; [apply Hdecode|].
  apply Hunknown. apply Forall_forall.
  apply (bool_decide_unpack _). vm_compute. exact I.
Defined.

(** ** Flush *)

(** C9. When the live HotHeap of the table holds no row, [Flush] returns
    success and leaves the database as it is: no clump is sealed, the
    sealed clumps, the HotHeap and the data file are unchanged. *)
Theorem Flush_empty_HotHeap db tableName table now :
  Tables db !! tableName = Some table →
  Rows (TableHotHeap table) = [] →
  Flush db tableName now = (db, Ok)
  ∧ Tables (Flush db tableName now).1 !! tableName = Some table
  ∧ File (Flush db tableName now).1 = File db.
Proof.
  intros Ht Hrows. unfold Flush. rewrite Ht, Hrows. done.
Qed.

Lemma Flush_empty_HotHeap_witness :
  Flush db_users "users" 50 = (db_users, Ok).
Proof.
  exact (proj1 (Flush_empty_HotHeap db_users "users" users_table 50
                  eq_refl eq_refl)).
Defined.

(** ** Insert: acceptance, rejection and effect *)

Lemma acceptable_nil idx row : acceptable idx [] row.
Proof. intros f Hf. by apply not_elem_of_nil in Hf. Qed.

Lemma acceptable_cons idx f fields row :
  acceptable idx (f :: fields) row
  ↔ (∃ v, row !! Name f = Some v
          ∧ (Unique f = true → v ∉ index_of idx (Name f)))
    ∧ acceptable idx fields row.
Proof.
  unfold acceptable. split.
  - intros H. split; [apply H, list_elem_of_here|].
    intros g Hg. by apply H, list_elem_of_further.
  - intros [Hf Hrest] g [->|Hg]%elem_of_cons; [done|by apply Hrest].
Qed.

Lemma check_constraints_acceptable idx record fields :
  check_constraints idx record fields = Ok ↔ acceptable idx fields record.
Proof.
  split; [exact (check_constraints_Ok idx record fields)|].
  induction fields as [|f fields IH]; [done|].
  intros [(v & Hv & Hu) Hrest]%acceptable_cons. simpl. rewrite Hv.
  destruct (Unique f) eqn:Huf; simpl; [|by apply IH].
  rewrite bool_decide_eq_false_2 by by apply Hu. by apply IH.
Qed.

(** The error of the constraint loop names the first field, in schema
    order, that the row fails. *)
Lemma check_constraints_Err idx record fields e :
  check_constraints idx record fields = Err e →
  ∃ pre f post,
    fields = pre ++ f :: post
    ∧ acceptable idx pre record
    ∧ ((e = ("missing field: " ++ Name f)%string ∧ record !! Name f = None)
       ∨ (e = ("unique constraint violation: " ++ Name f)%string
          ∧ Unique f = true
          ∧ ∃ v, record !! Name f = Some v ∧ v ∈ index_of idx (Name f))).
Proof.
  induction fields as [|f fields IH]; simpl; [done|].
  destruct (record !! Name f) as [v|] eqn:Hv.
  - destruct (Unique f && bool_decide (v ∈ index_of idx (Name f))) eqn:Hc.
    + intros [= <-]. apply andb_true_iff in Hc as [Hu Hin].
      apply bool_decide_eq_true_1 in Hin.
      exists [], f, fields. split; [done|]. split; [apply acceptable_nil|].
      right. split; [done|]. split; [done|]. by exists v.
    + intros (pre & g & post & -> & Hpre & Hg)%IH.
      exists (f :: pre), g, post. split; [done|]. split; [|done].
      apply acceptable_cons. split; [|done]. exists v. split; [done|].
      intros Hu. rewrite Hu in Hc. simpl in Hc.
      by apply bool_decide_eq_false_1 in Hc.
  - intros [= <-]. exists [], f, fields.
    split; [done|]. split; [apply acceptable_nil|]. by left.
Qed.

(** [Insert] into a defined table succeeds exactly when the row has every
    schema field and none of its unique values is in the unique index. *)
Theorem Insert_accepts_iff db tableName table record now :
  Tables db !! tableName = Some table →
  (Insert db tableName record now).2 = Ok
  ↔ acceptable (UniqueIndices table) (Fields (TableSchema table))
               (deref (Heap db) record).
Proof.
  intros Ht. rewrite <-check_constraints_acceptable.
  unfold Insert. rewrite Ht. by destruct (check_constraints _ _ _).
Qed.

Lemma Insert_accepts_iff_witness :
  (Insert db_users "users" 1%positive 10).2 = Ok
  ∧ (Insert db_users_1 "users" 1%positive 10).2 ≠ Ok.
Proof.
  pose (id_field := {| Name := "id"; Type_ := FieldTypeInt; Unique := true |}).
  split.
  - apply (Insert_accepts_iff db_users "users" users_table 1%positive 10 eq_refl).
    intros f Hf%list_elem_of_singleton. subst f. exists (VInt 1).
    split; [reflexivity|]. intros _. vm_compute. set_solver.
  - destruct (Tables db_users_1 !! "users") as [t|] eqn:Ht;
      [|by vm_compute in Ht].
    rewrite (Insert_accepts_iff db_users_1 "users" t 1%positive 10 Ht).
    intros Hacc. vm_compute in Ht. injection Ht as <-.
    destruct (Hacc id_field (list_elem_of_here _ _)) as (v & Hv & Hnot).
    vm_compute in Hv. injection Hv as <-.
    apply (Hnot eq_refl). vm_compute. set_solver.
Defined.

(** A rejected [Insert] changes nothing, and its error is "table not
    found: <name>" for a table that is not defined, or else names the
    first schema field, in schema order, that the row lacks ("missing
    field: <field>") or whose unique value is indexed already ("unique
    constraint violation: <field>"). *)
Theorem Insert_rejected db tableName record now e :
  (Insert db tableName record now).2 = Err e →
  (Insert db tableName record now).1 = db
  ∧ ((Tables db !! tableName = None ∧ e = ("table not found: " ++ tableName)%string)
     ∨ ∃ table pre f post,
         Tables db !! tableName = Some table
         ∧ Fields (TableSchema table) = pre ++ f :: post
         ∧ acceptable (UniqueIndices table) pre (deref (Heap db) record)
         ∧ ((e = ("missing field: " ++ Name f)%string
             ∧ deref (Heap db) record !! Name f = None)
            ∨ (e = ("unique constraint violation: " ++ Name f)%string
               ∧ Unique f = true
               ∧ ∃ v, deref (Heap db) record !! Name f = Some v
                      ∧ v ∈ index_of (UniqueIndices table) (Name f)))).
Proof.
  unfold Insert.
  destruct (Tables db !! tableName) as [table|] eqn:Ht.
  - destruct (check_constraints _ _ _) as [|e'] eqn:Hc; [done|].
    intros [= ->]. split; [done|]. right.
    destruct (check_constraints_Err _ _ _ _ Hc) as (pre & f & post & H).
    by exists table, pre, f, post.
  - intros [= <-]. split; [done|]. by left.
Qed.

Lemma Insert_rejected_witness :
  Insert db_users_1 "users" 1%positive 10
  = (db_users_1, Err "unique constraint violation: id")
  ∧ Insert db_users_1 "users" 3%positive 10
    = (db_users_1, Err "missing field: id").
Proof.
  split.
  - destruct (Insert_rejected db_users_1 "users" 1%positive 10
                "unique constraint violation: id") as [Hdb _].
    + vm_compute. reflexivity.
    + rewrite <-Hdb at 2. apply surjective_pairing.
  - destruct (Insert_rejected db_users_1 "users" 3%positive 10
                "missing field: id") as [Hdb _].
    + vm_compute. reflexivity.
    + rewrite <-Hdb at 2. apply surjective_pairing.
Defined.
Lemma table_rows_append_row record table :
  table_rows (append_row record table) = table_rows table ++ [record].
Proof. unfold table_rows. simpl. by rewrite app_assoc. Qed.

Lemma DumpAsJSON_lookup db tableName table :
  Tables db !! tableName = Some table →
  DumpAsJSON db tableName = inl (deref (Heap db) <$> table_rows table).
Proof. intros Ht. unfold DumpAsJSON. by rewrite Ht. Qed.

Lemma auto_flush_lookup db tableName table now :
  Tables (auto_flush db tableName table now) !! tableName
  = Some (if bool_decide (MaxRows (TableHotHeap table)
                          ≤ Z.of_nat (length (Rows (TableHotHeap table))))
          then seal table now else table).
Proof.
  unfold auto_flush. case_bool_decide; simpl; by rewrite lookup_insert_eq.
Qed.

Lemma auto_flush_other db tableName table now :
  (∀ m, m ≠ tableName →
        Tables (auto_flush db tableName table now) !! m = Tables db !! m)
  ∧ Heap (auto_flush db tableName table now) = Heap db
  ∧ File (auto_flush db tableName table now) = File db
  ∧ SafetyFile (auto_flush db tableName table now) = SafetyFile db
  ∧ Schemas (auto_flush db tableName table now) = Schemas db
  ∧ Orphans (auto_flush db tableName table now) = Orphans db.
Proof.
  unfold auto_flush. case_bool_decide; simpl; repeat split; try done;
    intros m Hm; by rewrite lookup_insert_ne.
Qed.

Lemma is_Some_default {A} (x : option A) (d : A) :
  is_Some x → x = Some (default d x).
Proof. by intros [y ->]. Qed.

Lemma run_dispatched_File db :
  File (run_dispatched db)
  = File db ++ ((λ d, persisted (Heap db) d.1 d.2) <$> Dispatched db).
Proof.
  unfold run_dispatched.
  assert (∀ ds db0,
            File (foldl (λ db d, (PersistClump db d.1 d.2).1) db0 ds)
            = File db0 ++ ((λ d, persisted (Heap db0) d.1 d.2) <$> ds)
            ∧ Heap (foldl (λ db d, (PersistClump db d.1 d.2).1) db0 ds)
              = Heap db0) as Hloop.
  { induction ds as [|d ds IH]; intros db0.
    - simpl. by rewrite app_nil_r.
    - cbn [foldl]. destruct (IH (PersistClump db0 d.1 d.2).1) as [-> ->].
      simpl. by rewrite <-app_assoc. }
  by destruct (Hloop (Dispatched db) (with_Dispatched [] db)) as [-> _].
Qed.

(** What the data file holds once the goroutines have run, before and
    after an auto-flush. *)
Lemma auto_flush_run_dispatched db tableName table now :
  record_rows <$> File (run_dispatched (auto_flush db tableName table now))
  = (record_rows <$> File (run_dispatched db))
    ++ (if bool_decide (MaxRows (TableHotHeap table)
                        ≤ Z.of_nat (length (Rows (TableHotHeap table))))
        then [(tableName, deref (Heap db) <$> Rows (TableHotHeap table))]
        else []).
Proof.
  rewrite !run_dispatched_File. unfold auto_flush.
  case_bool_decide; simpl; [|by rewrite app_nil_r].
  by rewrite !fmap_app, <-app_assoc.
Qed.

(** An accepted [Insert] puts the row at the end of the table's row
    sequence, whether or not the HotHeap is sealed by it, adds the row's
    values of the unique fields to their indices and nothing else, and
    leaves the schema, the other tables, the row objects and the safety
    log as they were.  The data file is written only when the insert
    seals the HotHeap: the goroutine it starts then appends one record,
    with the name of the table and all the rows of the sealed clump. *)
Theorem Insert_accepted_effect db tableName table record now :
  Tables db !! tableName = Some table →
  (Insert db tableName record now).2 = Ok →
  ∃ table',
    Tables (Insert db tableName record now).1 !! tableName = Some table'
    ∧ table_rows table' = table_rows table ++ [record]
    ∧ DumpAsJSON (Insert db tableName record now).1 tableName
      = inl ((deref (Heap db) <$> table_rows table)
             ++ [deref (Heap db) record])
    ∧ TableSchema table' = TableSchema table
    ∧ (∀ name,
         index_of (UniqueIndices table') name
         = (if is_unique_name (Fields (TableSchema table)) name
            then {[ get (deref (Heap db) record) name ]} else ∅)
           ∪ index_of (UniqueIndices table) name)
    ∧ (∀ m, m ≠ tableName →
            Tables (Insert db tableName record now).1 !! m = Tables db !! m)
    ∧ Heap (Insert db tableName record now).1 = Heap db
    ∧ record_rows <$> File (run_dispatched (Insert db tableName record now).1)
      = (record_rows <$> File (run_dispatched db))
        ++ (if bool_decide
                 (MaxRows (TableHotHeap table)
                  ≤ Z.of_nat (length (Rows (TableHotHeap table) ++ [record])))
            then [(tableName,
                   deref (Heap db) <$> (Rows (TableHotHeap table) ++ [record]))]
            else [])
    ∧ SafetyFile (Insert db tableName record now).1 = SafetyFile db.
Proof.
  intros Ht. unfold Insert. rewrite Ht.
  destruct (check_constraints _ _ _); [|done]. intros _. simpl.
  match goal with
  | |- context [auto_flush db tableName ?t now] =>
      set (t1 := t);
      destruct (auto_flush_other db tableName t1 now)
        as (Hother & Hheap & _ & Hsafety & _);
      pose proof (auto_flush_lookup db tableName t1 now) as Hlook;
      pose proof (auto_flush_run_dispatched db tableName t1 now) as Hfile
  end.
  assert (∃ table', Tables (auto_flush db tableName t1 now) !! tableName
                    = Some table'
                    ∧ table_rows table' = table_rows t1
                    ∧ TableSchema table' = TableSchema t1
                    ∧ UniqueIndices table' = UniqueIndices t1)
    as (table' & Ht' & Hrows & Hschema & Hidx).
  { eexists. split; [exact Hlook|]. case_bool_decide; [|done].
    by rewrite table_rows_seal. }
  exists table'. rewrite Ht', Hrows, Hschema, Hidx.
  rewrite (DumpAsJSON_lookup _ _ _ Ht'), Hrows, Hheap.
  unfold t1. rewrite table_rows_append_row, fmap_app. simpl.
  repeat split; try done.
  intros name. apply index_of_apply_indices.
Qed.

Lemma Insert_accepted_effect_witness :
  DumpAsJSON db_users_1 "users" = inl [ {[ "id" := VInt 1 ]} ]
  ∧ File (run_dispatched db_events_999) = []
  ∧ (λ p, (PTable p, length (PRows p)))
      <$> File (run_dispatched
                  (Insert db_events_999 "events" 1000%positive 1000).1)
    = [("events", 1000%nat)].
Proof.
  destruct (Insert_accepted_effect db_users "users" users_table 1%positive 10)
    as (t & _ & _ & Hdump & _); [reflexivity| vm_compute; reflexivity |].
  split; [exact Hdump|]. split; [vm_compute; reflexivity|].
  destruct (Insert_accepted_effect db_events_999 "events" events_table_999
              1000%positive 1000)
    as (t' & _ & _ & _ & _ & _ & _ & _ & Hfile & _);
    [|vm_compute; reflexivity|].
  { apply is_Some_default.
    apply (bool_decide_unpack (is_Some (Tables db_events_999 !! "events"))).
    vm_compute. exact I. }
  change (λ p, (PTable p, length (PRows p)))
    with ((λ r : string * list Row, (r.1, length r.2)) ∘ record_rows).
  rewrite list_fmap_compose, Hfile. vm_compute. reflexivity.
Defined.

(** ** Unique values stay distinct *)

Lemma elem_of_values_list h name rows v :
  v ∈ values_list h name rows ↔ v ∈ field_values h name rows.
Proof. unfold field_values. by rewrite elem_of_list_to_set. Qed.

Lemma values_list_app h name rows1 rows2 :
  values_list h name (rows1 ++ rows2)
  = values_list h name rows1 ++ values_list h name rows2.
Proof. apply omap_app. Qed.

Lemma unique_held_ext db db' :
  Tables db' = Tables db → Heap db' = Heap db →
  unique_held db → unique_held db'.
Proof. unfold unique_held. intros -> ->. done. Qed.

Lemma unique_held_set_table db tableName table :
  unique_held db → unique_held_table (Heap db) table →
  unique_held (with_Tables (<[tableName := table]> (Tables db)) db).
Proof.
  intros Hdb Ht n t. simpl.
  destruct (decide (tableName = n)) as [->|Hne].
  - rewrite lookup_insert_eq. by intros [= <-].
  - rewrite lookup_insert_ne by done. apply Hdb.
Qed.

Lemma unique_held_table_seal h table now :
  unique_held_table h table → unique_held_table h (seal table now).
Proof. intros Ht f Hf Hu. rewrite table_rows_seal. by apply Ht. Qed.

Lemma unique_held_auto_flush db tableName table now :
  unique_held db → unique_held_table (Heap db) table →
  unique_held (auto_flush db tableName table now).
Proof.
  intros Hdb Ht. unfold auto_flush. case_bool_decide.
  - apply (unique_held_ext
             (with_Tables (<[tableName := seal table now]> (Tables db)) db));
      [done..|].
    by apply unique_held_set_table, unique_held_table_seal.
  - by apply unique_held_set_table.
Qed.

Lemma acceptable_all_fields idx fields row :
  acceptable idx fields row → ∀ f, f ∈ fields → is_Some (row !! Name f).
Proof. intros Hacc f Hf. destruct (Hacc f Hf) as (v & Hv & _). by eexists. Qed.

Lemma unique_held_table_accept h table record :
  acceptable (UniqueIndices table) (Fields (TableSchema table))
             (deref h record) →
  index_exact_table h table →
  unique_held_table h table →
  unique_held_table h
    (append_row record
       (with_UniqueIndices
          (apply_indices (Fields (TableSchema table)) (deref h record)
                         (UniqueIndices table)) table)).
Proof.
  intros Hacc Hexact Huniq f Hf Hu. simpl in Hf.
  rewrite table_rows_append_row.
  change (table_rows (with_UniqueIndices _ table)) with (table_rows table).
  rewrite values_list_app. apply NoDup_app. split; [by apply Huniq|].
  destruct (Hacc f Hf) as (v & Hv & Hnot). specialize (Hnot Hu).
  unfold values_list at 2 3. simpl. rewrite Hv. simpl.
  split; [|apply NoDup_singleton].
  intros x Hx ->%list_elem_of_singleton. apply Hnot.
  rewrite (Hexact f Hf Hu). by apply elem_of_values_list.
Qed.

Lemma Insert_unique_held db tableName record now :
  index_exact db → unique_held db →
  unique_held (Insert db tableName record now).1.
Proof.
  intros Hexact Hdb. unfold Insert.
  destruct (Tables db !! tableName) as [table|] eqn:Ht; [|done].
  destruct (check_constraints _ _ _) eqn:Hc; [|done]. simpl.
  apply unique_held_auto_flush; [done|].
  apply unique_held_table_accept.
  - by apply check_constraints_acceptable.
  - by apply (Hexact tableName).
  - by apply (Hdb tableName).
Qed.
(** ** BulkInsert: acceptance and effect *)

Lemma bulk_check_row_acceptable idx earlier i record fields :
  bulk_check_row idx earlier i record fields = Ok
  ↔ ∀ f, f ∈ fields →
         ∃ v, record !! Name f = Some v
              ∧ (Unique f = true →
                 (v ∉ index_of idx (Name f))
                 ∧ (∀ r, r ∈ earlier → get r (Name f) ≠ v)).
Proof.
  split; [exact (bulk_check_row_Ok idx earlier i record fields)|].
  induction fields as [|f fields IH]; [done|]. intros Hall. simpl.
  destruct (Hall f (list_elem_of_here _ _)) as (v & Hv & Hu). rewrite Hv.
  assert (bulk_check_row idx earlier i record fields = Ok) as Hrest.
  { apply IH. intros g Hg. by apply Hall, list_elem_of_further. }
  destruct (Unique f); [|done]. destruct (Hu eq_refl) as [Hidx Hearlier].
  rewrite bool_decide_eq_false_2 by done.
  destruct (existsb _ earlier) eqn:Hex; [|done].
  apply existsb_true_elem_of in Hex as (r & Hr & Heq%bool_decide_eq_true_1).
  by destruct (Hearlier r Hr).
Qed.

Lemma bulk_validate_acceptable idx fields earlier rows :
  bulk_validate idx fields earlier rows = Ok
  ↔ ∀ i r, rows !! i = Some r →
      ∀ f, f ∈ fields →
           ∃ v, r !! Name f = Some v
                ∧ (Unique f = true →
                   (v ∉ index_of idx (Name f))
                   ∧ (∀ r', r' ∈ earlier ++ take i rows →
                            get r' (Name f) ≠ v)).
Proof.
  split.
  - intros Hv i r Hi.
    by apply (bulk_check_row_acceptable idx _ (length earlier + i)),
             bulk_validate_Ok.
  - revert earlier. induction rows as [|r rows IH]; intros earlier Hall;
      simpl; [done|].
    assert (bulk_check_row idx earlier (length earlier) r fields = Ok) as ->.
    { apply bulk_check_row_acceptable. intros f Hf.
      destruct (Hall 0%nat r eq_refl f Hf) as (v & Hv & Hu).
      exists v. split; [done|]. simpl in Hu. by rewrite app_nil_r in Hu. }
    apply IH. intros i r' Hi f Hf.
    destruct (Hall (S i) r' Hi f Hf) as (v & Hv & Hu).
    exists v. split; [done|]. simpl in Hu. by rewrite <-app_assoc.
Qed.

Lemma bulk_validate_acceptable_batch idx fields rows :
  bulk_validate idx fields [] rows = Ok ↔ acceptable_batch idx fields rows.
Proof. exact (bulk_validate_acceptable idx fields [] rows). Qed.

Lemma acceptable_batch_cons idx fields r rows :
  acceptable_batch idx fields (r :: rows) →
  acceptable idx fields r
  ∧ acceptable_batch (apply_indices fields r idx) fields rows.
Proof.
  intros Hall. split.
  - intros f Hf. destruct (Hall 0%nat r eq_refl f Hf) as (v & Hv & Hu).
    exists v. split; [done|]. intros Huf. by destruct (Hu Huf).
  - intros i r' Hi f Hf.
    destruct (Hall (S i) r' Hi f Hf) as (v & Hv & Hu).
    exists v. split; [done|]. intros Huf.
    destruct (Hu Huf) as [Hidx Hearlier]. simpl in Hearlier. split.
    + rewrite index_of_apply_indices, (is_unique_name_elem_of _ _ Hf Huf).
      intros [Hin%elem_of_singleton|Hin]%elem_of_union; [|done].
      by destruct (Hearlier r (list_elem_of_here _ _)).
    + intros r'' Hr''. by apply Hearlier, list_elem_of_further.
Qed.

Lemma seal_shape table now :
  ClumpRows <$> SealedClumps (seal table now)
  = (ClumpRows <$> SealedClumps table) ++ [Rows (TableHotHeap table)]
  ∧ TableHotHeap (seal table now) = NewHotHeap 1000 now
  ∧ TableSchema (seal table now) = TableSchema table
  ∧ UniqueIndices (seal table now) = UniqueIndices table.
Proof. unfold seal. simpl. by rewrite fmap_app. Qed.

Lemma bulk_apply_shape h records table :
  Rows (TableHotHeap (bulk_apply h records table))
  = Rows (TableHotHeap table) ++ records
  ∧ MaxRows (TableHotHeap (bulk_apply h records table))
    = MaxRows (TableHotHeap table)
  ∧ CreatedAt (TableHotHeap (bulk_apply h records table))
    = CreatedAt (TableHotHeap table)
  ∧ SealedClumps (bulk_apply h records table) = SealedClumps table.
Proof.
  unfold bulk_apply. revert table.
  induction records as [|r records IH]; intros table; simpl.
  { by rewrite app_nil_r. }
  destruct (IH (append_row r
                  (with_UniqueIndices
                     (apply_indices (Fields (TableSchema table)) (deref h r)
                                    (UniqueIndices table)) table)))
    as (-> & -> & -> & ->).
  simpl. by rewrite <-app_assoc.
Qed.

Lemma table_rows_bulk_apply h records table :
  table_rows (bulk_apply h records table) = table_rows table ++ records.
Proof.
  unfold table_rows. destruct (bulk_apply_shape h records table)
    as (-> & _ & _ & ->). by rewrite app_assoc.
Qed.

Lemma index_of_bulk_apply h records table name :
  index_of (UniqueIndices (bulk_apply h records table)) name
  = (if is_unique_name (Fields (TableSchema table)) name
     then list_to_set ((λ l, get (deref h l) name) <$> records) else ∅)
    ∪ index_of (UniqueIndices table) name.
Proof.
  unfold bulk_apply. revert table.
  induction records as [|r records IH]; intros table; simpl.
  { destruct (is_unique_name _ _); set_solver. }
  rewrite IH. simpl. rewrite index_of_apply_indices.
  destruct (is_unique_name _ _); set_solver.
Qed.

Lemma bulk_apply_accept h records table :
  acceptable_batch (UniqueIndices table) (Fields (TableSchema table))
                   (deref h <$> records) →
  index_exact_table h table → unique_held_table h table →
  unique_held_table h (bulk_apply h records table).
Proof.
  unfold bulk_apply. revert table.
  induction records as [|r records IH]; intros table Hacc Hexact Huniq;
    simpl; [done|].
  rewrite fmap_cons in Hacc.
  apply acceptable_batch_cons in Hacc as [Hr Hrest].
  apply IH.
  - done.
  - apply index_exact_table_accept; [|done].
    by apply (acceptable_all_fields (UniqueIndices table)).
  - by apply unique_held_table_accept.
Qed.

Lemma BulkInsert_unique_held db tableName records now :
  index_exact db → unique_held db →
  unique_held (BulkInsert db tableName records now).1.
Proof.
  intros Hexact Hdb. unfold BulkInsert.
  destruct (Tables db !! tableName) as [table|] eqn:Ht; [|done].
  destruct (bulk_validate _ _ _ _) eqn:Hv; [|done]. simpl.
  apply unique_held_auto_flush; [done|].
  apply bulk_apply_accept.
  - by apply bulk_validate_acceptable_batch.
  - by apply (Hexact tableName).
  - by apply (Hdb tableName).
Qed.

Lemma Flush_unique_held db tableName now :
  unique_held db → unique_held (Flush db tableName now).1.
Proof.
  intros Hdb. unfold Flush.
  destruct (Tables db !! tableName) as [table|] eqn:Ht; [|done].
  case_bool_decide; [done|]. simpl.
  apply (unique_held_ext
           (with_Tables (<[tableName := seal table now]> (Tables db)) db));
    [done..|].
  apply unique_held_set_table; [done|].
  by apply unique_held_table_seal, (Hdb tableName).
Qed.

Lemma DefineSchema_new_unique_held db tableName fields now :
  Tables db !! tableName = None → Orphans db !! tableName = None →
  unique_held db → unique_held (DefineSchema db tableName fields now).1.
Proof.
  intros Ht Ho Hdb. unfold DefineSchema. simpl. rewrite Ht, Ho.
  apply (unique_held_ext
           (with_Tables
              (<[tableName :=
                   {| TableName_ := tableName;
                      TableSchema := {| Version := 1; Fields := fields |};
                      TableHotHeap := NewHotHeap 1000 now;
                      SealedClumps := [];
                      UniqueIndices := make_indices fields |}]> (Tables db))
              db)); [done..|].
  apply unique_held_set_table; [done|].
  intros f Hf Hu. apply NoDup_nil_2.
Qed.

(** From a database whose unique indices are exact and whose unique
    fields hold distinct values (one opened on empty files), any sequence of
    [DefineSchema] of new tables, [Insert], [BulkInsert] and [Flush] keeps
    both: no two rows of a table ever hold the same value in a unique
    field. *)
Theorem unique_values_stay_distinct db db' :
  index_exact db → unique_held db → rtc checked_step db db' →
  index_exact db' ∧ unique_held db'.
Proof.
  intros Hexact Hdb Hsteps.
  induction Hsteps as [|db1 db2 db3 Hstep _ IH]; [done|].
  destruct Hstep.
  - apply IH; [by apply DefineSchema_new_index_exact
              |by apply DefineSchema_new_unique_held].
  - apply IH; [by apply Insert_index_exact|by apply Insert_unique_held].
  - apply IH; [by apply BulkInsert_index_exact
              |by apply BulkInsert_unique_held].
  - apply IH; [by apply Flush_index_exact|by apply Flush_unique_held].
Qed.

Lemma unique_values_stay_distinct_witness :
  unique_held (BulkInsert db_users_1 "users" [2%positive; 1%positive] 30).1
  ∧ unique_held (BulkInsert db_users_1 "users" [2%positive] 30).1.
Proof.
  assert (index_exact db_users_heap ∧ unique_held db_users_heap) as [H1 H2].
  { split; intros n t Ht; by vm_compute in Ht. }
  assert (rtc checked_step db_users_heap db_users_1) as Hsteps.
  { apply (rtc_l _ _ db_users).
    - by apply (checked_DefineSchema db_users_heap "users" users_fields 0).
    - apply rtc_once. apply (checked_Insert db_users "users" 1%positive 10). }
  split.
  - apply (unique_values_stay_distinct db_users_heap); [done..|].
    eapply rtc_r; [exact Hsteps|]. apply checked_BulkInsert.
  - apply (unique_values_stay_distinct db_users_heap); [done..|].
    eapply rtc_r; [exact Hsteps|]. apply checked_BulkInsert.
Defined.

(** [BulkInsert] into a defined table succeeds exactly when every row of
    the batch has every schema field and, for each unique field, a value
    that is neither in the unique index nor held by an earlier row of the
    batch. *)
Theorem BulkInsert_accepts_iff db tableName table records now :
  Tables db !! tableName = Some table →
  (BulkInsert db tableName records now).2 = Ok
  ↔ acceptable_batch (UniqueIndices table) (Fields (TableSchema table))
                     (deref (Heap db) <$> records).
Proof.
  intros Ht. rewrite <-bulk_validate_acceptable_batch.
  unfold BulkInsert. rewrite Ht. by destruct (bulk_validate _ _ _ _).
Qed.

Lemma BulkInsert_accepts_iff_witness :
  (BulkInsert db_users "users" [1%positive; 2%positive] 30).2 = Ok.
Proof.
  apply (BulkInsert_accepts_iff db_users "users" users_table _ 30 eq_refl).
  intros i r Hi f Hf%list_elem_of_singleton. subst f.
  destruct i as [|[|i]]; simpl in Hi; [| |done].
  - injection Hi as <-. exists (VInt 1). split; [reflexivity|].
    intros _. split; [vm_compute; set_solver|].
    by intros r' Hr'%not_elem_of_nil.
  - injection Hi as <-. exists (VInt 2). split; [reflexivity|].
    intros _. split; [vm_compute; set_solver|].
    intros r' Hr'%list_elem_of_singleton. subst r'. by vm_compute.
Defined.

(** An accepted [BulkInsert] puts the rows of the batch, in order, at the
    end of the table's row sequence and adds their values of the unique
    fields to the indices.  The capacity is tested once, after the whole
    batch: either nothing is sealed, the HotHeap holds the batch after
    what it held and the data file is not written, or one clump is sealed
    that holds all of that, however many rows it is, the HotHeap is
    empty, and the goroutine that is started appends one record with
    these rows to the data file. *)
Theorem BulkInsert_accepted_effect db tableName table records now :
  Tables db !! tableName = Some table →
  (BulkInsert db tableName records now).2 = Ok →
  ∃ table',
    Tables (BulkInsert db tableName records now).1 !! tableName = Some table'
    ∧ table_rows table' = table_rows table ++ records
    ∧ TableSchema table' = TableSchema table
    ∧ (∀ name,
         index_of (UniqueIndices table') name
         = (if is_unique_name (Fields (TableSchema table)) name
            then list_to_set ((λ l, get (deref (Heap db) l) name) <$> records)
            else ∅)
           ∪ index_of (UniqueIndices table) name)
    ∧ (if bool_decide
            (MaxRows (TableHotHeap table)
             ≤ Z.of_nat (length (Rows (TableHotHeap table) ++ records)))
       then ClumpRows <$> SealedClumps table'
            = (ClumpRows <$> SealedClumps table)
              ++ [Rows (TableHotHeap table) ++ records]
            ∧ TableHotHeap table' = NewHotHeap 1000 now
       else SealedClumps table' = SealedClumps table
            ∧ Rows (TableHotHeap table')
              = Rows (TableHotHeap table) ++ records)
    ∧ Heap (BulkInsert db tableName records now).1 = Heap db
    ∧ record_rows
        <$> File (run_dispatched (BulkInsert db tableName records now).1)
      = (record_rows <$> File (run_dispatched db))
        ++ (if bool_decide
                 (MaxRows (TableHotHeap table)
                  ≤ Z.of_nat (length (Rows (TableHotHeap table) ++ records)))
            then [(tableName,
                   deref (Heap db) <$> (Rows (TableHotHeap table) ++ records))]
            else []).
Proof.
  intros Ht. unfold BulkInsert. rewrite Ht.
  destruct (bulk_validate _ _ _ _); [|done]. intros _. simpl.
  set (t1 := bulk_apply (Heap db) records table).
  destruct (auto_flush_other db tableName t1 now)
    as (_ & Hheap & _).
  pose proof (auto_flush_lookup db tableName t1 now) as Hlook.
  destruct (bulk_apply_shape (Heap db) records table)
    as (Hrows & Hmax & _ & Hclumps).
  fold t1 in Hrows, Hmax, Hclumps.
  eexists. split; [exact Hlook|]. clear Hlook. rewrite Hmax, Hrows.
  split.
  { case_bool_decide; [rewrite table_rows_seal|];
      apply table_rows_bulk_apply. }
  split.
  { case_bool_decide; simpl; apply bulk_apply_schema. }
  split.
  { intros name. case_bool_decide; simpl; apply index_of_bulk_apply. }
  split; [|split; [done|]].
  - case_bool_decide; [|done].
    destruct (seal_shape t1 now) as (-> & -> & _). by rewrite Hclumps, Hrows.
  - rewrite (auto_flush_run_dispatched db tableName t1 now).
    by rewrite Hmax, Hrows.
Qed.

Lemma BulkInsert_accepted_effect_witness :
  DumpAsJSON (BulkInsert db_users "users" [1%positive; 2%positive] 30).1
             "users"
  = inl [ {[ "id" := VInt 1 ]}; {[ "id" := VInt 2 ]} ]
  ∧ File (run_dispatched (BulkInsert db_users "users"
                            [1%positive; 2%positive] 30).1) = []
  ∧ (λ p, (PTable p, length (PRows p)))
      <$> File (run_dispatched
                  (BulkInsert db_events "events"
                              (Pos.of_nat <$> seq 1 1001) 30).1)
    = [("events", 1001%nat)].
Proof.
  destruct (BulkInsert_accepted_effect db_users "users" users_table
              [1%positive; 2%positive] 30)
    as (t & Ht & Hrows & _); [reflexivity|vm_compute; reflexivity|].
  split; [rewrite (DumpAsJSON_lookup _ _ _ Ht), Hrows; vm_compute; reflexivity|].
  split; [vm_compute; reflexivity|].
  destruct (BulkInsert_accepted_effect db_events "events" events_table
              (Pos.of_nat <$> seq 1 1001) 30)
    as (t' & _ & _ & _ & _ & _ & _ & Hfile); [vm_compute; reflexivity..|].
  change (λ p, (PTable p, length (PRows p)))
    with ((λ r : string * list Row, (r.1, length r.2)) ∘ record_rows).
  rewrite list_fmap_compose, Hfile. vm_compute. reflexivity.
Defined.

(** ** Flush *)

Lemma DumpAsJSON_ext db db' tableName :
  Heap db' = Heap db →
  (table_rows <$> Tables db' !! tableName)
  = (table_rows <$> Tables db !! tableName) →
  DumpAsJSON db' tableName = DumpAsJSON db tableName.
Proof.
  intros Hheap Hrows. unfold DumpAsJSON. rewrite Hheap.
  destruct (Tables db' !! tableName), (Tables db !! tableName);
    simplify_eq/=; by rewrite ?Hrows.
Qed.

(** [Flush] of a defined table succeeds and never changes the row
    sequence that [DumpAsJSON] shows, of this or any other table.  When
    the HotHeap holds rows, they become one more sealed clump, the HotHeap
    is left empty, and exactly one record, carrying the contents of these
    rows, is appended to the data file.  A second [Flush] right after the
    first changes nothing. *)
Theorem Flush_effect db tableName table now now' :
  Tables db !! tableName = Some table →
  (Flush db tableName now).2 = Ok
  ∧ (∀ m, DumpAsJSON (Flush db tableName now).1 m = DumpAsJSON db m)
  ∧ (Rows (TableHotHeap table) ≠ [] →
     ∃ table',
       Tables (Flush db tableName now).1 !! tableName = Some table'
       ∧ ClumpRows <$> SealedClumps table'
         = (ClumpRows <$> SealedClumps table) ++ [Rows (TableHotHeap table)]
       ∧ Rows (TableHotHeap table') = []
       ∧ UniqueIndices table' = UniqueIndices table
       ∧ PRows <$> File (Flush db tableName now).1
         = (PRows <$> File db)
           ++ [deref (Heap db) <$> Rows (TableHotHeap table)]
       ∧ PTable <$> File (Flush db tableName now).1
         = (PTable <$> File db) ++ [tableName])
  ∧ Flush (Flush db tableName now).1 tableName now'
    = ((Flush db tableName now).1, Ok).
Proof.
  intros Ht. destruct (decide (Rows (TableHotHeap table) = [])) as [Hempty|Hne].
  - assert (∀ t, Flush db tableName t = (db, Ok)) as Hf.
    { intros t. unfold Flush. by rewrite Ht, Hempty. }
    rewrite !Hf. cbn [fst snd].
    split; [done|]. split; [done|]. split; [|done].
    intros Hne. by destruct Hne.
  - assert (Flush db tableName now
            = (with_File
                 (File db
                  ++ [persisted (Heap db) tableName (clump_of table now)])
                 (with_Tables (<[tableName := seal table now]> (Tables db))
                              db), Ok)) as Hf.
    { unfold Flush. rewrite Ht, bool_decide_eq_false_2; [done|].
      by destruct (Rows (TableHotHeap table)). }
    rewrite Hf. simpl. split; [done|]. split; [|split].
    + intros m. apply DumpAsJSON_ext; [done|]. simpl.
      destruct (decide (tableName = m)) as [<-|Hm].
      * by rewrite lookup_insert_eq, Ht; simpl; rewrite table_rows_seal.
      * by rewrite lookup_insert_ne.
    + intros _. exists (seal table now). rewrite lookup_insert_eq.
      destruct (seal_shape table now) as (-> & -> & _ & ->).
      by rewrite !fmap_app.
    + unfold Flush. simpl. by rewrite lookup_insert_eq.
Qed.

Lemma Flush_effect_witness :
  DumpAsJSON (Flush db_users_1 "users" 50).1 "users"
  = DumpAsJSON db_users_1 "users"
  ∧ PRows <$> File (Flush db_users_1 "users" 50).1 = [[ {[ "id" := VInt 1 ]} ]].
Proof.
  destruct (Tables db_users_1 !! "users") as [t|] eqn:Ht;
    [|by vm_compute in Ht].
  destruct (Flush_effect db_users_1 "users" t 50 60 Ht)
    as (_ & Hdump & Hfile & _).
  split; [apply Hdump|].
  destruct Hfile as (t' & _ & _ & _ & _ & Hrows & _).
  - vm_compute in Ht. by injection Ht as <-.
  - rewrite Hrows. vm_compute in Ht. by injection Ht as <-.
Defined.

(** ** Delete *)

Lemma delete_loop h (pred : Row → bool) (rows : list loc) :
  ∀ kept gone,
    foldl (delete_step h pred) (kept, gone) rows
    = (kept ++ filter (λ l, pred (deref h l) = false) rows,
       gone ++ filter (λ l, pred (deref h l) = true) rows).
Proof.
  induction rows as [|l rows IH]; intros kept gone; simpl.
  { by rewrite !app_nil_r. }
  unfold delete_step at 2. rewrite !filter_cons.
  destruct (pred (deref h l)) eqn:Hp; rewrite IH; cbn [fst snd];
    repeat case_decide; try done; by rewrite <-app_assoc.
Qed.

Lemma with_Tables_id db tableName table :
  Tables db !! tableName = Some table →
  with_Tables (<[tableName := table]> (Tables db)) db = db.
Proof. intros Ht. rewrite insert_id by done. by destruct db. Qed.

Lemma with_Heap_id db : with_Heap (Heap db) db = db.
Proof. by destruct db. Qed.

Lemma with_Rows_id table :
  with_HotHeap (with_Rows (Rows (TableHotHeap table)) (TableHotHeap table))
               table = table.
Proof. by destruct table as [? ? [] ? ?]. Qed.

Lemma filter_none_matching h (pred : Row → bool) (rows : list loc) :
  (∀ l, l ∈ rows → pred (deref h l) = false) →
  filter (λ l, pred (deref h l) = false) rows = rows
  ∧ filter (λ l, pred (deref h l) = true) rows = [].
Proof.
  induction rows as [|l rows IH]; intros Hall; [done|].
  rewrite !filter_cons.
  rewrite (Hall l (list_elem_of_here _ _)).
  destruct IH as [-> ->].
  { intros l' Hl'. by apply Hall, list_elem_of_further. }
  by rewrite decide_True, decide_False.
Qed.

Lemma Delete_effect_parts db tableName table pred now :
  Tables db !! tableName = Some table →
  (Delete db tableName pred now).2 = Ok
  ∧ (∃ table',
       Tables (Delete db tableName pred now).1 !! tableName = Some table'
       ∧ Rows (TableHotHeap table')
         = filter (λ l, pred (deref (Heap db) l) = false)
                  (Rows (TableHotHeap table))
       ∧ SealedClumps table' = SealedClumps table
       ∧ UniqueIndices table' = UniqueIndices table
       ∧ TableSchema table' = TableSchema table)
  ∧ (∀ m, m ≠ tableName →
          Tables (Delete db tableName pred now).1 !! m = Tables db !! m)
  ∧ Heap (Delete db tableName pred now).1 = Heap db
  ∧ SafetyFile (Delete db tableName pred now).1
    = SafetyFile db
      ++ backup_frames (Heap db) tableName now
           (filter (λ l, pred (deref (Heap db) l) = true)
                   (Rows (TableHotHeap table))).
Proof.
  intros Ht. unfold Delete. rewrite Ht, delete_loop. simpl.
  case_bool_decide as Hlen; simpl.
  - split; [done|]. split.
    { eexists. rewrite lookup_insert_eq. done. }
    split; [|done]. intros m Hm. by rewrite lookup_insert_ne.
  - split; [done|]. split.
    { eexists. rewrite lookup_insert_eq. done. }
    split; [intros m Hm; by rewrite lookup_insert_ne|]. split; [done|].
    destruct (filter _ _); [by rewrite app_nil_r|]. simpl in Hlen. lia.
Qed.

(** [Delete] on a defined table succeeds.  It removes from the HotHeap
    the rows that match, keeping the others in their order, and appends
    to the safety log one record per removed row, in row order, with the
    table name, the time and the row's content.  Rows in sealed clumps
    stay, whether they match or not, and the schema, the unique indices
    and the row objects are left as they were. *)
Theorem Delete_effect db tableName table pred now :
  Tables db !! tableName = Some table →
  (Delete db tableName pred now).2 = Ok
  ∧ (∃ table',
       Tables (Delete db tableName pred now).1 !! tableName = Some table'
       ∧ Rows (TableHotHeap table')
         = filter (λ l, pred (deref (Heap db) l) = false)
                  (Rows (TableHotHeap table))
       ∧ SealedClumps table' = SealedClumps table
       ∧ UniqueIndices table' = UniqueIndices table
       ∧ TableSchema table' = TableSchema table)
  ∧ (∀ m, m ≠ tableName →
          Tables (Delete db tableName pred now).1 !! m = Tables db !! m)
  ∧ Heap (Delete db tableName pred now).1 = Heap db
  ∧ SafetyFile (Delete db tableName pred now).1
    = SafetyFile db
      ++ backup_frames (Heap db) tableName now
           (filter (λ l, pred (deref (Heap db) l) = true)
                   (Rows (TableHotHeap table))).
Proof. apply Delete_effect_parts. Qed.

Lemma Delete_effect_witness :
  DumpAsJSON db_users_deleted "users" = inl []
  ∧ SafetyFile db_users_deleted
    = [FrameBackup {| BTableName := "users"; BTimestamp := 20;
                      BData := {[ "id" := VInt 1 ]} |}].
Proof.
  destruct (Tables db_users_1 !! "users") as [t|] eqn:Ht;
    [|by vm_compute in Ht].
  destruct (Delete_effect db_users_1 "users" t id_is_1 20 Ht)
    as (_ & _ & _ & _ & Hlog).
  split; [vm_compute; reflexivity|].
  unfold db_users_deleted. rewrite Hlog.
  vm_compute in Ht. injection Ht as <-. vm_compute. reflexivity.
Defined.

(** When no row of the HotHeap matches, [Delete] and [Update] succeed and
    leave the whole database as it was: nothing is written to the safety
    log. *)
Theorem no_match_no_change db tableName table pred update now :
  Tables db !! tableName = Some table →
  (∀ l, l ∈ Rows (TableHotHeap table) → pred (deref (Heap db) l) = false) →
  Delete db tableName pred now = (db, Ok)
  ∧ Update db tableName pred update now = (db, Ok).
Proof.
  intros Ht Hnone. split.
  - unfold Delete. rewrite Ht, delete_loop. simpl.
    destruct (filter_none_matching _ _ _ Hnone) as [-> ->]. simpl.
    by rewrite with_Rows_id, with_Tables_id.
  - unfold Update. rewrite Ht.
    assert (foldl (update_step pred update) (Heap db, [], false)
                  (Rows (TableHotHeap table)) = (Heap db, [], false)) as ->.
    { revert Hnone. generalize (Rows (TableHotHeap table)).
      intros rows. induction rows as [|l rows IH]; intros Hnone; [done|].
      simpl. rewrite (Hnone l (list_elem_of_here _ _)). apply IH.
      intros l' Hl'. by apply Hnone, list_elem_of_further. }
    simpl. by rewrite with_Heap_id.
Qed.

Lemma no_match_no_change_witness :
  Delete db_users_1 "users" (λ r, bool_decide (r !! "id" = Some (VInt 9))) 20
  = (db_users_1, Ok).
Proof.
  destruct (Tables db_users_1 !! "users") as [t|] eqn:Ht;
    [|by vm_compute in Ht].
  refine (proj1 (no_match_no_change db_users_1 "users" t _ ∅ 20 Ht _)).
  vm_compute in Ht. injection Ht as <-.
  intros l Hl%list_elem_of_singleton. subst l. vm_compute. reflexivity.
Defined.

(** ** Update *)

Lemma update_loop_unmatched (pred : Row → bool) (update : Row)
    (rows : list loc) :
  ∀ h toBackup panicked l,
    pred (deref h l) = false →
    deref (foldl (update_step pred update) (h, toBackup, panicked) rows).1.1 l
    = deref h l.
Proof.
  induction rows as [|l0 rows IH]; intros h toBackup panicked l Hl; [done|].
  simpl. destruct panicked; [by apply IH|].
  destruct (pred (deref h l0)) eqn:Hp; [|by apply IH].
  assert (l0 ≠ l) as Hne by (intros ->; congruence).
  unfold patch. destruct (h !! l0) as [row|] eqn:Hrow.
  - rewrite IH; rewrite deref_insert_ne by done; done.
  - case_decide; by apply IH.
Qed.

(** [Update] on a defined table of distinct row objects succeeds and
    leaves every table as it is: same rows in the same order, same unique
    indices, whatever the patch does to a unique field.  Each HotHeap row
    that matches reads, field by field, as the patch where the patch has
    the field and as before elsewhere; rows that do not match, and rows
    outside the HotHeap (sealed ones too), keep their content.  The
    matching rows are objects: a nil map cannot be patched. *)
Theorem Update_effect db tableName table pred update now :
  Tables db !! tableName = Some table →
  NoDup (Rows (TableHotHeap table)) →
  (∀ l, l ∈ Rows (TableHotHeap table) → pred (deref (Heap db) l) = true →
        is_Some (Heap db !! l)) →
  (Update db tableName pred update now).2 = Ok
  ∧ Tables (Update db tableName pred update now).1 = Tables db
  ∧ (∀ l k, l ∈ Rows (TableHotHeap table) →
            pred (deref (Heap db) l) = true →
            deref (Heap (Update db tableName pred update now).1) l !! k
            = match update !! k with
              | Some v => Some v
              | None => deref (Heap db) l !! k
              end)
  ∧ (∀ l, l ∉ Rows (TableHotHeap table) ∨ pred (deref (Heap db) l) = false →
          deref (Heap (Update db tableName pred update now).1) l
          = deref (Heap db) l).
Proof.
  intros Ht Hnd Halloc.
  destruct (update_loop pred update _ (Heap db) [] Hnd Halloc)
    as (Hok & _ & Hpatched & Hother).
  pose proof (update_loop_unmatched pred update (Rows (TableHotHeap table))
                (Heap db) [] false) as Hunmatched.
  unfold Update. rewrite Ht.
  destruct (foldl _ _ _) as [[h toBackup] panicked]. simpl in *.
  subst panicked.
  case_bool_decide; simpl.
  - split; [done|]. split; [done|]. split.
    + intros l k Hl Hp. rewrite (Hpatched l Hl Hp), lookup_union.
      by destruct (update !! k), (deref (Heap db) l !! k).
    + intros l [Hl|Hl]; [by apply Hother|by apply Hunmatched].
  - split; [done|]. split; [done|]. split.
    + intros l k Hl Hp. rewrite (Hpatched l Hl Hp), lookup_union.
      by destruct (update !! k), (deref (Heap db) l !! k).
    + intros l [Hl|Hl]; [by apply Hother|by apply Hunmatched].
Qed.

Lemma Update_effect_witness :
  deref (Heap db_products_updated) 1%positive !! "price" = Some (VInt 99)
  ∧ deref (Heap db_products_updated) 1%positive !! "id" = Some (VInt 1).
Proof.
  destruct (Tables db_products_1 !! "products") as [t|] eqn:Ht;
    [|by vm_compute in Ht].
  destruct (Update_effect db_products_1 "products" t id_is_1 price_99
              update_time Ht) as (_ & _ & Hpatched & _).
  { vm_compute in Ht. injection Ht as <-. apply NoDup_singleton. }
  { vm_compute in Ht. injection Ht as <-.
    intros l Hl%list_elem_of_singleton _. subst l. vm_compute. by eexists. }
  assert (1%positive ∈ Rows (TableHotHeap t)) as Hin.
  { vm_compute in Ht. injection Ht as <-. apply list_elem_of_here. }
  unfold db_products_updated. split.
  - rewrite (Hpatched 1%positive "price" Hin); [reflexivity|].
    vm_compute. reflexivity.
  - rewrite (Hpatched 1%positive "id" Hin); [|vm_compute; reflexivity].
    vm_compute. reflexivity.
Defined.

Lemma Update_logs_patched_rows_witness :
  SafetyFile db_products_updated
  = [FrameBackup {| BTableName := "products"; BTimestamp := update_time;
                    BData := price_99 ∪ product_1 |}].
Proof.
  destruct (Tables db_products_1 !! "products") as [t|] eqn:Ht;
    [|by vm_compute in Ht].
  unfold db_products_updated.
  rewrite (Update_logs_patched_rows db_products_1 "products" t id_is_1
             price_99 update_time Ht).
  - vm_compute in Ht. injection Ht as <-. vm_compute. reflexivity.
  - vm_compute in Ht. injection Ht as <-. apply NoDup_singleton.
  - vm_compute in Ht. injection Ht as <-.
    intros l Hl%list_elem_of_singleton _. subst l. vm_compute. by eexists.
Defined.

(** A row that is a nil map, which [Insert] accepts under a schema
    without fields: a patch that is not empty makes [Update] panic, and
    nothing is logged; the empty patch leaves it alone. *)
Example Update_nil_row_panics :
  let db := (Insert (DefineSchema (Open "k") "notes" [] 0).1
                    "notes" 1%positive 5).1 in
  DumpAsJSON db "notes" = inl [ ∅ ]
  ∧ Heap db !! 1%positive = None
  ∧ Update db "notes" (λ _, true) price_99 20 = (db, Err nil_map_panic)
  ∧ (Update db "notes" (λ _, true) ∅ 20).2 = Ok
  ∧ Heap (Update db "notes" (λ _, true) ∅ 20).1 !! 1%positive = None.
Proof. evaluate. Qed.

(** ** Restore after Delete, and Restore again *)










(** ** SyncSchema and DefineSchema on tables that hold rows *)

(** A compatible [SyncSchema] installs the new field list with version 1
    again, in the schema map and in the schema file.  A defined table
    keeps its rows, and each of its unique indices is rebuilt to hold
    exactly the values present in the rows, whatever the indices held
    before; the index of a field that is not unique is empty.  When the
    table is not defined, none is created. *)
Theorem SyncSchema_effect db tableName newFields :
  Compatiable (DiffSchema db tableName newFields) = true →
  (SyncSchema db tableName newFields).2 = SyncOk
  ∧ Schemas (SyncSchema db tableName newFields).1 !! tableName
    = Some {| Version := 1; Fields := newFields |}
  ∧ SchemaFile (SyncSchema db tableName newFields).1
    = Schemas (SyncSchema db tableName newFields).1
  ∧ Heap (SyncSchema db tableName newFields).1 = Heap db
  ∧ (Tables db !! tableName = None →
     Tables (SyncSchema db tableName newFields).1 = Tables db)
  ∧ (∀ table, Tables db !! tableName = Some table →
       ∃ table',
         Tables (SyncSchema db tableName newFields).1 !! tableName
         = Some table'
         ∧ TableSchema table' = {| Version := 1; Fields := newFields |}
         ∧ TableHotHeap table' = TableHotHeap table
         ∧ SealedClumps table' = SealedClumps table
         ∧ index_exact_table (Heap db) table'
         ∧ ∀ name,
             index_of (UniqueIndices table') name
             = if is_unique_name newFields name
               then field_values (Heap db) name (table_rows table) else ∅).
Proof.
  intros Hc. unfold SyncSchema. rewrite Hc. simpl.
  destruct (Tables db !! tableName) as [table|] eqn:Ht; simpl.
  - rewrite lookup_insert_eq. repeat split; try done.
    intros t [= <-]. eexists. rewrite lookup_insert_eq.
    split; [done|]. simpl. repeat split; try done.
    + intros f Hf Hu. simpl in *.
      rewrite index_of_index_rows_ok, index_of_index_clumps_ok,
        index_of_make_indices, (is_unique_name_elem_of _ _ Hf Hu).
      unfold table_rows. simpl. rewrite field_values_app. set_solver.
    + intros name.
      rewrite index_of_index_rows_ok, index_of_index_clumps_ok,
        index_of_make_indices.
      unfold table_rows. rewrite field_values_app.
      destruct (is_unique_name newFields name); set_solver.
  - rewrite lookup_insert_eq. repeat split; try done.
Qed.

Lemma SyncSchema_effect_witness :
  ∃ t', Tables (SyncSchema db_users_deleted "users" users_fields).1 !! "users"
        = Some t'
        ∧ index_of (UniqueIndices t') "id" = ∅.
Proof.
  destruct (SyncSchema_effect db_users_deleted "users" users_fields)
    as (_ & _ & _ & _ & _ & Htable); [vm_compute; reflexivity|].
  destruct (Tables db_users_deleted !! "users") as [t|] eqn:Ht;
    [|by vm_compute in Ht].
  destruct (Htable t eq_refl) as (t' & Ht' & _ & _ & _ & _ & Hidx).
  exists t'. split; [done|]. rewrite Hidx.
  vm_compute in Ht. by injection Ht as <-.
Defined.

(** After [Delete] the value of the deleted row is still refused; after a
    [SyncSchema] with the same fields it is accepted again. *)
Example SyncSchema_frees_deleted_value :
  (Insert db_users_deleted "users" 1%positive 30).2
  = Err "unique constraint violation: id"
  ∧ (Insert (SyncSchema db_users_deleted "users" users_fields).1
            "users" 1%positive 30).2 = Ok.
Proof. evaluate. Qed.

(** [DefineSchema] of a table that is already defined replaces its schema
    without any check and keeps its rows, but leaves every unique index
    empty: a row is then acceptable to [Insert] as soon as it has the
    fields, even when it repeats a value that a row of the table holds in
    a unique field. *)
Theorem DefineSchema_again_effect db tableName table fields now :
  Tables db !! tableName = Some table →
  (DefineSchema db tableName fields now).2 = Ok
  ∧ ∃ table',
      Tables (DefineSchema db tableName fields now).1 !! tableName
      = Some table'
      ∧ TableSchema table' = {| Version := 1; Fields := fields |}
      ∧ TableHotHeap table' = TableHotHeap table
      ∧ SealedClumps table' = SealedClumps table
      ∧ (∀ name, index_of (UniqueIndices table') name = ∅)
      ∧ (∀ record record_now,
           (Insert (DefineSchema db tableName fields now).1 tableName
                   record record_now).2 = Ok
           ↔ ∀ f, f ∈ fields → is_Some (deref (Heap db) record !! Name f)).
Proof.
  intros Ht. unfold DefineSchema. simpl. rewrite Ht. simpl.
  split; [done|]. eexists. rewrite lookup_insert_eq. split; [done|]. simpl.
  repeat split; try done.
  - intros name. apply index_of_make_indices.
  - unfold Insert. simpl. rewrite lookup_insert_eq. simpl.
    destruct (check_constraints _ _ _) eqn:Hc; [|done]. intros _.
    apply check_constraints_acceptable in Hc.
    by apply (acceptable_all_fields (make_indices fields)).
  - intros Hall. unfold Insert. simpl. rewrite lookup_insert_eq. simpl.
    assert (check_constraints (make_indices fields) (deref (Heap db) record)
              fields = Ok) as ->; [|done].
    apply check_constraints_acceptable. intros f Hf.
    destruct (Hall f Hf) as [v Hv]. exists v. split; [done|].
    intros _. rewrite index_of_make_indices. set_solver.
Qed.

Lemma DefineSchema_again_effect_witness :
  (Insert db_users_1 "users" 1%positive 30).2
  = Err "unique constraint violation: id"
  ∧ (Insert db_users_redefined "users" 1%positive 30).2 = Ok.
Proof.
  split; [vm_compute; reflexivity|].
  destruct (Tables db_users_1 !! "users") as [t|] eqn:Ht;
    [|by vm_compute in Ht].
  destruct (DefineSchema_again_effect db_users_1 "users" t users_fields 20 Ht)
    as (_ & t' & _ & _ & _ & _ & _ & Hins).
  apply Hins. intros f Hf%list_elem_of_singleton. subst f.
  vm_compute. by eexists.
Defined.

Lemma index_of_index_row_nil fields row idx n :
  index_of (index_row_nil fields row idx) n
  = (if is_unique_name fields n then {[get row n]} else ∅) ∪ index_of idx n.
Proof. apply index_of_apply_indices. Qed.

Lemma index_of_index_clumps_nil h fields clumps idx n :
  index_of (index_clumps_nil h fields clumps idx) n
  = (if is_unique_name fields n
     then list_to_set ((λ l, get (deref h l) n)
                         <$> concat (ClumpRows <$> clumps))
     else ∅) ∪ index_of idx n.
Proof.
  unfold index_clumps_nil. revert idx.
  induction clumps as [|c clumps IH]; intros idx; simpl.
  { destruct (is_unique_name fields n); set_solver. }
  rewrite IH. clear IH. rewrite fmap_app, list_to_set_app_L.
  assert (∀ rows idx,
            index_of (foldl (λ idx l, index_row_nil fields (deref h l) idx)
                            idx rows) n
            = (if is_unique_name fields n
               then list_to_set ((λ l, get (deref h l) n) <$> rows) else ∅)
              ∪ index_of idx n) as Hrows.
  { intros rows. induction rows as [|l rows IH]; intros idx'; simpl.
    { destruct (is_unique_name fields n); set_solver. }
    rewrite IH, index_of_index_row_nil.
    destruct (is_unique_name fields n); set_solver. }
  rewrite Hrows. destruct (is_unique_name fields n); set_solver.
Qed.

(** [DefineSchema] of a table that is not defined and has orphan clumps
    makes these clumps, in their order, the sealed clumps of the new
    table, with an empty HotHeap of capacity 1000, and drops them from
    the orphans.  The index of a unique field receives the value each
    orphan row reads in that field, nil for a row without the field; the
    index is exact when every orphan row has the field. *)
Theorem DefineSchema_orphans db tableName orphans fields now :
  Tables db !! tableName = None →
  Orphans db !! tableName = Some orphans →
  (DefineSchema db tableName fields now).2 = Ok
  ∧ Orphans (DefineSchema db tableName fields now).1 !! tableName = None
  ∧ ∃ table',
      Tables (DefineSchema db tableName fields now).1 !! tableName
      = Some table'
      ∧ SealedClumps table' = orphans
      ∧ TableHotHeap table' = NewHotHeap 1000 now
      ∧ TableSchema table' = {| Version := 1; Fields := fields |}
      ∧ (∀ name,
           index_of (UniqueIndices table') name
           = if is_unique_name fields name
             then list_to_set ((λ l, get (deref (Heap db) l) name)
                                 <$> concat (ClumpRows <$> orphans))
             else ∅)
      ∧ ((∀ l f, l ∈ concat (ClumpRows <$> orphans) → f ∈ fields →
                 Unique f = true → is_Some (deref (Heap db) l !! Name f)) →
         index_exact_table (Heap db) table').
Proof.
  intros Ht Ho. unfold DefineSchema. simpl. rewrite Ht, Ho. simpl.
  split; [done|]. split; [by rewrite lookup_delete_eq|].
  eexists. rewrite lookup_insert_eq. split; [done|]. simpl.
  assert (∀ name,
            index_of (index_clumps_nil (Heap db) fields orphans
                                       (make_indices fields)) name
            = if is_unique_name fields name
              then list_to_set ((λ l, get (deref (Heap db) l) name)
                                  <$> concat (ClumpRows <$> orphans))
              else ∅) as Hidx.
  { intros name. rewrite index_of_index_clumps_nil, index_of_make_indices.
    destruct (is_unique_name fields name); set_solver. }
  repeat split; try done.
  intros Hall f Hf Hu. simpl in Hf |- *.
  rewrite Hidx, (is_unique_name_elem_of _ _ Hf Hu).
  unfold table_rows. simpl. rewrite app_nil_r.
  apply set_eq. intros v.
  rewrite elem_of_list_to_set, list_elem_of_fmap, elem_of_field_values.
  split.
  - intros (l & -> & Hl). exists l. split; [done|].
    destruct (Hall l f Hl Hf Hu) as [v Hv]. unfold get. by rewrite Hv.
  - intros (l & Hl & Hv). exists l. split; [|done].
    unfold get. by rewrite Hv.
Qed.

Lemma DefineSchema_orphans_witness :
  ∃ t, Tables (DefineSchema db_orphans "users" users_fields 9).1 !! "users"
       = Some t
       ∧ length (SealedClumps t) = 2%nat
       ∧ index_of (UniqueIndices t) "id" = {[ VFloat 1; VFloat 2; VNil ]}.
Proof.
  destruct (Orphans db_orphans !! "users") as [orphans|] eqn:Ho;
    [|by vm_compute in Ho].
  destruct (DefineSchema_orphans db_orphans "users" orphans users_fields 9)
    as (_ & _ & t & Ht & Hclumps & _ & _ & Hidx & _);
    [reflexivity|done|].
  exists t. split; [done|]. rewrite Hclumps, Hidx.
  vm_compute in Ho. injection Ho as <-. split; [reflexivity|].
  vm_compute. reflexivity.
Defined.

(** ** DiffSchema of a schema against itself *)

Lemma omap_all_None {A B} (f : A → option B) (l : list A) :
  (∀ x, x ∈ l → f x = None) → omap f l = [].
Proof.
  induction l as [|a l IH]; intros Hall; [done|]. simpl.
  rewrite (Hall a (list_elem_of_here _ _)). apply IH.
  intros x Hx. by apply Hall, list_elem_of_further.
Qed.

Lemma filter_all_False {A} (P : A → Prop) `{∀ x, Decision (P x)}
    (l : list A) :
  (∀ x, x ∈ l → ¬ P x) → filter P l = [].
Proof.
  induction l as [|a l IH]; intros Hall; [done|].
  rewrite filter_cons, decide_False by apply Hall, list_elem_of_here.
  apply IH. intros x Hx. by apply Hall, list_elem_of_further.
Qed.

(** A schema whose field names are distinct is compatible with itself:
    [DiffSchema] of a table against its own field list reports no
    conflict at all, so that [SyncSchema] with the current fields always
    goes through. *)
Theorem DiffSchema_same_fields db tableName current :
  Schemas db !! tableName = Some current →
  NoDup (Name <$> Fields current) →
  DiffSchema db tableName (Fields current)
  = {| Compatiable := true; Destructive := false; Conflicts := [] |}
  ∧ (SyncSchema db tableName (Fields current)).2 = SyncOk.
Proof.
  intros Hcur Hnd.
  destruct (DiffSchema_unfold db tableName current (Fields current) Hcur)
    as (HC & HD & HL).
  assert (∀ f, f ∈ Fields current →
               fieldMap (Fields current) !! Name f = Some f) as Hlook.
  { intros f Hf. by apply fieldMap_lookup_NoDup. }
  assert (DiffSchema db tableName (Fields current)
          = {| Compatiable := true; Destructive := false; Conflicts := [] |})
    as Hreport.
  { destruct (DiffSchema db tableName (Fields current)) as [c d l].
    simpl in *. f_equal.
    - rewrite HC. apply forallb_true_elem_of. intros f Hf.
      unfold type_changed. rewrite (Hlook f Hf).
      by rewrite bool_decide_eq_false_2 by (intros Hne; by apply Hne).
    - rewrite HD. apply not_true_iff_false.
      intros (n & Hn & Hnone%bool_decide_eq_true_1)%existsb_true_elem_of.
      apply elem_of_map_names in Hn as [f Hf]. congruence.
    - rewrite HL, omap_all_None, filter_all_False; [done| |].
      + intros n Hn%elem_of_map_names Hnone. destruct Hn. congruence.
      + intros f Hf. unfold new_field_conflict. rewrite (Hlook f Hf).
        by rewrite bool_decide_eq_false_2 by (intros Hne; by apply Hne). }
  split; [done|]. unfold SyncSchema. by rewrite Hreport.
Qed.

Lemma DiffSchema_same_fields_witness :
  DiffSchema db_people "people" people_fields
  = {| Compatiable := true; Destructive := false; Conflicts := [] |}.
Proof.
  refine (proj1 (DiffSchema_same_fields db_people "people"
                   {| Version := 1; Fields := people_fields |} eq_refl _)).
  apply (bool_decide_unpack _). vm_compute. exact I.
Defined.

(** With two fields of one name and different types, a schema is not
    compatible with itself. *)
Example DiffSchema_same_fields_duplicate_name :
  let fields := [ {| Name := "a"; Type_ := FieldTypeInt; Unique := false |};
                  {| Name := "a"; Type_ := FieldTypeString; Unique := false |} ]
  in
  Compatiable (DiffSchema (DefineSchema (Open "k") "t" fields 0).1 "t" fields)
  = false.
Proof. vm_compute. reflexivity. Qed.
(** ** Loading the data file and the schema file *)



Lemma persisted_rows_cons record file tableName :
  persisted_rows (record :: file) tableName
  = (if decide (PTable record = tableName) then PRows record else [])
    ++ persisted_rows file tableName.
Proof.
  unfold persisted_rows. rewrite filter_cons. by case_decide.
Qed.








(** After a restart the unique index holds the numbers as [float64]: a
    row whose [id] is the Go [int] 1 is accepted although the table holds
    a row read back with [id] 1, and a row whose [id] is the [float64] 1
    is refused. *)
Example Reopen_then_Insert_same_number :
  let db := Reopen db_big_file 99 in
  let db' := with_Heap (<[8%positive := {[ "id" := VInt 1 ]}]>
                          (<[9%positive := {[ "id" := VFloat 1 ]}]> (Heap db)))
                       db in
  (Insert db' "users" 8%positive 100).2 = Ok
  ∧ (Insert db' "users" 9%positive 100).2
    = Err "unique constraint violation: id".
Proof. evaluate. Qed.

Lemma persisted_rows_app file1 file2 tableName :
  persisted_rows (file1 ++ file2) tableName
  = persisted_rows file1 tableName ++ persisted_rows file2 tableName.
Proof. unfold persisted_rows. by rewrite filter_app, fmap_app, concat_app. Qed.




(** A row that was inserted and not flushed is gone after a restart. *)
Example Reopen_without_Flush :
  DumpAsJSON db_users_1 "users" = inl [ {[ "id" := VInt 1 ]} ]
  ∧ DumpAsJSON (Reopen db_users_1 99) "users" = inl [].
Proof. evaluate. Qed.

(** ** Key rotation *)

Lemma persisted_rows_of_tables h tableName (entries : list (string * Table)) :
  NoDup entries.*1 →
  persisted_rows
    (concat ((λ entry : string * Table,
                persisted h entry.1 <$> SealedClumps entry.2) <$> entries))
    tableName
  = match list_find (λ entry, entry.1 = tableName) entries with
    | Some (_, entry) =>
        deref h <$> concat (ClumpRows <$> SealedClumps entry.2)
    | None => []
    end.
Proof.
  assert (∀ n clumps,
            persisted_rows (persisted h n <$> clumps) tableName
            = if decide (n = tableName)
              then deref h <$> concat (ClumpRows <$> clumps) else [])
    as Hone.
  { intros n clumps. induction clumps as [|c clumps IH].
    { simpl. by case_decide. }
    rewrite !fmap_cons, persisted_rows_cons, IH. simpl.
    case_decide; [|done]. by rewrite fmap_app. }
  induction entries as [|e entries IH]; intros Hnd; [done|].
  rewrite fmap_cons in Hnd. apply NoDup_cons in Hnd as [He Hnd].
  rewrite fmap_cons. cbn [concat list_find].
  rewrite persisted_rows_app, Hone, (IH Hnd).
  case_decide as Hn; simpl.
  - destruct (list_find _ entries) as [[i e']|] eqn:Hfind;
      [|by rewrite app_nil_r].
    apply list_find_Some in Hfind as (Hi & He' & _).
    destruct He. rewrite Hn, <-He'.
    by apply list_elem_of_fmap_2, list_elem_of_lookup_2 with i.
  - by destruct (list_find _ entries) as [[i e']|].
Qed.

Lemma persisted_rows_rewritten db tableName :
  persisted_rows (rewritten_file db) tableName
  = match Tables db !! tableName with
    | Some table =>
        deref (Heap db) <$> concat (ClumpRows <$> SealedClumps table)
    | None => []
    end.
Proof.
  unfold rewritten_file.
  rewrite persisted_rows_of_tables by apply NoDup_fst_map_to_list.
  destruct (list_find _ _) as [[i [n t]]|] eqn:Hfind.
  - apply list_find_Some in Hfind as (Hi & Hn & _). simpl in Hn. subst n.
    apply list_elem_of_lookup_2, elem_of_map_to_list in Hi. by rewrite Hi.
  - destruct (Tables db !! tableName) as [t|] eqn:Ht; [|done].
    apply list_find_None in Hfind. rewrite Forall_forall in Hfind.
    destruct (Hfind (tableName, t)); [|done].
    by apply elem_of_map_to_list.
Qed.

(** A log without a record that can be read: [Restore] does not
    succeed on it. *)
Lemma restore_scan_no_record db timestamp frames :
  (∀ b, FrameBackup b ∉ frames) →
  (restore_scan db timestamp frames).2 ≠ Ok
  ∧ (forallb (λ f, negb (broken f)) frames = true →
     restore_scan db timestamp frames = (db, Err "recovery point not found")).
Proof.
  induction frames as [|[b| |err] frames IH]; intros Hno; simpl.
  - done.
  - destruct (Hno b). apply list_elem_of_here.
  - apply IH. intros b Hb. apply (Hno b). by apply list_elem_of_further.
  - done.
Qed.

Lemma rekeyed_log_no_record db newKey :
  newKey ≠ Key db → ∀ b, FrameBackup b ∉ rekeyed_log db newKey.
Proof.
  intros Hne b. unfold rekeyed_log. rewrite decide_False by done.
  intros (f & Hf & _)%list_elem_of_fmap. by destruct f.
Qed.

Lemma rekeyed_log_broken db newKey :
  forallb (λ f, negb (broken f)) (rekeyed_log db newKey)
  = forallb (λ f, negb (broken f)) (SafetyFile db).
Proof.
  unfold rekeyed_log. case_decide; [done|].
  generalize (SafetyFile db). intros frames.
  induction frames as [|[b| |err] frames IH]; simpl; [done|exact IH..|done].
Qed.

(** [ChangeKey] with the master key of [secure.pem] installs the new key
    and rewrites the data file from the tables in memory: afterwards the
    file holds, for every defined table, exactly the rows of its sealed
    clumps, in order, and nothing for any other name.  Records of orphan
    clumps, whose table is not defined, are thereby dropped from the
    file, and rows of a HotHeap are not written.  The safety log is not
    rewritten: when the new key differs from the old one and every
    record of the log was read under the old one, no record is read any
    more, and [Restore] never succeeds; it fails with "recovery point not
    found" when no frame of the log is broken.  With a wrong master key
    nothing changes. *)
Theorem ChangeKey_effect db masterKey newKey wrongKey tableName timestamp :
  (ChangeKey db (Some masterKey) newKey masterKey).2 = Ok
  ∧ Key (ChangeKey db (Some masterKey) newKey masterKey).1 = newKey
  ∧ Tables (ChangeKey db (Some masterKey) newKey masterKey).1 = Tables db
  ∧ persisted_rows (File (ChangeKey db (Some masterKey) newKey masterKey).1)
                   tableName
    = match Tables db !! tableName with
      | Some table =>
          deref (Heap db) <$> concat (ClumpRows <$> SealedClumps table)
      | None => []
      end
  ∧ (newKey ≠ Key db → FrameUnreadable ∉ SafetyFile db →
     (Restore (ChangeKey db (Some masterKey) newKey masterKey).1
              timestamp true).2 ≠ Ok
     ∧ (forallb (λ f, negb (broken f)) (SafetyFile db) = true →
        Restore (ChangeKey db (Some masterKey) newKey masterKey).1
                timestamp true
        = ((ChangeKey db (Some masterKey) newKey masterKey).1,
           Err "recovery point not found")))
  ∧ (wrongKey ≠ masterKey →
     ChangeKey db (Some masterKey) newKey wrongKey
     = (db, Err "invalid master key provided")).
Proof.
  unfold ChangeKey. rewrite decide_False by (intros Hne; by apply Hne).
  cbn [fst snd].
  split; [done|]. split; [done|]. split; [done|]. split; [|split].
  - apply persisted_rows_rewritten.
  - intros Hne _. unfold Restore. cbn [negb].
    match goal with
    | |- context [restore_scan ?d timestamp ?log] =>
        destruct (restore_scan_no_record d timestamp log) as [Hfail Hnone]
    end.
    { by apply rekeyed_log_no_record. }
    split; [done|]. intros Hb. apply Hnone.
    cbn [SafetyFile with_Key with_SafetyFile]. by rewrite rekeyed_log_broken.
  - intros Hne. by rewrite decide_True by by apply not_eq_sym.
Qed.

Lemma ChangeKey_effect_witness :
  ChangeKey db_orphans (Some "master") "new" "guess"
  = (db_orphans, Err "invalid master key provided")
  ∧ persisted_rows (File db_orphans) "users"
    = [ {[ "id" := VInt 1 ]}; {[ "id" := VInt 2 ]}; ∅ ]
  ∧ persisted_rows
      (File (ChangeKey db_orphans (Some "master") "new" "master").1) "users"
    = []
  ∧ (Restore db_users_deleted 20 true).2 = Ok
  ∧ (Restore (ChangeKey db_users_deleted (Some "master") "new" "master").1
             20 true).2
    = Err "recovery point not found".
Proof.
  destruct (ChangeKey_effect db_orphans "master" "new" "guess" "users" 20)
    as (_ & _ & _ & Hrows & _ & Hwrong).
  destruct (ChangeKey_effect db_users_deleted "master" "new" "guess" "users"
              20) as (_ & _ & _ & _ & Hlog & _).
  split; [by apply Hwrong|]. split; [vm_compute; reflexivity|].
  split; [rewrite Hrows; vm_compute; reflexivity|].
  split; [vm_compute; reflexivity|].
  destruct Hlog as [_ ->]; [done| |reflexivity..].
  vm_compute. intros Hin. inversion Hin; subst. by inversion H1.
Defined.



(** ** The SDK's reading of the engine's error messages *)

Lemma append_cons a s r : (String a s ++ r)%string = String a (s ++ r)%string.
Proof. reflexivity. Qed.

Lemma append_nil s : (EmptyString ++ s)%string = s.
Proof. reflexivity. Qed.

Lemma starts_with_app sub rest : starts_with sub (sub ++ rest) = true.
Proof.
  induction sub as [|a sub IH]; [done|].
  rewrite append_cons. cbn [starts_with]. by rewrite Ascii.eqb_refl.
Qed.

Lemma includes_app sub rest : includes sub (sub ++ rest) = true.
Proof.
  destruct sub as [|a sub].
  - by destruct rest.
  - rewrite append_cons. cbn [includes starts_with].
    by rewrite Ascii.eqb_refl, starts_with_app.
Qed.

Lemma all_chars_impl (P Q : Ascii.ascii → bool) s :
  (∀ c, P c = true → Q c = true) → all_chars P s = true → all_chars Q s = true.
Proof.
  intros HPQ. induction s as [|c s IH]; simpl; [done|].
  intros [Hc Hs]%andb_true_iff. by rewrite (HPQ c Hc), IH.
Qed.

Lemma starts_with_no_colon sub f :
  no_colon f = true → no_colon sub = false → starts_with sub f = false.
Proof.
  revert f. induction sub as [|a sub IH]; intros f Hf Hsub; [done|].
  destruct f as [|c f]; [done|].
  unfold no_colon in *. cbn [all_chars starts_with] in *.
  apply andb_true_iff in Hf as [Hc Hf].
  destruct (Ascii.eqb a c) eqn:Hac; [|done].
  apply Ascii.eqb_eq in Hac as ->. rewrite Hc in Hsub. by apply IH.
Qed.

Lemma includes_no_colon sub f :
  no_colon f = true → no_colon sub = false → includes sub f = false.
Proof.
  intros Hf Hsub. induction f as [|c f IH]; simpl.
  - destruct sub; [done|]. done.
  - rewrite (starts_with_no_colon sub (String c f)) by done. simpl.
    apply IH. unfold no_colon in *. cbn [all_chars] in Hf.
    by apply andb_true_iff in Hf as [_ ?].
Qed.

Lemma includes_skip c0 sub p rest :
  all_chars (λ c, negb (Ascii.eqb c0 c)) p = true →
  includes (String c0 sub) (p ++ rest) = includes (String c0 sub) rest.
Proof.
  induction p as [|c p IH]; [done|]. cbn [all_chars].
  intros [Hc Hp]%andb_true_iff. apply negb_true_iff in Hc.
  rewrite append_cons. cbn [includes starts_with]. by rewrite Hc, IH.
Qed.

Lemma append_snoc_assoc cur c s :
  ((cur ++ String c EmptyString) ++ s)%string = (cur ++ String c s)%string.
Proof.
  induction cur as [|a cur IH]; [done|]. rewrite !append_cons. by f_equal.
Qed.

Lemma append_empty_r s : (s ++ EmptyString)%string = s.
Proof. induction s as [|a s IH]; [done|]. rewrite append_cons. by f_equal. Qed.

Lemma split_go_skip cur p rest :
  no_colon p = true →
  split_go ": " 0 cur (p ++ rest) = split_go ": " 0 (cur ++ p) rest.
Proof.
  revert cur. induction p as [|c p IH]; intros cur.
  { intros _. by rewrite append_nil, append_empty_r. }
  unfold no_colon in *. cbn [all_chars].
  intros [Hc Hp]%andb_true_iff. apply negb_true_iff in Hc.
  assert (Ascii.eqb colon c = false) as Hc'.
  { rewrite Ascii.eqb_sym. exact Hc. }
  rewrite append_cons.
  cbn [split_go starts_with]. fold colon. rewrite Hc'.
  by rewrite IH, append_snoc_assoc.
Qed.

Lemma split_go_no_colon cur f :
  no_colon f = true → split_go ": " 0 cur f = [(cur ++ f)%string].
Proof.
  intros Hf. rewrite <-(append_empty_r f) at 1.
  by rewrite split_go_skip.
Qed.

Lemma digit_no_colon p :
  all_chars is_digit p = true → no_colon p = true.
Proof.
  apply all_chars_impl. by intros [[] [] [] [] [] [] [] []].
Qed.

Lemma digit_not_letter c0 p :
  is_digit c0 = false →
  all_chars is_digit p = true →
  all_chars (λ c, negb (Ascii.eqb c0 c)) p = true.
Proof.
  intros Hc0. apply all_chars_impl. intros c Hc.
  apply negb_true_iff, Ascii.eqb_neq. intros ->. congruence.
Qed.

Lemma pretty_N_go_digits x s :
  all_chars is_digit s = true → all_chars is_digit (pretty_N_go x s) = true.
Proof.
  revert s. induction (N.lt_wf_0 x) as [x _ IH]; intros s Hs.
  assert (x = 0 ∨ 0 < x)%N as [->|Hx] by lia.
  - by rewrite pretty_N_go_0.
  - rewrite pretty_N_go_step by done. apply IH.
    { by apply N.div_lt. }
    simpl. rewrite Hs, andb_true_r.
    unfold pretty_N_char. by repeat case_match.
Qed.

Lemma pretty_nat_digits (i : nat) : all_chars is_digit (pretty i) = true.
Proof.
  unfold pretty, pretty_nat, pretty, pretty_N.
  case_decide; [done|]. by apply pretty_N_go_digits.
Qed.

Lemma includes_app_r sub p rest :
  includes sub rest = true → includes sub (p ++ rest) = true.
Proof.
  intros Hr. induction p as [|c p IH]; [done|].
  rewrite append_cons. cbn [includes]. by rewrite IH, orb_true_r.
Qed.

Lemma includes_row c0 sub (i : nat) tail :
  all_chars (λ c, negb (Ascii.eqb c0 c)) "row " = true →
  is_digit c0 = false →
  includes (String c0 sub) ("row " ++ pretty i ++ tail)
  = includes (String c0 sub) tail.
Proof.
  intros Hrow Hc0. rewrite (includes_skip c0 sub "row ") by done.
  apply includes_skip, digit_not_letter; [done|apply pretty_nat_digits].
Qed.

Lemma split_go_piece cur p rest :
  no_colon p = true →
  split_go ": " 0 cur (p ++ ": " ++ rest)
  = (cur ++ p)%string :: split_go ": " 0 "" rest.
Proof. intros Hp. by rewrite split_go_skip. Qed.

Lemma pretty_nat_no_colon (i : nat) : no_colon (pretty i) = true.
Proof. apply digit_no_colon, pretty_nat_digits. Qed.

(** A message made of a kind, [": "] and a name without colon splits into
    the two. *)
Lemma split_kind_name kind name :
  no_colon kind = true → no_colon name = true →
  split ": " (kind ++ ": " ++ name) = [kind; name].
Proof.
  intros Hk Hn. unfold split.
  rewrite split_go_piece by done. by rewrite split_go_no_colon.
Qed.

(** With the row number in front, the kind is the second piece. *)
Lemma split_row_kind_name (i : nat) kind name :
  no_colon kind = true →
  split ": " ("row " ++ pretty i ++ ": " ++ kind ++ ": " ++ name) !! 1%nat
  = Some kind.
Proof.
  intros Hk. unfold split.
  rewrite (split_go_skip "" "row ") by done.
  rewrite split_go_piece by apply pretty_nat_no_colon.
  by rewrite split_go_piece.
Qed.

Ltac rewrite_as T H :=
  let E := fresh in assert T as E by exact H; rewrite E; clear E.

(** The three messages the SDK reads as they are meant. *)
Lemma newEmojiDBError_table_not_found tableName :
  no_colon tableName = true →
  newEmojiDBError ("table not found: " ++ tableName)
  = {| code := "TABLE_NOT_FOUND"; details := TableIs (Some tableName) |}.
Proof.
  intros Hn. unfold newEmojiDBError.
  rewrite_as (includes "table not found:" ("table not found: " ++ tableName) = true)
    (includes_app "table not found:" (" " ++ tableName)).
  by rewrite_as (split ": " ("table not found: " ++ tableName) = ["table not found"; tableName])
    (split_kind_name "table not found" tableName eq_refl Hn).
Qed.

Lemma newEmojiDBError_missing_field name :
  no_colon name = true →
  newEmojiDBError ("missing field: " ++ name)
  = {| code := "MISSING_FIELD"; details := FieldIs (Some name) |}.
Proof.
  intros Hn. unfold newEmojiDBError.
  pose proof (includes_no_colon "table not found:" name Hn eq_refl) as H1.
  change (includes "table not found:" ("missing field: " ++ name) = false)
    in H1. rewrite H1.
  rewrite_as (includes "missing field:" ("missing field: " ++ name) = true)
    (includes_app "missing field:" (" " ++ name)).
  by rewrite_as (split ": " ("missing field: " ++ name) = ["missing field"; name])
    (split_kind_name "missing field" name eq_refl Hn).
Qed.

Lemma newEmojiDBError_unique_constraint name :
  no_colon name = true →
  newEmojiDBError ("unique constraint violation: " ++ name)
  = {| code := "UNIQUE_CONSTRAINT"; details := FieldIs (Some name) |}.
Proof.
  intros Hn. unfold newEmojiDBError.
  pose proof (includes_no_colon "table not found:" name Hn eq_refl) as H1.
  change (includes "table not found:"
            ("unique constraint violation: " ++ name) = false) in H1.
  rewrite H1.
  pose proof (includes_no_colon "missing field:" name Hn eq_refl) as H2.
  change (includes "missing field:"
            ("unique constraint violation: " ++ name) = false) in H2.
  rewrite H2.
  rewrite_as (includes "unique constraint violation:" ("unique constraint violation: " ++ name) = true)
    (includes_app "unique constraint violation:" (" " ++ name)).
  by rewrite_as (split ": " ("unique constraint violation: " ++ name) = ["unique constraint violation"; name])
    (split_kind_name "unique constraint violation" name eq_refl Hn).
Qed.

(** A test of the constructor fails on a batch message when it fails on
    what follows the row number. *)
Lemma includes_row_tail c0 sub (i : nat) tail name :
  all_chars (λ c, negb (Ascii.eqb c0 c)) "row " = true →
  is_digit c0 = false →
  includes (String c0 sub) (tail ++ name) = includes (String c0 sub) name →
  includes (String c0 sub) name = false →
  includes (String c0 sub) ("row " ++ pretty i ++ tail ++ name) = false.
Proof. intros Hrow Hc0 Htail Hname. by rewrite includes_row, Htail. Qed.

Lemma newEmojiDBError_row_missing_field (i : nat) name :
  no_colon name = true →
  newEmojiDBError ("row " ++ pretty i ++ ": missing field: " ++ name)
  = {| code := "MISSING_FIELD"; details := FieldIs (Some "missing field") |}.
Proof.
  intros Hn. unfold newEmojiDBError.
  rewrite (includes_row_tail _ "able not found:" i ": missing field: " name)
    by (try done; by apply includes_no_colon).
  rewrite (includes_app_r "missing field:" "row ") by
    (apply includes_app_r;
     exact (includes_app_r "missing field:" ": "
              _ (includes_app "missing field:" (" " ++ name)))).
  by rewrite_as
    (split ": " ("row " ++ pretty i ++ ": missing field: " ++ name) !! 1%nat
     = Some "missing field")
    (split_row_kind_name i "missing field" name eq_refl).
Qed.

Lemma newEmojiDBError_row_unique_constraint (i : nat) name :
  no_colon name = true →
  newEmojiDBError
    ("row " ++ pretty i ++ ": unique constraint violation: " ++ name)
  = {| code := "UNIQUE_CONSTRAINT";
       details := FieldIs (Some "unique constraint violation") |}.
Proof.
  intros Hn. unfold newEmojiDBError.
  rewrite (includes_row_tail _ "able not found:" i
             ": unique constraint violation: " name)
    by (try done; by apply includes_no_colon).
  rewrite (includes_row_tail _ "issing field:" i
             ": unique constraint violation: " name)
    by (try done; by apply includes_no_colon).
  rewrite (includes_app_r "unique constraint violation:" "row ") by
    (apply includes_app_r;
     exact (includes_app_r "unique constraint violation:" ": "
              _ (includes_app "unique constraint violation:" (" " ++ name)))).
  by rewrite_as
    (split ": " ("row " ++ pretty i ++ ": unique constraint violation: " ++ name) !! 1%nat
     = Some "unique constraint violation")
    (split_row_kind_name i "unique constraint violation" name eq_refl).
Qed.

Lemma newEmojiDBError_row_duplicate (i : nat) name :
  no_colon name = true →
  includes "type mismatch" name = false →
  newEmojiDBError
    ("row " ++ pretty i ++ ": duplicate value in batch for field: " ++ name)
  = {| code := "UNKNOWN_ERROR"; details := NoDetails |}.
Proof.
  intros Hn Ht. unfold newEmojiDBError.
  rewrite (includes_row_tail _ "able not found:" i
             ": duplicate value in batch for field: " name)
    by (try done; by apply includes_no_colon).
  rewrite (includes_row_tail _ "issing field:" i
             ": duplicate value in batch for field: " name)
    by (try done; by apply includes_no_colon).
  rewrite (includes_row_tail _ "nique constraint violation:" i
             ": duplicate value in batch for field: " name)
    by (try done; by apply includes_no_colon).
  by rewrite (includes_row_tail _ "ype mismatch" i
                ": duplicate value in batch for field: " name).
Qed.

(** The error of the validation phase of [BulkInsert]: it carries the
    number of a row of the batch and the name of a field of the schema. *)
Lemma bulk_check_row_Err idx earlier i record fields e :
  bulk_check_row idx earlier i record fields = Err e →
  ∃ f, f ∈ fields
    ∧ (e = ("row " ++ pretty i ++ ": missing field: " ++ Name f)%string
       ∨ e = ("row " ++ pretty i ++ ": unique constraint violation: "
              ++ Name f)%string
       ∨ e = ("row " ++ pretty i ++ ": duplicate value in batch for field: "
              ++ Name f)%string).
Proof.
  induction fields as [|f fields IH]; simpl; [done|].
  assert (bulk_check_row idx earlier i record fields = Err e →
          ∃ g, g ∈ f :: fields
            ∧ (e = ("row " ++ pretty i ++ ": missing field: " ++ Name g)%string
               ∨ e = ("row " ++ pretty i ++ ": unique constraint violation: "
                      ++ Name g)%string
               ∨ e = ("row " ++ pretty i
                      ++ ": duplicate value in batch for field: "
                      ++ Name g)%string)) as Hrest.
  { intros (g & Hg & He)%IH. exists g. split; [by apply list_elem_of_further|done]. }
  destruct (record !! Name f) as [v|].
  - destruct (Unique f); [|done].
    case_bool_decide.
    + intros [= <-]. exists f. split; [apply list_elem_of_here|]. right. by left.
    + destruct (existsb _ earlier); [|done].
      intros [= <-]. exists f. split; [apply list_elem_of_here|]. right. by right.
  - intros [= <-]. exists f. split; [apply list_elem_of_here|]. by left.
Qed.

Lemma bulk_validate_Err idx fields earlier records e :
  bulk_validate idx fields earlier records = Err e →
  ∃ (i : nat) f,
    (length earlier ≤ i < length earlier + length records)%nat
    ∧ f ∈ fields
    ∧ (e = ("row " ++ pretty i ++ ": missing field: " ++ Name f)%string
       ∨ e = ("row " ++ pretty i ++ ": unique constraint violation: "
              ++ Name f)%string
       ∨ e = ("row " ++ pretty i ++ ": duplicate value in batch for field: "
              ++ Name f)%string).
Proof.
  revert earlier. induction records as [|record records IH]; intros earlier;
    simpl; [done|].
  destruct (bulk_check_row idx earlier (length earlier) record fields)
    as [|e'] eqn:Hrow.
  - intros (i & f & Hi & Hf & He)%IH. exists i, f.
    rewrite length_app in Hi. simpl in Hi. split; [lia|done].
  - intros [= <-]. apply bulk_check_row_Err in Hrow as (f & Hf & He).
    exists (length earlier), f. split; [lia|done].
Qed.

(** X.  A table that is not defined: the SDK, handed the message of the
    engine unchanged, reports TABLE_NOT_FOUND with the name of the table
    for [Insert] and [BulkInsert], and UNKNOWN_ERROR without details for
    [Flush], [Update] and [Delete], whose message has no colon behind
    "table not found". *)
Theorem SDK_missing_table db tableName record records filter update now :
  Tables db !! tableName = None →
  no_colon tableName = true →
  ∃ e1 e2,
    (Insert db tableName record now).2 = Err e1
    ∧ (BulkInsert db tableName records now).2 = Err e1
    ∧ newEmojiDBError e1
      = {| code := "TABLE_NOT_FOUND"; details := TableIs (Some tableName) |}
    ∧ (Flush db tableName now).2 = Err e2
    ∧ (Update db tableName filter update now).2 = Err e2
    ∧ (Delete db tableName filter now).2 = Err e2
    ∧ newEmojiDBError e2
      = {| code := "UNKNOWN_ERROR"; details := NoDetails |}.
Proof.
  intros Ht Hn.
  exists ("table not found: " ++ tableName)%string, "table not found".
  unfold Insert, BulkInsert, Flush, Update, Delete. rewrite Ht.
  split; [done|]. split; [done|].
  split; [by apply newEmojiDBError_table_not_found|].
  split; [done|]. split; [done|]. split; [done|]. reflexivity.
Qed.

Lemma SDK_missing_table_witness :
  ∃ e1 e2,
    (Insert db_users "ghost" 1%positive 0).2 = Err e1
    ∧ (BulkInsert db_users "ghost" [1%positive] 0).2 = Err e1
    ∧ newEmojiDBError e1
      = {| code := "TABLE_NOT_FOUND"; details := TableIs (Some "ghost") |}
    ∧ (Flush db_users "ghost" 0).2 = Err e2
    ∧ (Update db_users "ghost" id_is_1 price_99 0).2 = Err e2
    ∧ (Delete db_users "ghost" id_is_1 0).2 = Err e2
    ∧ newEmojiDBError e2
      = {| code := "UNKNOWN_ERROR"; details := NoDetails |}.
Proof.
  apply (SDK_missing_table db_users "ghost" 1%positive [1%positive]
           id_is_1 price_99 0); reflexivity.
Defined.

(** X.  A row that [Insert] rejects: the SDK, handed the message
    unchanged, reports MISSING_FIELD or UNIQUE_CONSTRAINT with the name of
    the first schema field the row fails, when that name has no colon. *)
Theorem SDK_reads_Insert_errors db tableName table record now e :
  Tables db !! tableName = Some table →
  (∀ f, f ∈ Fields (TableSchema table) → no_colon (Name f) = true) →
  (Insert db tableName record now).2 = Err e →
  ∃ f, f ∈ Fields (TableSchema table)
    ∧ ((deref (Heap db) record !! Name f = None
        ∧ newEmojiDBError e
          = {| code := "MISSING_FIELD";
               details := FieldIs (Some (Name f)) |})
       ∨ (Unique f = true
          ∧ (∃ v, deref (Heap db) record !! Name f = Some v
                  ∧ v ∈ index_of (UniqueIndices table) (Name f))
          ∧ newEmojiDBError e
            = {| code := "UNIQUE_CONSTRAINT";
                 details := FieldIs (Some (Name f)) |})).
Proof.
  intros Ht Hnames. unfold Insert. rewrite Ht. cbn zeta.
  destruct (check_constraints _ _ _) as [|e'] eqn:Hc; [done|].
  intros [= ->].
  apply check_constraints_Err in Hc as (pre & f & post & Hfields & _ & He).
  assert (f ∈ Fields (TableSchema table)) as Hf.
  { rewrite Hfields. apply elem_of_app. right. apply list_elem_of_here. }
  exists f. split; [done|].
  destruct He as [[-> Hmiss]|(-> & Hu & Hv)]; [left|right].
  - split; [done|]. by apply newEmojiDBError_missing_field, Hnames.
  - split; [done|]. split; [done|].
    by apply newEmojiDBError_unique_constraint, Hnames.
Qed.

Lemma SDK_reads_Insert_errors_witness :
  ∃ f, f ∈ Fields (TableSchema users_table)
    ∧ ((deref (Heap db_users) 3%positive !! Name f = None
        ∧ newEmojiDBError "missing field: id"
          = {| code := "MISSING_FIELD";
               details := FieldIs (Some (Name f)) |})
       ∨ (Unique f = true
          ∧ (∃ v, deref (Heap db_users) 3%positive !! Name f = Some v
                  ∧ v ∈ index_of (UniqueIndices users_table) (Name f))
          ∧ newEmojiDBError "missing field: id"
            = {| code := "UNIQUE_CONSTRAINT";
                 details := FieldIs (Some (Name f)) |})).
Proof.
  apply (SDK_reads_Insert_errors db_users "users" users_table 3%positive 0
           "missing field: id" eq_refl).
  - intros f Hf%list_elem_of_singleton. subst f. reflexivity.
  - vm_compute. reflexivity.
Defined.

(** X.  A batch that [BulkInsert] rejects at a row: the SDK, handed the
    message unchanged, still finds the kind of a missing field or of a
    value already indexed, but what it reports as the field is the kind
    of the error, the second piece of the message, and a value repeated
    within the batch is reported as UNKNOWN_ERROR. *)
Theorem SDK_misreads_BulkInsert_errors db tableName table records now e :
  Tables db !! tableName = Some table →
  (∀ f, f ∈ Fields (TableSchema table) →
        no_colon (Name f) = true ∧ includes "type mismatch" (Name f) = false) →
  (BulkInsert db tableName records now).2 = Err e →
  ∃ (i : nat) f,
    (i < length records)%nat ∧ f ∈ Fields (TableSchema table)
    ∧ ((e = ("row " ++ pretty i ++ ": missing field: " ++ Name f)%string
        ∧ newEmojiDBError e
          = {| code := "MISSING_FIELD";
               details := FieldIs (Some "missing field") |})
       ∨ (e = ("row " ++ pretty i ++ ": unique constraint violation: "
               ++ Name f)%string
          ∧ newEmojiDBError e
            = {| code := "UNIQUE_CONSTRAINT";
                 details := FieldIs (Some "unique constraint violation") |})
       ∨ (e = ("row " ++ pretty i
               ++ ": duplicate value in batch for field: " ++ Name f)%string
          ∧ newEmojiDBError e
            = {| code := "UNKNOWN_ERROR"; details := NoDetails |})).
Proof.
  intros Ht Hnames. unfold BulkInsert. rewrite Ht.
  destruct (bulk_validate _ _ _ _) as [|e'] eqn:Hv; [done|].
  intros [= ->].
  apply bulk_validate_Err in Hv as (i & f & Hi & Hf & He).
  rewrite length_fmap in Hi. simpl in Hi.
  destruct (Hnames f Hf) as [Hcolon Htype].
  exists i, f. split; [lia|]. split; [done|].
  destruct He as [->|[->| ->]]; [left|right; left|right; right];
    (split; [done|]).
  - by apply newEmojiDBError_row_missing_field.
  - by apply newEmojiDBError_row_unique_constraint.
  - by apply newEmojiDBError_row_duplicate.
Qed.

Lemma SDK_misreads_BulkInsert_errors_witness :
  ∃ (i : nat) f,
    (i < length [2%positive; 1%positive])%nat
    ∧ f ∈ Fields (TableSchema users_table)
    ∧ (("row 1: unique constraint violation: id"
        = ("row " ++ pretty i ++ ": missing field: " ++ Name f)%string
        ∧ newEmojiDBError "row 1: unique constraint violation: id"
          = {| code := "MISSING_FIELD";
               details := FieldIs (Some "missing field") |})
       ∨ ("row 1: unique constraint violation: id"
          = ("row " ++ pretty i ++ ": unique constraint violation: "
             ++ Name f)%string
          ∧ newEmojiDBError "row 1: unique constraint violation: id"
            = {| code := "UNIQUE_CONSTRAINT";
                 details := FieldIs (Some "unique constraint violation") |})
       ∨ ("row 1: unique constraint violation: id"
          = ("row " ++ pretty i
             ++ ": duplicate value in batch for field: " ++ Name f)%string
          ∧ newEmojiDBError "row 1: unique constraint violation: id"
            = {| code := "UNKNOWN_ERROR"; details := NoDetails |})).
Proof.
  assert (∃ t, Tables db_users_1 !! "users" = Some t
               ∧ Fields (TableSchema t) = Fields (TableSchema users_table))
    as (t & Ht & Hfields).
  { destruct (Tables db_users_1 !! "users") as [t|] eqn:Ht;
      [|by vm_compute in Ht].
    exists t. split; [done|]. vm_compute in Ht. injection Ht as <-.
    reflexivity. }
  rewrite <-Hfields.
  apply (SDK_misreads_BulkInsert_errors db_users_1 "users" t
           [2%positive; 1%positive] 0
           "row 1: unique constraint violation: id" Ht).
  - rewrite Hfields. intros f Hf%list_elem_of_singleton. subst f.
    split; reflexivity.
  - vm_compute. reflexivity.
Defined.

(** A name with the separator in it is cut at the separator. *)
Example SDK_cuts_name_at_separator :
  newEmojiDBError "missing field: a: b"
  = {| code := "MISSING_FIELD"; details := FieldIs (Some "a") |}
  ∧ newEmojiDBError "missing field: table not found:"
    = {| code := "TABLE_NOT_FOUND"; details := TableIs (Some "table not found:") |}.
Proof. split; vm_compute; reflexivity. Qed.
